(** * BDSpace: angle reduction, vector helpers, coordinate transforms and
      parametric curves

    A shallow embedding of the Cython sources of BDSpace over the real
    numbers.  C [double]s are read as reals ([R]), so a statement below is
    a statement in exact real arithmetic unless it says otherwise; [libc]
    functions ([fabs], [sqrt], [sin], [cos], [atan2]) are the corresponding
    real functions.  Typed memory views and [cpython.array]s are lists
    updated by index.

    Angle reduction is embedded a second time over IEEE binary64 (module
    [Binary64]), where the statements on it that rounding decides are
    settled by evaluation. *)

From Stdlib Require Import Reals Lra Lia ZArith.
From Stdlib Require Floats.
From stdpp Require Import base list.

Open Scope R_scope.

(** ** libc *)

Definition M_PI : R := PI.
Definition fabs (x : R) : R := Rabs x.

(** Floor division of two doubles, [a // b]: the floor of the quotient (not
    its truncation). *)
Definition floordiv (a b : R) : R := IZR (Zfloor (a / b)).

(** ** Angle reduction (Coordinates/transforms) *)

(** [cdef double __reduce_angle(double angle, bint center=True,
    bint positive=False)] *)
Definition __reduce_angle (angle : R) (center positive : bool) : R :=
  let reduced_angle :=
    if Rlt_dec (2 * M_PI) (fabs angle)
    then angle - 2 * M_PI * floordiv angle (2 * M_PI)
    else angle in
  let reduced_angle :=
    if center then
      if Rlt_dec reduced_angle (- M_PI) then reduced_angle + 2 * M_PI
      else if Rlt_dec M_PI reduced_angle then reduced_angle - 2 * M_PI
      else reduced_angle
    else reduced_angle in
  if positive then
    if Rlt_dec reduced_angle 0 then reduced_angle + 2 * M_PI else reduced_angle
  else reduced_angle.

(** [cdef double[:] __reduce_angles(double[:] angles, bint center=True,
    bint positive=False)]: a fresh array, filled left to right. *)
Definition __reduce_angles (angles : list R) (center positive : bool) : list R :=
  (fun a => __reduce_angle a center positive) <$> angles.

(** [def reduce_angle(angle, keep_sign=False)] on a number. *)
Definition reduce_angle (angle : R) (keep_sign : bool) : R :=
  __reduce_angle angle false (negb keep_sign).

(** ** Vector helpers (Coordinates/transforms) *)

#[global] Instance R_inhabited : Inhabited R := populate 0.

(** [cpdef double vector_norm(double[:] v)]: the squares are accumulated left
    to right, starting from 0.0. *)
Definition vector_norm (v : list R) : R :=
  sqrt (foldl (fun result vi => result + vi * vi) 0 v).

(** [cpdef double[:] unit_vector(double[:] v)]: a fresh array of the size of
    [v]; every slot is written exactly once, by one of the two loops. *)
Definition unit_vector (v : list R) : list R :=
  let length := vector_norm v in
  if Req_dec_T length 0
  then (fun _ => 0) <$> v
  else (fun vi => vi / length) <$> v.

(** [cdef double[:] __extend_vector_dimensions(double[:] v, Py_ssize_t s)] *)
Definition __extend_vector_dimensions (v : list R) (s : nat) : list R :=
  (fun i => if (i <? length v)%nat then v !!! i else 0) <$> seq 0 s.

(** ** Coordinate transforms (Coordinates/transforms) *)

(** libc's [atan2] on the reals.  The reals have a single zero, so the signed
    zero cases of the C function collapse to [atan2 0 0 = 0]. *)
Definition atan2 (y x : R) : R :=
  if Rlt_dec 0 x then atan (y / x)
  else if Rlt_dec x 0 then
    if Rlt_dec y 0 then atan (y / x) - PI else atan (y / x) + PI
  else if Rlt_dec 0 y then PI / 2
  else if Rlt_dec y 0 then - (PI / 2)
  else 0.

(** A memory view handed to a function is the caller's buffer.  The functions
    that write into their argument therefore return the buffer as the call
    leaves it, next to the freshly allocated result.  [if s < 3] rebinds the
    local name to an extended copy: from then on the caller's buffer is out
    of reach. *)

(** [cdef double[:] __cartesian_to_spherical_point(double[:] xyz)] *)
Definition __cartesian_to_spherical_point (xyz : list R) : list R :=
  let xyz := if (length xyz <? 3)%nat then __extend_vector_dimensions xyz 3 else xyz in
  let xy := xyz !!! 0%nat * xyz !!! 0%nat + xyz !!! 1%nat * xyz !!! 1%nat in
  let r_theta_phi := replicate 3 0 in
  let r_theta_phi := <[0%nat := sqrt (xy + xyz !!! 2%nat * xyz !!! 2%nat)]> r_theta_phi in
  let r_theta_phi := <[1%nat := atan2 (sqrt xy) (xyz !!! 2%nat)]> r_theta_phi in
  <[2%nat := __reduce_angle (atan2 (xyz !!! 1%nat) (xyz !!! 0%nat)) false true]> r_theta_phi.

(** The arithmetic of [__spherical_to_cartesian_point] once [phi] has been
    reduced. *)
Definition spherical_xyz (r_theta_phi : list R) : list R :=
  let xy := r_theta_phi !!! 0%nat * sin (r_theta_phi !!! 1%nat) in
  let xyz := replicate 3 0 in
  let xyz := <[0%nat := xy * cos (r_theta_phi !!! 2%nat)]> xyz in
  let xyz := <[1%nat := xy * sin (r_theta_phi !!! 2%nat)]> xyz in
  <[2%nat := r_theta_phi !!! 0%nat * cos (r_theta_phi !!! 1%nat)]> xyz.

(** [cdef double[:] __spherical_to_cartesian_point(double[:] r_theta_phi)]:
    returns (the caller's buffer after the call, xyz). *)
Definition __spherical_to_cartesian_point (r_theta_phi : list R) : list R * list R :=
  if (length r_theta_phi <? 3)%nat then
    let local := __extend_vector_dimensions r_theta_phi 3 in
    let local := <[2%nat := __reduce_angle (local !!! 2%nat) false true]> local in
    (r_theta_phi, spherical_xyz local)
  else
    let r_theta_phi :=
      <[2%nat := __reduce_angle (r_theta_phi !!! 2%nat) false true]> r_theta_phi in
    (r_theta_phi, spherical_xyz r_theta_phi).

(** [cdef double[:] __cartesian_to_cylindrical_point(double[:] xyz)] *)
Definition __cartesian_to_cylindrical_point (xyz : list R) : list R :=
  let xyz := if (length xyz <? 3)%nat then __extend_vector_dimensions xyz 3 else xyz in
  let rho_phi_z := replicate 3 0 in
  let rho_phi_z :=
    <[0%nat := sqrt (xyz !!! 0%nat * xyz !!! 0%nat + xyz !!! 1%nat * xyz !!! 1%nat)]> rho_phi_z in
  let rho_phi_z := <[1%nat := atan2 (xyz !!! 1%nat) (xyz !!! 0%nat)]> rho_phi_z in
  <[2%nat := xyz !!! 2%nat]> rho_phi_z.

Definition cylindrical_xyz (rho_phi_z : list R) : list R :=
  let xyz := replicate 3 0 in
  let xyz := <[0%nat := rho_phi_z !!! 0%nat * cos (rho_phi_z !!! 1%nat)]> xyz in
  let xyz := <[1%nat := rho_phi_z !!! 0%nat * sin (rho_phi_z !!! 1%nat)]> xyz in
  <[2%nat := rho_phi_z !!! 2%nat]> xyz.

(** [cdef double[:] __cylindrical_to_cartesian_point(double[:] rho_phi_z)]:
    returns (the caller's buffer after the call, xyz). *)
Definition __cylindrical_to_cartesian_point (rho_phi_z : list R) : list R * list R :=
  if (length rho_phi_z <? 3)%nat then
    let local := __extend_vector_dimensions rho_phi_z 3 in
    let local := <[1%nat := __reduce_angle (local !!! 1%nat) false true]> local in
    (rho_phi_z, cylindrical_xyz local)
  else
    let rho_phi_z :=
      <[1%nat := __reduce_angle (rho_phi_z !!! 1%nat) false true]> rho_phi_z in
    (rho_phi_z, cylindrical_xyz rho_phi_z).

(** The batched variants run with [boundscheck(False)]: an index outside the
    array is an unchecked memory access, which the embedding reports as
    [None]. *)
Definition load (a : list R) (i : nat) : option R := a !! i.

Definition store (a : list R) (i : nat) (v : R) : option (list R) :=
  if (i <? length a)%nat then Some (<[i := v]> a) else None.

(** One turn of the loop of [__spherical_to_cartesian_points] at offset [i]. *)
Definition spherical_block (i : nat) (st : list R * list R) : option (list R * list R) :=
  let '(r_theta_phi, xyz) := st in
  phi ← load r_theta_phi (i + 2);
  r_theta_phi ← store r_theta_phi (i + 2) (__reduce_angle phi false true);
  r ← load r_theta_phi i;
  theta ← load r_theta_phi (i + 1);
  let xy := r * sin theta in
  phi ← load r_theta_phi (i + 2);
  xyz ← store xyz i (xy * cos phi);
  phi ← load r_theta_phi (i + 2);
  xyz ← store xyz (i + 1) (xy * sin phi);
  r ← load r_theta_phi i;
  theta ← load r_theta_phi (i + 1);
  xyz ← store xyz (i + 2) (r * cos theta);
  Some (r_theta_phi, xyz).

(** One turn of the loop of [__cylindrical_to_cartesian_points]. *)
Definition cylindrical_block (i : nat) (st : list R * list R) : option (list R * list R) :=
  let '(rho_phi_z, xyz) := st in
  phi ← load rho_phi_z (i + 1);
  rho_phi_z ← store rho_phi_z (i + 1) (__reduce_angle phi false true);
  rho ← load rho_phi_z i;
  phi ← load rho_phi_z (i + 1);
  xyz ← store xyz i (rho * cos phi);
  rho ← load rho_phi_z i;
  phi ← load rho_phi_z (i + 1);
  xyz ← store xyz (i + 1) (rho * sin phi);
  z ← load rho_phi_z (i + 2);
  xyz ← store xyz (i + 2) z;
  Some (rho_phi_z, xyz).

(** [for i in range(0, s, 3)]: [turns] iterations left, the next one at
    offset [i]. *)
Fixpoint stride3 (body : nat -> list R * list R -> option (list R * list R))
    (turns i : nat) (st : list R * list R) : option (list R * list R) :=
  match turns with
  | O => Some st
  | S turns' => st' ← body i st; stride3 body turns' (i + 3)%nat st'
  end.

(** Number of values of [range(0, s, 3)]. *)
Definition range3_len (s : nat) : nat := ((s + 2) / 3)%nat.

(** [cdef double[:] __spherical_to_cartesian_points(double[:] r_theta_phi)]:
    returns (the caller's buffer after the call, xyz). *)
Definition __spherical_to_cartesian_points (r_theta_phi : list R)
  : option (list R * list R) :=
  let s := length r_theta_phi in
  stride3 spherical_block (range3_len s) 0 (r_theta_phi, replicate s 0).

(** [cdef double[:] __cylindrical_to_cartesian_points(double[:] rho_phi_z)]:
    returns (the caller's buffer after the call, xyz). *)
Definition __cylindrical_to_cartesian_points (rho_phi_z : list R)
  : option (list R * list R) :=
  let s := length rho_phi_z in
  if (s <? 3)%nat then
    '(_, xyz) ← stride3 cylindrical_block (range3_len s) 0
                  (__extend_vector_dimensions rho_phi_z 3, replicate s 0);
    Some (rho_phi_z, xyz)
  else
    stride3 cylindrical_block (range3_len s) 0 (rho_phi_z, replicate s 0).

(** ** Parametric curves (Curve/Parametric) *)

(** [cdef class ParametricCurve(Space)].  The point and tangent methods are
    [cpdef], hence virtual: a subclass replaces them, and the batch methods of
    the base class call whatever the instance carries.  An instance is the
    domain together with its six methods; the tangent methods take
    [t step left right]. *)
Record ParametricCurve := {
  start : R;
  stop : R;
  x_point : R -> R;
  y_point : R -> R;
  z_point : R -> R;
  tangent_x_point : R -> R -> bool -> bool -> R;
  tangent_y_point : R -> R -> bool -> bool -> R;
  tangent_z_point : R -> R -> bool -> bool -> R
}.

(** The body shared by [ParametricCurve.tangent_x_point], [tangent_y_point]
    and [tangent_z_point], for the coordinate method [point] of the
    instance. *)
Definition finite_difference (point : R -> R) (t step : R) (left right : bool) : R :=
  let step2 := step / 2 in
  if left && right then (point (t + step2) - point (t - step2)) / step
  else if left then (point t - point (t - step)) / step
  else (point (t + step) - point t) / step.

(** A subclass that overrides the three coordinate methods only and inherits
    the finite-difference tangents. *)
Definition curve_of_points (x y z : R -> R) (start stop : R) : ParametricCurve :=
  {| start := start; stop := stop;
     x_point := x; y_point := y; z_point := z;
     tangent_x_point := finite_difference x;
     tangent_y_point := finite_difference y;
     tangent_z_point := finite_difference z |}.

(** [ParametricCurve(start=0.0, stop=0.0)] itself: the zero curve. *)
Definition base_curve (start stop : R) : ParametricCurve :=
  curve_of_points (fun _ => 0) (fun _ => 0) (fun _ => 0) start stop.

(** [cdef class Line(ParametricCurve)]; [origin] holds [origin[0..2]]. *)
Definition Line (origin : R * R * R) (a b c start stop : R) : ParametricCurve :=
  {| start := start; stop := stop;
     x_point := fun t => origin.1.1 + a * t;
     y_point := fun t => origin.1.2 + b * t;
     z_point := fun t => origin.2 + c * t;
     tangent_x_point := fun _ _ _ _ => a;
     tangent_y_point := fun _ _ _ _ => b;
     tangent_z_point := fun _ _ _ _ => c |}.

(** [cdef class Arc(ParametricCurve)] *)
Definition Arc (a b start stop : R) (right : bool) : ParametricCurve :=
  let a' := Rmax a b in
  let b' := Rmin a b in
  let direction := if right then 1 else -1 in
  {| start := start; stop := stop;
     x_point := fun t => a' * cos t;
     y_point := fun t => direction * b' * sin t;
     z_point := fun _ => 0;
     tangent_x_point := fun t _ _ _ => - a' * sin t;
     tangent_y_point := fun t _ _ _ => direction * b' * cos t;
     tangent_z_point := fun _ _ _ _ => 0 |}.

(** [cdef class Helix(ParametricCurve)] *)
Definition Helix (radius pitch start stop : R) (right : bool) : ParametricCurve :=
  let direction := if right then 1 else -1 in
  {| start := start; stop := stop;
     x_point := fun t => radius - radius * cos t;
     y_point := fun t => direction * radius * sin t;
     z_point := fun t => pitch / (2 * M_PI) * t;
     tangent_x_point := fun t _ _ _ => radius * sin t;
     tangent_y_point := fun t _ _ _ => direction * radius * cos t;
     tangent_z_point := fun _ _ _ _ => pitch / (2 * M_PI) |}.

(** An [(N, 3)] array of doubles is a list of rows; [cell a i j] is
    [a[i, j]]. *)
Definition cell (a : list (R * R * R)) (i j : nat) : R :=
  let row := a !!! i in
  match j with
  | 0%nat => row.1.1
  | 1%nat => row.1.2
  | _ => row.2
  end.

(** ** The mesh collaborator (BDMesh) *)

(** Modelled from the spec: the classes [Mesh1D] and [Mesh1DUniform] belong
    to the BDMesh library, which is not among the sources.  A mesh is an
    ordered sequence of parameter samples (its physical nodes), the step it
    was built with, and two per-node annotations, [solution] and [residual],
    aligned with the nodes.  [mesh.num] is the number of samples. *)
Record Mesh1D := {
  physical_nodes : list R;
  physical_step : R;
  solution : list R;
  residual : list R
}.

Definition num (mesh : Mesh1D) : nat := length (physical_nodes mesh).

(** Mesh objects live in a store and are shared by reference: the tree holds
    the very objects the refinement loop writes to.  A reference is an index
    into the store; constructing a mesh appends to it. *)
Definition heap : Type := list Mesh1D.

(** The operations of the BDMesh library that the curve code calls, taken as
    parameters: how many segments a uniform mesh gets, and the tree with its
    construction, its finest level, insertion, removal of coarse duplicates
    and flattening.  The tree operations read the meshes through the
    store. *)
Class MeshLibrary := {
  (** number of step-wide segments a uniform mesh lays over
      [physical_boundary_1, physical_boundary_2] *)
  segments : R -> R -> R -> nat;
  TreeMesh1DUniform : Type;
  (** [TreeMesh1DUniform(root_mesh, refinement_coefficient, aligned)] *)
  new_tree : nat -> R -> bool -> TreeMesh1DUniform;
  refinement_coefficient : TreeMesh1DUniform -> R;
  (** [meshes_tree.__tree[max(meshes_tree.levels)]] *)
  finest_level : heap -> TreeMesh1DUniform -> list nat;
  add_mesh : heap -> TreeMesh1DUniform -> nat -> TreeMesh1DUniform;
  remove_coarse_duplicates : heap -> TreeMesh1DUniform -> TreeMesh1DUniform;
  flatten : heap -> TreeMesh1DUniform -> Mesh1D
}.

(** Modelled from the spec: the constructor [Mesh1DUniform(
    physical_boundary_1, physical_boundary_2, boundary_condition_1=0.0,
    boundary_condition_2=0.0, physical_step)] of BDMesh builds a uniform mesh
    over the interval with the given step.  The samples start at the first
    boundary and are [physical_step] apart, there is at least one, and both
    annotation arrays start zero-filled.  The boundary conditions are
    pass-through zeros that the curve code never reads. *)
Definition Mesh1DUniform `{MeshLibrary}
    (physical_boundary_1 physical_boundary_2 physical_step : R) : Mesh1D :=
  let n := S (segments physical_boundary_1 physical_boundary_2 physical_step) in
  {| physical_nodes :=
       (fun i => physical_boundary_1 + INR i * physical_step) <$> seq 0 n;
     physical_step := physical_step;
     solution := replicate n 0;
     residual := replicate n 0 |}.

#[global] Instance Rlt_decision (x y : R) : Decision (x < y) := Rlt_dec x y.

(** Modelled from the spec: [refinement_points] of [BDSpace/Curve/_helpers]
    is not among the sources.  Given one mesh and a threshold it returns the
    index pairs (local node intervals) whose residual exceeds the threshold;
    the residual of the interval between nodes [i] and [i + 1] is the one
    stored on node [i + 1]. *)
Definition refinement_points (mesh : Mesh1D) (threshold : R) : list (nat * nat) :=
  (fun i => (i, S i)) <$>
    filter (fun i => threshold < residual mesh !!! S i) (seq 0 (num mesh - 1)).

(** [for a in l: body], where the body may fail. *)
Fixpoint for_each {A S : Type} (body : S -> A -> option S) (l : list A) (s : S)
  : option S :=
  match l with
  | [] => Some s
  | a :: l' => s' ← body s a; for_each body l' s'
  end.

(** [for i in range(n): acc += a[i]] *)
Definition sum_range (n : nat) (a : list R) : option R :=
  for_each (fun acc i => ai ← a !! i; Some (acc + ai)) (seq 0 n) 0.

(** ** The methods of [ParametricCurve] *)

Module Curve.

(** [cpdef double[:] x(self, double[:] t)], and likewise [y] and [z] *)
Definition x (self : ParametricCurve) (t : list R) : list R := x_point self <$> t.
Definition y (self : ParametricCurve) (t : list R) : list R := y_point self <$> t.
Definition z (self : ParametricCurve) (t : list R) : list R := z_point self <$> t.

(** [cpdef double[:, :] generate_points(self, double[:] t)]: column [j] of
    the result is the [j]-th coordinate array. *)
Definition generate_points (self : ParametricCurve) (t : list R) : list (R * R * R) :=
  (fun i => (x self t !!! i, y self t !!! i, z self t !!! i)) <$> seq 0 (length t).

(** [cpdef double[:] tangent_x(self, double[:] t, double step=1.0e-10)].
    [s = t.shape[0] - 1] is unsigned: on an empty [t] it wraps around and
    [t[0]] is read outside the array, reported as [None].  The call with
    [left=False] leaves [right] at its default [True], and conversely. *)
Definition tangent_x (self : ParametricCurve) (t : list R) (step : R)
  : option (list R) :=
  match t with
  | [] => None
  | _ =>
    let s := (length t - 1)%nat in
    let result := replicate (s + 1) 0 in
    let result := <[0%nat := tangent_x_point self (t !!! 0%nat) step false true]> result in
    let result := <[s := tangent_x_point self (t !!! s) step true false]> result in
    Some (foldl (fun result i =>
                   <[i := tangent_x_point self (t !!! i) step true true]> result)
                result (seq 1 (s - 1)))
  end.

Definition tangent_y (self : ParametricCurve) (t : list R) (step : R)
  : option (list R) :=
  match t with
  | [] => None
  | _ =>
    let s := (length t - 1)%nat in
    let result := replicate (s + 1) 0 in
    let result := <[0%nat := tangent_y_point self (t !!! 0%nat) step false true]> result in
    let result := <[s := tangent_y_point self (t !!! s) step true false]> result in
    Some (foldl (fun result i =>
                   <[i := tangent_y_point self (t !!! i) step true true]> result)
                result (seq 1 (s - 1)))
  end.

Definition tangent_z (self : ParametricCurve) (t : list R) (step : R)
  : option (list R) :=
  match t with
  | [] => None
  | _ =>
    let s := (length t - 1)%nat in
    let result := replicate (s + 1) 0 in
    let result := <[0%nat := tangent_z_point self (t !!! 0%nat) step false true]> result in
    let result := <[s := tangent_z_point self (t !!! s) step true false]> result in
    Some (foldl (fun result i =>
                   <[i := tangent_z_point self (t !!! i) step true true]> result)
                result (seq 1 (s - 1)))
  end.

(** [cpdef double[:, :] tangent(self, double[:] t, double step=1.0e-10)].
    The three cells of a row are written together.  Inside the loop the
    source evaluates the tangent methods at [t[s]]. *)
Definition tangent (self : ParametricCurve) (t : list R) (step : R)
  : option (list (R * R * R)) :=
  match t with
  | [] => None
  | _ =>
    let s := (length t - 1)%nat in
    let result := replicate (s + 1) (0, 0, 0) in
    let result :=
      <[0%nat := (tangent_x_point self (t !!! 0%nat) step false true,
                  tangent_y_point self (t !!! 0%nat) step false true,
                  tangent_z_point self (t !!! 0%nat) step false true)]> result in
    let result :=
      <[s := (tangent_x_point self (t !!! s) step true false,
              tangent_y_point self (t !!! s) step true false,
              tangent_z_point self (t !!! s) step true false)]> result in
    Some (foldl (fun result i =>
                   <[i := (tangent_x_point self (t !!! s) step true true,
                           tangent_y_point self (t !!! s) step true true,
                           tangent_z_point self (t !!! s) step true true)]> result)
                result (seq 1 (s - 1)))
  end.

(** The locals of [__length_tangent_mesh] that its loop updates. *)
Record estimate := {
  solution_array : list R;
  error_array : list R;
  result_t_acc : R;
  result_p_acc : R
}.

(** The body of [for i in range(num_points - 1)] in
    [__length_tangent_mesh]. *)
Definition segment (nodes : list R) (xyz xyz_t : list (R * R * R))
    (e : estimate) (i : nat) : estimate :=
  let dx := cell xyz (i + 1) 0 - cell xyz i 0 in
  let dy := cell xyz (i + 1) 1 - cell xyz i 1 in
  let dz := cell xyz (i + 1) 2 - cell xyz i 2 in
  let result_p := sqrt (dx * dx + dy * dy + dz * dz) in
  let dl1 := sqrt (cell xyz_t i 0 * cell xyz_t i 0 + cell xyz_t i 1 * cell xyz_t i 1
                   + cell xyz_t i 2 * cell xyz_t i 2) in
  let dl2 := sqrt (cell xyz_t (i + 1) 0 * cell xyz_t (i + 1) 0
                   + cell xyz_t (i + 1) 1 * cell xyz_t (i + 1) 1
                   + cell xyz_t (i + 1) 2 * cell xyz_t (i + 1) 2) in
  let result_t := (nodes !!! (i + 1)%nat - nodes !!! i) * (dl1 + dl2) / 2 in
  {| solution_array := <[(i + 1)%nat := result_t]> (solution_array e);
     error_array := <[(i + 1)%nat := Rabs (result_t - result_p)]> (error_array e);
     result_t_acc := result_t_acc e + result_t;
     result_p_acc := result_p_acc e + result_p |}.

(** [__length_tangent_mesh] up to the end of its loop.  A mesh without
    nodes makes [tangent] (and [solution[0] = 0.0]) fail. *)
Definition length_tangent_mesh_loop (self : ParametricCurve) (mesh : Mesh1D)
    (tangent_step : R) : option estimate :=
  let num_points := num mesh in
  let xyz := generate_points self (physical_nodes mesh) in
  xyz_t ← tangent self (physical_nodes mesh) tangent_step;
  let solution := <[0%nat := 0]> (replicate num_points 0) in
  let error := <[0%nat := 0]> (replicate num_points 0) in
  Some (foldl (segment (physical_nodes mesh) xyz xyz_t)
              {| solution_array := solution; error_array := error;
                 result_t_acc := 0; result_p_acc := 0 |}
              (seq 0 (num_points - 1))).

(** [cdef double __length_tangent_mesh(self, Mesh1DUniform mesh, double
    tangent_step=1.0e-10)]: returns (the mesh object after the call, the
    returned double). *)
Definition __length_tangent_mesh (self : ParametricCurve) (mesh : Mesh1D)
    (tangent_step : R) : option (Mesh1D * R) :=
  e ← length_tangent_mesh_loop self mesh tangent_step;
  Some ({| physical_nodes := physical_nodes mesh;
           physical_step := physical_step mesh;
           solution := solution_array e;
           residual := error_array e |},
        result_t_acc e).

Section WithMeshLibrary.
Context `{MeshLibrary}.

(** The body of [for i in range(refinements.shape[0])] in [mesh_tree];
    [mesh.to_physical] of the local node [k] is the physical node [k]. *)
Definition refine (mesh : Mesh1D)
    (st : heap * TreeMesh1DUniform * nat) (refinement : nat * nat)
  : option (heap * TreeMesh1DUniform * nat) :=
  let '(h, meshes_tree, to_refine) := st in
  let to_refine := (to_refine + 1)%nat in
  b1 ← physical_nodes mesh !! refinement.1;
  b2 ← physical_nodes mesh !! refinement.2;
  let refinement_mesh :=
    Mesh1DUniform b1 b2 (physical_step mesh / refinement_coefficient meshes_tree) in
  let r := length h in
  let h := h ++ [refinement_mesh] in
  Some (h, add_mesh h meshes_tree r, to_refine).

(** The body of [for mesh in meshes_tree.__tree[level]]; [r] refers to
    the mesh object. *)
Definition visit (self : ParametricCurve) (precision tangent_step : R)
    (st : heap * TreeMesh1DUniform * nat) (r : nat)
  : option (heap * TreeMesh1DUniform * nat) :=
  let '(h, meshes_tree, to_refine) := st in
  mesh ← h !! r;
  '(mesh, length_tangent) ← __length_tangent_mesh self mesh tangent_step;
  let h := <[r := mesh]> h in
  let refinements := refinement_points mesh precision in
  '(h, meshes_tree, to_refine) ←
    for_each (refine mesh) refinements (h, meshes_tree, to_refine);
  Some (h, remove_coarse_duplicates h meshes_tree, to_refine).

(** One turn of the [while] loop, after [iteration += 1]: the meshes of
    the finest level are those found there when the turn starts.
    Returns the store, the tree and [to_refine]. *)
Definition pass (self : ParametricCurve) (precision tangent_step : R)
    (st : heap * TreeMesh1DUniform) : option (heap * TreeMesh1DUniform * nat) :=
  for_each (visit self precision tangent_step)
           (finest_level st.1 st.2) (st.1, st.2, 0%nat).

(** [while iteration < max_iterations], with
    [remaining = max_iterations - iteration].  The final value of
    [iteration] is returned with the tree. *)
Fixpoint mesh_tree_loop (self : ParametricCurve) (precision tangent_step : R)
    (remaining iteration : nat) (st : heap * TreeMesh1DUniform)
  : option (heap * TreeMesh1DUniform * nat) :=
  match remaining with
  | O => Some (st, iteration)
  | S remaining' =>
    let iteration := (iteration + 1)%nat in
    '(h, meshes_tree, to_refine) ← pass self precision tangent_step st;
    if (to_refine =? 0)%nat then Some (h, meshes_tree, iteration)
    else mesh_tree_loop self precision tangent_step remaining' iteration
                        (h, meshes_tree)
  end.

(** The store and the tree [mesh_tree] starts from. *)
Definition initial_tree (self : ParametricCurve) : heap * TreeMesh1DUniform :=
  let root_mesh :=
    Mesh1DUniform (start self) (stop self) ((stop self - start self) / 2) in
  ([root_mesh], new_tree 0 2 true).

(** [mesh_tree] together with the number of turns its loop took. *)
Definition mesh_tree_run (self : ParametricCurve) (precision : R)
    (max_iterations : nat) (tangent_step : R)
  : option (heap * TreeMesh1DUniform * nat) :=
  mesh_tree_loop self precision tangent_step max_iterations 0 (initial_tree self).

(** [cpdef TreeMesh1DUniform mesh_tree(self, double precision=1e-6,
    unsigned int max_iterations=100, double tangent_step=1.0e-10)] *)
Definition mesh_tree (self : ParametricCurve) (precision : R)
    (max_iterations : nat) (tangent_step : R)
  : option (heap * TreeMesh1DUniform) :=
  fst <$> mesh_tree_run self precision max_iterations tangent_step.

(** [cpdef double length(self, double precision=1e-6, unsigned int
    max_iterations=100, double tangent_step=1.0e-10)] *)
Definition length (self : ParametricCurve) (precision : R)
    (max_iterations : nat) (tangent_step : R) : option R :=
  '(h, meshes_tree) ← mesh_tree self precision max_iterations tangent_step;
  let flat_mesh := flatten h meshes_tree in
  sum_range (num flat_mesh) (solution flat_mesh).

End WithMeshLibrary.

End Curve.

(** ** Traces of the refinement loop *)

(** [unconverged self precision tangent_step k st st']: from [st], [k] turns
    of the loop in a row each count at least one sub-interval to refine, and
    lead to [st']. *)
Inductive unconverged `{MeshLibrary} (self : ParametricCurve)
    (precision tangent_step : R)
  : nat -> heap * TreeMesh1DUniform -> heap * TreeMesh1DUniform -> Prop :=
| unconverged_none (st : heap * TreeMesh1DUniform) :
    unconverged self precision tangent_step 0 st st
| unconverged_turn (k : nat) (st : heap * TreeMesh1DUniform) (h : heap)
    (meshes_tree : TreeMesh1DUniform) (to_refine : nat)
    (st' : heap * TreeMesh1DUniform) :
    Curve.pass self precision tangent_step st = Some (h, meshes_tree, to_refine) ->
    to_refine <> 0%nat ->
    unconverged self precision tangent_step k (h, meshes_tree) st' ->
    unconverged self precision tangent_step (S k) st st'.

(** [quiet self precision tangent_step refs st st']: the meshes [refs] are
    visited in turn; each is evaluated, the selector returns no sub-interval
    for it, and coarse duplicates are removed; nothing is added to the
    tree. *)
Inductive quiet `{MeshLibrary} (self : ParametricCurve) (precision tangent_step : R)
  : list nat -> heap * TreeMesh1DUniform -> heap * TreeMesh1DUniform -> Prop :=
| quiet_done (st : heap * TreeMesh1DUniform) :
    quiet self precision tangent_step [] st st
| quiet_visit (r : nat) (refs : list nat) (h : heap) (meshes_tree : TreeMesh1DUniform)
    (mesh mesh' : Mesh1D) (length_tangent : R) (st' : heap * TreeMesh1DUniform) :
    h !! r = Some mesh ->
    Curve.__length_tangent_mesh self mesh tangent_step = Some (mesh', length_tangent) ->
    refinement_points mesh' precision = [] ->
    quiet self precision tangent_step refs
          (<[r := mesh']> h, remove_coarse_duplicates (<[r := mesh']> h) meshes_tree) st' ->
    quiet self precision tangent_step (r :: refs) (h, meshes_tree) st'.

(** ** What the curve code relies on from the mesh library *)

(** The part of the library's contract that the statements on [length] use:
    a root mesh built with half the interval as its step has three nodes; a
    tree holding a single mesh has that mesh at its finest level, has no
    coarse duplicate to remove, and flattens to the nodes and the solution of
    that mesh. *)
Class MeshContract (L : MeshLibrary) : Prop := {
  root_mesh_segments :
    forall a b, a < b -> segments a b ((b - a) / 2) = 2%nat;
  finest_level_new_tree :
    forall h r k aligned, finest_level h (new_tree r k aligned) = [r];
  remove_coarse_duplicates_new_tree :
    forall h r k aligned,
      remove_coarse_duplicates h (new_tree r k aligned) = new_tree r k aligned;
  flatten_new_tree :
    forall h r k aligned mesh,
      h !! r = Some mesh ->
      physical_nodes (flatten h (new_tree r k aligned)) = physical_nodes mesh /\
      solution (flatten h (new_tree r k aligned)) = solution mesh
}.

(** A small list-backed library with this interface, enough to run the curve
    code on concrete inputs and to show that the contract above can be met.
    It stands for no particular implementation of BDMesh.  Levels are lists
    of references, coarsest first. *)
Record ListTree := {
  tree_levels : list (list nat);
  tree_coefficient : R
}.

#[global] Instance Rle_decision (x y : R) : Decision (x <= y) := Rle_dec x y.
#[global] Instance Req_decision : EqDecision R := Req_dec_T.

Definition mesh_step (h : heap) (r : nat) : R := default 0 (physical_step <$> h !! r).
Definition first_node (h : heap) (r : nat) : R :=
  default 0 (h !! r ≫= fun mesh => head (physical_nodes mesh)).
Definition last_node (h : heap) (r : nat) : R :=
  default 0 (h !! r ≫= fun mesh => last (physical_nodes mesh)).

(** [r] lies within one of the meshes [finer]. *)
Definition superseded (h : heap) (finer : list nat) (r : nat) : bool :=
  existsb (fun f => bool_decide (first_node h f <= first_node h r)
                    && bool_decide (last_node h r <= last_node h f)) finer.

(** A mesh with the step of the finest level joins that level; any other
    mesh opens a new finest level. *)
Definition list_add_mesh (h : heap) (t : ListTree) (r : nat) : ListTree :=
  let finest := default [] (last (tree_levels t)) in
  let joins := existsb (fun f => bool_decide (mesh_step h f = mesh_step h r)) finest in
  {| tree_levels :=
       if joins
       then take (length (tree_levels t) - 1) (tree_levels t) ++ [finest ++ [r]]
       else tree_levels t ++ [[r]];
     tree_coefficient := tree_coefficient t |}.

(** Below the finest level, the meshes that lie within a mesh of the finest
    level are dropped. *)
Definition list_remove_coarse_duplicates (h : heap) (t : ListTree) : ListTree :=
  let finest := default [] (last (tree_levels t)) in
  let coarser := take (length (tree_levels t) - 1) (tree_levels t) in
  {| tree_levels :=
       (List.filter (fun r => negb (superseded h finest r)) <$> coarser) ++ [finest];
     tree_coefficient := tree_coefficient t |}.

(** The arrays of all meshes of the tree, one after the other. *)
Definition list_flatten (h : heap) (t : ListTree) : Mesh1D :=
  let meshes := omap (fun r => h !! r) (concat (tree_levels t)) in
  {| physical_nodes := concat (physical_nodes <$> meshes);
     physical_step := 0;
     solution := concat (solution <$> meshes);
     residual := concat (residual <$> meshes) |}.

Definition list_tree_library : MeshLibrary := {|
  segments := fun b1 b2 step => Z.to_nat (Zceil ((b2 - b1) / step));
  TreeMesh1DUniform := ListTree;
  new_tree := fun r k _ => {| tree_levels := [[r]]; tree_coefficient := k |};
  refinement_coefficient := tree_coefficient;
  finest_level := fun _ t => default [] (last (tree_levels t));
  add_mesh := list_add_mesh;
  remove_coarse_duplicates := list_remove_coarse_duplicates;
  flatten := list_flatten
|}.

(** A user-defined curve: only [x_point] is overridden, with [t * t]. *)
Definition parabola : ParametricCurve :=
  curve_of_points (fun t => t * t) (fun _ => 0) (fun _ => 0) 0 2.

(** ** Quantities the specification names *)

(** The three tangent methods of a curve at one parameter value. *)
Definition tangent_point (self : ParametricCurve) (t step : R) (left right : bool)
  : R * R * R :=
  (tangent_x_point self t step left right,
   tangent_y_point self t step left right,
   tangent_z_point self t step left right).

Definition norm3 (p : R * R * R) : R :=
  sqrt (p.1.1 * p.1.1 + p.1.2 * p.1.2 + p.2 * p.2).

(** The tangent-trapezoid length of the segment between the samples [i] and
    [i + 1]: the trapezoidal rule on the magnitudes of the two tangent rows. *)
Definition trapezoid_segment (t : list R) (xyz_t : list (R * R * R)) (i : nat) : R :=
  (t !!! (i + 1)%nat - t !!! i)
  * (norm3 (xyz_t !!! i) + norm3 (xyz_t !!! (i + 1)%nat)) / 2.

(** The chord between the curve points at the samples [i] and [i + 1]. *)
Definition chord_segment (self : ParametricCurve) (t : list R) (i : nat) : R :=
  let dx := x_point self (t !!! (i + 1)%nat) - x_point self (t !!! i) in
  let dy := y_point self (t !!! (i + 1)%nat) - y_point self (t !!! i) in
  let dz := z_point self (t !!! (i + 1)%nat) - z_point self (t !!! i) in
  sqrt (dx * dx + dy * dy + dz * dz).

(** The chord between the rows [i] and [i + 1] of an array of points. *)
Definition chord_rows (xyz : list (R * R * R)) (i : nat) : R :=
  let dx := cell xyz (i + 1) 0 - cell xyz i 0 in
  let dy := cell xyz (i + 1) 1 - cell xyz i 1 in
  let dz := cell xyz (i + 1) 2 - cell xyz i 2 in
  sqrt (dx * dx + dy * dy + dz * dz).

(** A mesh over the samples 0, 1, 2, as a refinement pass finds it. *)
Definition three_node_mesh : Mesh1D :=
  {| physical_nodes := [0; 1; 2]; physical_step := 1;
     solution := [0; 0; 0]; residual := [0; 0; 0] |}.

(** ** Further functions of the transforms module *)

(** [cpdef double angles_between_vectors(double[:] v1, double[:] v2)]: the
    unit vector of the shorter argument is padded to the size of the longer
    one; the products are accumulated left to right, starting from 0. *)
Definition angles_between_vectors (v1 v2 : list R) : R :=
  let s1 := length v1 in
  let s2 := length v2 in
  let v1_u := unit_vector v1 in
  let v2_u := unit_vector v2 in
  let state :=
    if (s2 <? s1)%nat then (s1, v1_u, __extend_vector_dimensions v2_u s1)
    else if (s1 <? s2)%nat then (s2, __extend_vector_dimensions v1_u s2, v2_u)
    else (s1, v1_u, v2_u) in
  acos (foldl (fun cos_angle i => cos_angle + state.1.2 !!! i * state.2 !!! i)
              0 (seq 0 state.1.1)).

(** [cdef double[:] __spherical_to_cylindrical_point(double[:] r_theta_phi)] *)
Definition __spherical_to_cylindrical_point (r_theta_phi : list R) : list R :=
  let r_theta_phi :=
    if (length r_theta_phi <? 3)%nat
    then __extend_vector_dimensions r_theta_phi 3 else r_theta_phi in
  let rho_phi_z := replicate 3 0 in
  let rho_phi_z :=
    <[0%nat := r_theta_phi !!! 0%nat * sin (r_theta_phi !!! 1%nat)]> rho_phi_z in
  let rho_phi_z := <[1%nat := r_theta_phi !!! 2%nat]> rho_phi_z in
  <[2%nat := r_theta_phi !!! 0%nat * cos (r_theta_phi !!! 1%nat)]> rho_phi_z.

(** [cdef double[:] __cylindrical_to_spherical_point(double[:] rho_phi_z)] *)
Definition __cylindrical_to_spherical_point (rho_phi_z : list R) : list R :=
  let rho_phi_z :=
    if (length rho_phi_z <? 3)%nat
    then __extend_vector_dimensions rho_phi_z 3 else rho_phi_z in
  let r_theta_phi := replicate 3 0 in
  let r_theta_phi :=
    <[0%nat := sqrt (rho_phi_z !!! 0%nat * rho_phi_z !!! 0%nat
                     + rho_phi_z !!! 2%nat * rho_phi_z !!! 2%nat)]> r_theta_phi in
  let r_theta_phi :=
    <[1%nat := atan2 (rho_phi_z !!! 0%nat) (rho_phi_z !!! 2%nat)]> r_theta_phi in
  <[2%nat := rho_phi_z !!! 1%nat]> r_theta_phi.

(** One turn of the loop of [__cartesian_to_spherical_points] at offset [i];
    the state is the input array and the array being filled. *)
Definition cartesian_spherical_block (i : nat) (st : list R * list R)
  : option (list R * list R) :=
  let '(xyz, r_theta_phi) := st in
  x ← load xyz i;
  y ← load xyz (i + 1);
  let xy := x * x + y * y in
  z ← load xyz (i + 2);
  r_theta_phi ← store r_theta_phi i (sqrt (xy + z * z));
  z ← load xyz (i + 2);
  r_theta_phi ← store r_theta_phi (i + 1) (atan2 (sqrt xy) z);
  y ← load xyz (i + 1);
  x ← load xyz i;
  r_theta_phi ← store r_theta_phi (i + 2) (__reduce_angle (atan2 y x) false true);
  Some (xyz, r_theta_phi).

(** [cdef double[:] __cartesian_to_spherical_points(double[:] xyz)] *)
Definition __cartesian_to_spherical_points (xyz : list R) : option (list R) :=
  let s := length xyz in
  snd <$> stride3 cartesian_spherical_block (range3_len s) 0 (xyz, replicate s 0).

(** One turn of the loop of [__cartesian_to_cylindrical_points]. *)
Definition cartesian_cylindrical_block (i : nat) (st : list R * list R)
  : option (list R * list R) :=
  let '(xyz, rho_phi_z) := st in
  x ← load xyz i;
  y ← load xyz (i + 1);
  rho_phi_z ← store rho_phi_z i (sqrt (x * x + y * y));
  y ← load xyz (i + 1);
  x ← load xyz i;
  rho_phi_z ← store rho_phi_z (i + 1) (atan2 y x);
  z ← load xyz (i + 2);
  rho_phi_z ← store rho_phi_z (i + 2) z;
  Some (xyz, rho_phi_z).

(** [cdef double[:] __cartesian_to_cylindrical_points(double[:] xyz)] *)
Definition __cartesian_to_cylindrical_points (xyz : list R) : option (list R) :=
  let s := length xyz in
  snd <$> stride3 cartesian_cylindrical_block (range3_len s) 0 (xyz, replicate s 0).

(** One turn of the loop of [__spherical_to_cylindrical_points]. *)
Definition spherical_cylindrical_block (i : nat) (st : list R * list R)
  : option (list R * list R) :=
  let '(r_theta_phi, rho_phi_z) := st in
  r ← load r_theta_phi i;
  theta ← load r_theta_phi (i + 1);
  rho_phi_z ← store rho_phi_z i (r * sin theta);
  phi ← load r_theta_phi (i + 2);
  rho_phi_z ← store rho_phi_z (i + 1) phi;
  r ← load r_theta_phi i;
  theta ← load r_theta_phi (i + 1);
  rho_phi_z ← store rho_phi_z (i + 2) (r * cos theta);
  Some (r_theta_phi, rho_phi_z).

(** [cdef double[:] __spherical_to_cylindrical_points(double[:] r_theta_phi)] *)
Definition __spherical_to_cylindrical_points (r_theta_phi : list R) : option (list R) :=
  let s := length r_theta_phi in
  snd <$> stride3 spherical_cylindrical_block (range3_len s) 0
            (r_theta_phi, replicate s 0).

(** One turn of the loop of [__cylindrical_to_spherical_points]. *)
Definition cylindrical_spherical_block (i : nat) (st : list R * list R)
  : option (list R * list R) :=
  let '(rho_phi_z, r_theta_phi) := st in
  rho ← load rho_phi_z i;
  z ← load rho_phi_z (i + 2);
  r_theta_phi ← store r_theta_phi i (sqrt (rho * rho + z * z));
  rho ← load rho_phi_z i;
  z ← load rho_phi_z (i + 2);
  r_theta_phi ← store r_theta_phi (i + 1) (atan2 rho z);
  phi ← load rho_phi_z (i + 1);
  r_theta_phi ← store r_theta_phi (i + 2) phi;
  Some (rho_phi_z, r_theta_phi).

(** [cdef double[:] __cylindrical_to_spherical_points(double[:] rho_phi_z)] *)
Definition __cylindrical_to_spherical_points (rho_phi_z : list R) : option (list R) :=
  let s := length rho_phi_z in
  snd <$> stride3 cylindrical_spherical_block (range3_len s) 0
            (rho_phi_z, replicate s 0).

(** Row [k] of a flat array of triples. *)
Definition row (a : list R) (k : nat) : list R :=
  [a !!! (3 * k)%nat; a !!! (3 * k + 1)%nat; a !!! (3 * k + 2)%nat].

(** ** Further methods of the curve classes *)

(** [cdef double __length_poly_array(self, double[:] t)].  The function runs
    with [boundscheck(False)] and [num_points = t.shape[0] - 1] is unsigned:
    on an empty [t] it wraps around and the loop reads outside the array,
    reported as [None]. *)
Definition __length_poly_array (self : ParametricCurve) (t : list R) : option R :=
  match t with
  | [] => None
  | _ =>
    let num_points := (length t - 1)%nat in
    let xyz := Curve.generate_points self t in
    Some (foldl (fun result i =>
                   let dx := cell xyz (i + 1) 0 - cell xyz i 0 in
                   let dy := cell xyz (i + 1) 1 - cell xyz i 1 in
                   let dz := cell xyz (i + 1) 2 - cell xyz i 2 in
                   result + sqrt (dx * dx + dy * dy + dz * dz))
                0 (seq 0 num_points))
  end.

(** The private fields [__a], [__b] and [__direction] of an [Arc], as
    [Arc.__init__] sets them. *)
Record ArcFields := {
  arc_a : R;
  arc_b : R;
  arc_direction : R
}.

Definition Arc_init (a b : R) (right : bool) : ArcFields :=
  {| arc_a := Rmax a b;
     arc_b := Rmin a b;
     arc_direction := if right then 1 else -1 |}.

(** [cpdef double eccentricity(self)] of [Arc] *)
Definition eccentricity (self : ArcFields) : R :=
  sqrt ((arc_a self * arc_a self - arc_b self * arc_b self)
        / (arc_a self * arc_a self)).

(** [cpdef double focus(self)] of [Arc] *)
Definition focus (self : ArcFields) : R := arc_a self * eccentricity self.

(** The two annotation arrays of a mesh are aligned one-to-one with its
    nodes, and there is at least one node. *)
Definition aligned (mesh : Mesh1D) : Prop :=
  (1 <= num mesh)%nat /\
  length (solution mesh) = num mesh /\
  length (residual mesh) = num mesh.

(** The store [h'] holds every mesh of [h] under the same reference, with
    the same nodes and the same step. *)
Definition keeps_nodes (h h' : heap) : Prop :=
  forall r mesh, h !! r = Some mesh ->
    exists mesh', h' !! r = Some mesh' /\
      physical_nodes mesh' = physical_nodes mesh /\
      physical_step mesh' = physical_step mesh.

(** ** Angle reduction over IEEE binary64

    [__reduce_angle] once more, with [double] read as IEEE binary64 (the
    primitive floats of Rocq): every operation is rounded to nearest on its
    own, as a C compiler that does not contract operations emits them. *)

Module Binary64.

Import PrimFloat FloatOps SpecFloat.
#[local] Open Scope float_scope.

(** [M_PI] of libc: the double nearest to π, 3.141592653589793. *)
Definition M_PI : float := 0x1.921fb54442d18p+1.

Definition fabs (x : float) : float := abs x.

(** libc [floor]: the largest integral double that is not above [x].  A
    double with a non-negative exponent is integral; otherwise the
    significand is divided by the power of two, rounding towards minus
    infinity.  Zeros, infinities and NaN are returned as they are. *)
Definition floor (x : float) : float :=
  match Prim2SF x with
  | S754_finite s m e =>
    if (0 <=? e)%Z then x
    else
      let d := (2 ^ (- e))%Z in
      let q := (Z.pos m / d)%Z in
      if s
      then - of_uint63 (Uint63Axioms.of_Z (if (Z.pos m mod d =? 0)%Z then q else q + 1))
      else of_uint63 (Uint63Axioms.of_Z q)
  | _ => x
  end.

(** [a // b] on two C doubles, which Cython compiles to [floor(a / b)]. *)
Definition floordiv (a b : float) : float := floor (a / b).

(** [cdef double __reduce_angle(double angle, bint center=True,
    bint positive=False)] *)
Definition __reduce_angle (angle : float) (center positive : bool) : float :=
  let reduced_angle :=
    if 2 * M_PI <? fabs angle
    then angle - 2 * M_PI * floordiv angle (2 * M_PI)
    else angle in
  let reduced_angle :=
    if center then
      if reduced_angle <? - M_PI then reduced_angle + 2 * M_PI
      else if M_PI <? reduced_angle then reduced_angle - 2 * M_PI
      else reduced_angle
    else reduced_angle in
  if positive then
    if reduced_angle <? 0 then reduced_angle + 2 * M_PI else reduced_angle
  else reduced_angle.

(** [def reduce_angle(angle, keep_sign=False)] on a number. *)
Definition reduce_angle (angle : float) (keep_sign : bool) : float :=
  __reduce_angle angle false (negb keep_sign).

End Binary64.

(** * Properties *)

(** ** Facts about angle reduction *)

Section AngleReduction.

Lemma two_pi_pos : 0 < 2 * M_PI.
Proof. unfold M_PI. pose proof PI_RGT_0. lra. Qed.

(** Subtracting the floor multiple of 2π lands in [0, 2π). *)
Lemma floordiv_remainder (angle : R) :
  0 <= angle - 2 * M_PI * floordiv angle (2 * M_PI) < 2 * M_PI.
Proof.
  pose proof two_pi_pos as Hp.
  unfold floordiv.
  destruct (Zfloor_bound (angle / (2 * M_PI))) as [Hlo Hhi].
  set (k := IZR (Zfloor (angle / (2 * M_PI)))) in *.
  assert (Ha : angle = angle / (2 * M_PI) * (2 * M_PI)) by (field; lra).
  split.
  - apply (Rmult_le_compat_r (2 * M_PI)) in Hlo; lra.
  - apply (Rmult_lt_compat_r (2 * M_PI)) in Hhi; lra.
Qed.

(** The first step of the reduction leaves a value of magnitude at most 2π. *)
Lemma wrap_bounded (angle : R) :
  let r := if Rlt_dec (2 * M_PI) (fabs angle)
           then angle - 2 * M_PI * floordiv angle (2 * M_PI) else angle in
  - (2 * M_PI) <= r <= 2 * M_PI.
Proof.
  pose proof two_pi_pos as Hp. cbv zeta.
  destruct (Rlt_dec _ _) as [Hbig | Hsmall].
  - pose proof (floordiv_remainder angle). lra.
  - unfold fabs in Hsmall. apply Rnot_lt_le in Hsmall.
    destruct (Rabs_def2 angle (2 * M_PI + 1)) as [? ?]; [lra|].
    revert Hsmall. unfold Rabs. destruct (Rcase_abs angle); lra.
Qed.

(** An angle that is already within [-2π, 2π] passes the first step
    untouched. *)
Lemma wrap_small (angle : R) :
  - (2 * M_PI) <= angle <= 2 * M_PI ->
  (if Rlt_dec (2 * M_PI) (fabs angle)
   then angle - 2 * M_PI * floordiv angle (2 * M_PI) else angle) = angle.
Proof.
  intros [Hlo Hhi]. destruct (Rlt_dec _ _) as [Hbig | ]; [|reflexivity].
  exfalso. revert Hbig. unfold fabs, Rabs. destruct (Rcase_abs angle); lra.
Qed.

End AngleReduction.

Section ReducedRange.

(** Every reduced angle lies within [-2π, 2π], the range the docstring of
    [__reduce_angle] announces. *)
Lemma reduce_angle_bounded (angle : R) (center positive : bool) :
  - (2 * M_PI) <= __reduce_angle angle center positive <= 2 * M_PI.
Proof.
  pose proof two_pi_pos. pose proof (wrap_bounded angle) as Hw. cbv zeta in Hw.
  unfold __reduce_angle.
  set (w := if Rlt_dec (2 * M_PI) (fabs angle) then _ else _) in *.
  destruct center, positive; repeat destruct (Rlt_dec _ _); lra.
Qed.

(** In exact real arithmetic angle reduction is idempotent for each setting
    of the two flags: what breaks idempotence on doubles is rounding, not
    the steps taken. *)
Lemma reduce_angle_idempotent (angle : R) (center positive : bool) :
  __reduce_angle (__reduce_angle angle center positive) center positive
  = __reduce_angle angle center positive.
Proof.
  pose proof two_pi_pos.
  pose proof (reduce_angle_bounded angle center positive) as Hr.
  remember (__reduce_angle angle center positive) as r eqn:Er.
  unfold __reduce_angle. rewrite (wrap_small r Hr).
  pose proof (wrap_bounded angle) as Hw. cbv zeta in Hw.
  unfold __reduce_angle in Er.
  set (w := if Rlt_dec (2 * M_PI) (fabs angle) then _ else _) in *.
  destruct center, positive; subst r; repeat destruct (Rlt_dec _ _); lra.
Qed.



End ReducedRange.

Section Doubles.

Import PrimFloat.
#[local] Open Scope float_scope.

(** On doubles, a negative angle too small to survive the addition of
    [2 * M_PI] is sent to [2 * M_PI] itself by the sign step, with or without
    centring: here the double nearest to -1e-20. *)
Lemma reduce_angle_tiny_negative (center : bool) :
  Binary64.__reduce_angle (-0x1.79ca10c924223p-67) center true = 2 * Binary64.M_PI /\
  Binary64.reduce_angle (-0x1.79ca10c924223p-67) false = 2 * Binary64.M_PI.
Proof. destruct center; vm_compute; split; reflexivity. Qed.

(** C7, at a failing input: on doubles, with [center] and [positive] set, the
    double nearest to -1e-20 is reduced to [2 * M_PI], and [2 * M_PI] is
    reduced to 0.0 (it is above [M_PI], so the centring step takes
    [2 * M_PI] off): the second application does not return what the first
    returned, and C's [==] tells the two apart. *)
Theorem reduce_angle_not_idempotent :
  let theta := -0x1.79ca10c924223p-67 in
  let once := Binary64.__reduce_angle theta true true in
  let twice := Binary64.__reduce_angle once true true in
  once = 2 * Binary64.M_PI /\ twice = 0 /\ (twice =? once) = false.
Proof. vm_compute. repeat split. Qed.

End Doubles.

Section UnitVector.

(** The accumulator of [vector_norm] never decreases below its start. *)
Lemma sum_squares_nonneg (v : list R) (acc : R) :
  0 <= acc -> 0 <= foldl (fun result vi => result + vi * vi) acc v.
Proof.
  revert acc. induction v as [|vi v IH]; intros acc Hacc; simpl; [exact Hacc|].
  apply IH. nra.
Qed.

(** Dividing every component by [l] divides the sum of squares by [l * l]. *)
Lemma sum_squares_scaled (v : list R) (l acc : R) :
  l <> 0 ->
  foldl (fun result vi => result + vi * vi) (acc / (l * l))
        ((fun vi => vi / l) <$> v)
  = foldl (fun result vi => result + vi * vi) acc v / (l * l).
Proof.
  intros Hl. revert acc. induction v as [|vi v IH]; intros acc; simpl; [reflexivity|].
  rewrite <- IH. f_equal. field. exact Hl.
Qed.

Lemma vector_norm_zeros (n : nat) : vector_norm (replicate n 0) = 0.
Proof.
  unfold vector_norm.
  assert (H : foldl (fun result vi => result + vi * vi) 0 (replicate n 0) = 0).
  { induction n as [|n IH]; simpl; [reflexivity|].
    replace (0 + 0 * 0) with 0 by ring. exact IH. }
  rewrite H. apply sqrt_0.
Qed.

(** C9: a vector of non-zero norm is sent to a vector of norm 1, and the zero
    vector of any size to itself. *)
Theorem unit_vector_norm (v : list R) (n : nat) :
  (vector_norm v <> 0 -> vector_norm (unit_vector v) = 1) /\
  unit_vector (replicate n 0) = replicate n 0.
Proof.
  split.
  - intros Hnz. unfold unit_vector.
    destruct (Req_dec_T (vector_norm v) 0) as [Hz | _]; [contradiction|].
    unfold vector_norm in *.
    set (total := foldl (fun result vi => result + vi * vi) 0 v) in *.
    assert (Htotal : 0 <= total) by (apply sum_squares_nonneg; lra).
    assert (Hsq : sqrt total * sqrt total = total) by (apply sqrt_sqrt; exact Htotal).
    replace 0 with (0 / (sqrt total * sqrt total)) at 1 by (field; exact Hnz).
    rewrite sum_squares_scaled by exact Hnz.
    fold total. rewrite Hsq.
    assert (Hpos : total <> 0) by (intros E; apply Hnz; rewrite E; apply sqrt_0).
    replace (total / total) with 1 by (field; exact Hpos).
    apply sqrt_1.
  - unfold unit_vector. rewrite vector_norm_zeros.
    destruct (Req_dec_T 0 0) as [_ | Hne]; [|contradiction].
    induction n as [|n IH]; simpl; [reflexivity|]. f_equal. exact IH.
Qed.

(** The vector (3, 4) has norm 5; its unit vector has norm 1. *)
Lemma unit_vector_norm_witness :
  vector_norm [3; 4] <> 0 /\ vector_norm (unit_vector [3; 4]) = 1.
Proof.
  assert (H : vector_norm [3; 4] <> 0).
  { unfold vector_norm. simpl.
    replace (0 + 3 * 3 + 4 * 4) with (5 * 5) by ring.
    rewrite sqrt_square by lra. lra. }
  split; [exact H|].
  exact (proj1 (unit_vector_norm [3; 4] 0) H).
Defined.

End UnitVector.

Section RoundTrip.

(** Sine and cosine do not see a whole number of turns. *)
Lemma turns_invisible (x : R) (k : Z) :
  cos (x + 2 * IZR k * PI) = cos x /\ sin (x + 2 * IZR k * PI) = sin x.
Proof.
  destruct (Z_le_gt_dec 0 k) as [Hk | Hk].
  - rewrite <- (Z2Nat.id k Hk), <- INR_IZR_INZ.
    split; [apply cos_period | apply sin_period].
  - assert (Hn : (0 <= - k)%Z) by lia.
    set (n := Z.to_nat (- k)).
    assert (Ek : IZR k = - INR n).
    { unfold n. rewrite INR_IZR_INZ, (Z2Nat.id _ Hn), opp_IZR. ring. }
    rewrite Ek.
    split.
    + rewrite <- (cos_period (x + 2 * - INR n * PI) n). f_equal. ring.
    + rewrite <- (sin_period (x + 2 * - INR n * PI) n). f_equal. ring.
Qed.

(** Angle reduction moves an angle by whole turns only. *)
Lemma reduce_angle_turns (angle : R) (center positive : bool) :
  exists k : Z, __reduce_angle angle center positive = angle + 2 * IZR k * PI.
Proof.
  unfold __reduce_angle, floordiv, M_PI.
  set (q := Zfloor (angle / (2 * PI))).
  destruct (Rlt_dec (2 * PI) (fabs angle)).
  - destruct center, positive; repeat destruct (Rlt_dec _ _);
      first [ exists (- q)%Z; rewrite opp_IZR; ring
            | exists (- q + 1)%Z; rewrite plus_IZR, opp_IZR; ring
            | exists (- q - 1)%Z; rewrite minus_IZR, opp_IZR; ring
            | exists (- q + 1 + 1)%Z; rewrite !plus_IZR, opp_IZR; ring
            | exists (- q - 1 + 1)%Z; rewrite plus_IZR, minus_IZR, opp_IZR; ring ].
  - destruct center, positive; repeat destruct (Rlt_dec _ _);
      first [ exists 0%Z; ring | exists 1%Z; ring | exists (-1)%Z; ring
            | exists 2%Z; ring ].
Qed.

Lemma cos_reduce_angle (angle : R) (center positive : bool) :
  cos (__reduce_angle angle center positive) = cos angle.
Proof.
  destruct (reduce_angle_turns angle center positive) as [k ->].
  apply turns_invisible.
Qed.

Lemma sin_reduce_angle (angle : R) (center positive : bool) :
  sin (__reduce_angle angle center positive) = sin angle.
Proof.
  destruct (reduce_angle_turns angle center positive) as [k ->].
  apply turns_invisible.
Qed.

(** The distance of (x, y) from the origin, through the slope [y / x]. *)
Lemma hypot_slope (x y : R) :
  x <> 0 -> sqrt (x * x + y * y) = Rabs x * sqrt (1 + (y / x)²).
Proof.
  intros Hx.
  replace (x * x + y * y) with (x² * (1 + (y / x)²)) by (unfold Rsqr; field; exact Hx).
  rewrite sqrt_mult.
  - rewrite sqrt_Rsqr_abs. reflexivity.
  - apply Rle_0_sqr.
  - pose proof (Rle_0_sqr (y / x)). lra.
Qed.

Lemma slope_root_pos (u : R) : 0 < sqrt (1 + u²).
Proof. apply sqrt_lt_R0. pose proof (Rle_0_sqr u). lra. Qed.

(** [atan2 y x] is the polar angle of the point (x, y). *)
Lemma atan2_polar (x y : R) :
  sqrt (x * x + y * y) * cos (atan2 y x) = x /\
  sqrt (x * x + y * y) * sin (atan2 y x) = y.
Proof.
  unfold atan2.
  destruct (Rlt_dec 0 x) as [Hpos | Hnpos].
  - rewrite hypot_slope by lra. rewrite Rabs_right by lra.
    rewrite cos_atan, sin_atan.
    pose proof (slope_root_pos (y / x)) as Hs.
    split; field; lra.
  - destruct (Rlt_dec x 0) as [Hneg | Hnneg].
    + rewrite hypot_slope by lra. rewrite Rabs_left by lra.
      pose proof (slope_root_pos (y / x)) as Hs.
      destruct (Rlt_dec y 0).
      * rewrite cos_minus, sin_minus, cos_PI, sin_PI, cos_atan, sin_atan.
        split; field; lra.
      * rewrite cos_plus, sin_plus, cos_PI, sin_PI, cos_atan, sin_atan.
        split; field; lra.
    + assert (x = 0) by lra. subst x.
      replace (0 * 0 + y * y) with (y * y) by ring.
      destruct (Rlt_dec 0 y) as [Hy | Hny].
      * rewrite sqrt_square by lra. rewrite cos_PI2, sin_PI2. split; ring.
      * destruct (Rlt_dec y 0) as [Hy' | Hny'].
        -- replace (y * y) with (- y * - y) by ring.
           rewrite sqrt_square by lra.
           rewrite cos_neg, sin_neg, cos_PI2, sin_PI2. split; ring.
        -- assert (y = 0) by lra. subst y.
           replace (0 * 0) with 0 by ring. rewrite sqrt_0. split; ring.
Qed.

(** C8: cartesian to spherical and back, and cartesian to cylindrical and
    back, both return the triple they started from. *)
Theorem cartesian_round_trip (x y z : R) :
  (__spherical_to_cartesian_point (__cartesian_to_spherical_point [x; y; z])).2
  = [x; y; z] /\
  (__cylindrical_to_cartesian_point (__cartesian_to_cylindrical_point [x; y; z])).2
  = [x; y; z].
Proof.
  split.
  - unfold __spherical_to_cartesian_point, __cartesian_to_spherical_point,
      spherical_xyz.
    cbn -[__reduce_angle atan2 sqrt cos sin Rmult Rplus].
    rewrite !cos_reduce_angle, !sin_reduce_angle.
    set (rho := sqrt (x * x + y * y)).
    assert (Hrho : rho * rho = x * x + y * y).
    { apply sqrt_sqrt. nra. }
    destruct (atan2_polar z rho) as [Hz Hxy].
    destruct (atan2_polar x y) as [Hx Hy]. fold rho in Hx, Hy.
    replace (z * z + rho * rho) with (x * x + y * y + z * z) in Hz, Hxy by lra.
    rewrite Hz, Hxy, Hx, Hy. reflexivity.
  - unfold __cylindrical_to_cartesian_point, __cartesian_to_cylindrical_point,
      cylindrical_xyz.
    cbn -[__reduce_angle atan2 sqrt cos sin Rmult Rplus].
    rewrite cos_reduce_angle, sin_reduce_angle.
    destruct (atan2_polar x y) as [Hx Hy].
    rewrite Hx, Hy. reflexivity.
Qed.

End RoundTrip.

Section InPlaceReduction.

Lemma store_ok (a : list R) (i : nat) (v : R) :
  (i < length a)%nat -> store a i v = Some (<[i := v]> a).
Proof.
  intros Hi. unfold store. destruct (Nat.ltb_spec i (length a)); [reflexivity | lia].
Qed.

Lemma load_ok (a : list R) (i : nat) :
  (i < length a)%nat -> load a i = Some (a !!! i).
Proof.
  intros Hi. unfold load. apply list_lookup_lookup_total_lt. exact Hi.
Qed.

(** One turn of either batched loop overwrites the angle slot of its triple
    with the reduced angle and keeps the size of the result array. *)
Lemma spherical_block_overwrites (i : nat) (buf xyz : list R) :
  (i + 2 < length buf)%nat -> length xyz = length buf ->
  exists xyz',
    spherical_block i (buf, xyz)
    = Some (<[(i + 2)%nat := __reduce_angle (buf !!! (i + 2)%nat) false true]> buf, xyz')
    /\ length xyz' = length xyz.
Proof.
  intros Hi Hlen. unfold spherical_block.
  rewrite load_ok by lia. cbn [mbind option_bind].
  rewrite store_ok by lia. cbn [mbind option_bind].
  set (buf' := <[(i + 2)%nat := _]> buf).
  assert (Hl : length buf' = length buf) by apply length_insert.
  rewrite !(load_ok buf') by lia. cbn [mbind option_bind].
  rewrite store_ok by lia. cbn [mbind option_bind].
  rewrite store_ok by (rewrite length_insert; lia). cbn [mbind option_bind].
  rewrite store_ok by (rewrite !length_insert; lia). cbn [mbind option_bind].
  eexists. split; [reflexivity|]. rewrite !length_insert. reflexivity.
Qed.

Lemma cylindrical_block_overwrites (i : nat) (buf xyz : list R) :
  (i + 2 < length buf)%nat -> length xyz = length buf ->
  exists xyz',
    cylindrical_block i (buf, xyz)
    = Some (<[(i + 1)%nat := __reduce_angle (buf !!! (i + 1)%nat) false true]> buf, xyz')
    /\ length xyz' = length xyz.
Proof.
  intros Hi Hlen. unfold cylindrical_block.
  rewrite load_ok by lia. cbn [mbind option_bind].
  rewrite store_ok by lia. cbn [mbind option_bind].
  set (buf' := <[(i + 1)%nat := _]> buf).
  assert (Hl : length buf' = length buf) by apply length_insert.
  rewrite !(load_ok buf') by lia. cbn [mbind option_bind].
  rewrite store_ok by lia. cbn [mbind option_bind].
  rewrite store_ok by (rewrite length_insert; lia). cbn [mbind option_bind].
  rewrite store_ok by (rewrite !length_insert; lia). cbn [mbind option_bind].
  eexists. split; [reflexivity|]. rewrite !length_insert. reflexivity.
Qed.

(** The buffer after [n] turns from offset [i]: in each of the [n] triples
    the slot [c] holds its reduced value, everything else is as before. *)
Section Stride.

Variable c : nat.
Variable body : nat -> list R * list R -> option (list R * list R).
Hypothesis Hc : (c < 3)%nat.
Hypothesis Hbody :
  forall i buf xyz,
    (i + 2 < length buf)%nat -> length xyz = length buf ->
    exists xyz',
      body i (buf, xyz)
      = Some (<[(i + c)%nat := __reduce_angle (buf !!! (i + c)%nat) false true]> buf, xyz')
      /\ length xyz' = length xyz.

Lemma stride3_overwrites :
  forall n i buf xyz,
    (i + 3 * n <= length buf)%nat -> length xyz = length buf ->
    exists buf' xyz',
      stride3 body n i (buf, xyz) = Some (buf', xyz')
      /\ length buf' = length buf /\ length xyz' = length xyz
      /\ (forall j, (j < i \/ i + 3 * n <= j)%nat -> buf' !! j = buf !! j)
      /\ (forall k d, (k < n)%nat -> (d < 3)%nat ->
            buf' !! (i + 3 * k + d)%nat
            = if decide (d = c)
              then Some (__reduce_angle (buf !!! (i + 3 * k + d)%nat) false true)
              else buf !! (i + 3 * k + d)%nat).
Proof.
  induction n as [|n IH]; intros i buf xyz Hi Hlen.
  - exists buf, xyz. simpl. repeat split; intros; lia || reflexivity.
  - destruct (Hbody i buf xyz) as (xyz1 & Hrun & Hlen1); [lia | exact Hlen |].
    set (buf1 := <[(i + c)%nat := __reduce_angle (buf !!! (i + c)%nat) false true]> buf) in *.
    assert (Hl1 : length buf1 = length buf) by apply length_insert.
    destruct (IH (i + 3)%nat buf1 xyz1) as (buf' & xyz' & Hrest & Hlb & Hlx & Hout & Hin);
      [lia | congruence |].
    exists buf', xyz'. cbn [stride3]. rewrite Hrun. cbn [mbind option_bind].
    split; [exact Hrest|]. split; [congruence|]. split; [congruence|]. split.
    + intros j Hj. rewrite Hout by lia. apply list_lookup_insert_ne. lia.
    + intros k d Hk Hd. destruct k as [|k].
      * replace (i + 3 * 0 + d)%nat with (i + d)%nat by lia.
        rewrite Hout by lia.
        case_decide as Hdc.
        -- subst d. apply list_lookup_insert_eq. lia.
        -- apply list_lookup_insert_ne. lia.
      * replace (i + 3 * S k + d)%nat with (i + 3 + 3 * k + d)%nat by lia.
        rewrite Hin by lia. unfold buf1.
        rewrite list_lookup_total_insert_ne by lia.
        case_decide; [reflexivity|]. apply list_lookup_insert_ne. lia.
Qed.

End Stride.

Lemma range3_len_triples (n : nat) : range3_len (3 * n) = n.
Proof.
  unfold range3_len. rewrite (Nat.mul_comm 3 n), Nat.div_add_l by lia.
  change (2 / 3)%nat with 0%nat. lia.
Qed.


Lemma reduce_angle_moves_minus_one : __reduce_angle (-1) false true <> -1.
Proof.
  pose proof two_pi_pos. pose proof (floordiv_remainder (-1)).
  unfold __reduce_angle.
  repeat destruct (Rlt_dec _ _); lra.
Qed.

(** A buffer shorter than a triple is copied before the write: the caller's
    array stays as it was. *)
Lemma short_buffer_untouched (a : list R) :
  (length a < 3)%nat ->
  (__spherical_to_cartesian_point a).1 = a /\
  (__cylindrical_to_cartesian_point a).1 = a.
Proof.
  intros Hs. unfold __spherical_to_cartesian_point, __cylindrical_to_cartesian_point.
  destruct (Nat.ltb_spec (length a) 3); [split; reflexivity | lia].
Qed.

(** C10: the conversions to cartesian coordinates write the reduced angle
    into the buffer they are given.  The single-point variants overwrite the
    angle of the triple; the batched variants succeed on an array of [n]
    triples and overwrite the angle of every triple, leaving the other two
    components as they were; and the write is visible, since reducing -1
    does not give -1 back. *)
Theorem conversions_overwrite_phi (a : list R) (n : nat) (r theta phi rho z : R) :
  length a = (3 * n)%nat ->
  (__spherical_to_cartesian_point [r; theta; phi]).1
  = [r; theta; __reduce_angle phi false true] /\
  (__cylindrical_to_cartesian_point [rho; phi; z]).1
  = [rho; __reduce_angle phi false true; z] /\
  (exists buf xyz,
     __spherical_to_cartesian_points a = Some (buf, xyz) /\
     length buf = length a /\
     forall k, (k < n)%nat ->
       buf !! (3 * k)%nat = a !! (3 * k)%nat /\
       buf !! (3 * k + 1)%nat = a !! (3 * k + 1)%nat /\
       buf !! (3 * k + 2)%nat
       = Some (__reduce_angle (a !!! (3 * k + 2)%nat) false true)) /\
  (exists buf xyz,
     __cylindrical_to_cartesian_points a = Some (buf, xyz) /\
     length buf = length a /\
     forall k, (k < n)%nat ->
       buf !! (3 * k)%nat = a !! (3 * k)%nat /\
       buf !! (3 * k + 1)%nat
       = Some (__reduce_angle (a !!! (3 * k + 1)%nat) false true) /\
       buf !! (3 * k + 2)%nat = a !! (3 * k + 2)%nat) /\
  __reduce_angle (-1) false true <> -1.
Proof.
  intros Hlen.
  split; [reflexivity|]. split; [reflexivity|]. split; [|split].
  - unfold __spherical_to_cartesian_points. rewrite Hlen, range3_len_triples.
    destruct (stride3_overwrites 2 spherical_block ltac:(lia)
                spherical_block_overwrites n 0%nat a (replicate (3 * n) 0))
      as (buf & xyz & Hrun & Hlb & _ & _ & Hin);
      [lia | rewrite length_replicate; lia |].
    exists buf, xyz. split; [exact Hrun|]. split; [congruence|].
    intros k Hk.
    pose proof (Hin k 0%nat Hk ltac:(lia)) as H0.
    pose proof (Hin k 1%nat Hk ltac:(lia)) as H1.
    pose proof (Hin k 2%nat Hk ltac:(lia)) as H2.
    rewrite decide_False in H0 by lia. rewrite decide_False in H1 by lia.
    rewrite decide_True in H2 by lia.
    replace (0 + 3 * k + 0)%nat with (3 * k)%nat in H0 by lia.
    replace (0 + 3 * k + 1)%nat with (3 * k + 1)%nat in H1 by lia.
    replace (0 + 3 * k + 2)%nat with (3 * k + 2)%nat in H2 by lia.
    auto.
  - unfold __cylindrical_to_cartesian_points. rewrite Hlen, range3_len_triples.
    destruct n as [|n].
    + exists a, []. destruct a; [|discriminate].
      split; [reflexivity|]. split; [reflexivity|]. intros k Hk. lia.
    + destruct (Nat.ltb_spec (3 * S n) 3) as [Hlt | _]; [lia|].
      destruct (stride3_overwrites 1 cylindrical_block ltac:(lia)
                  cylindrical_block_overwrites (S n) 0%nat a (replicate (3 * S n) 0))
        as (buf & xyz & Hrun & Hlb & _ & _ & Hin);
        [lia | rewrite length_replicate; lia |].
      exists buf, xyz. split; [exact Hrun|]. split; [congruence|].
      intros k Hk.
      pose proof (Hin k 0%nat Hk ltac:(lia)) as H0.
      pose proof (Hin k 1%nat Hk ltac:(lia)) as H1.
      pose proof (Hin k 2%nat Hk ltac:(lia)) as H2.
      rewrite decide_False in H0 by lia. rewrite decide_True in H1 by lia.
      rewrite decide_False in H2 by lia.
      replace (0 + 3 * k + 0)%nat with (3 * k)%nat in H0 by lia.
      replace (0 + 3 * k + 1)%nat with (3 * k + 1)%nat in H1 by lia.
      replace (0 + 3 * k + 2)%nat with (3 * k + 2)%nat in H2 by lia.
      auto.
  - exact reduce_angle_moves_minus_one.
Qed.

(** The array (1, -1, -1) holds one triple. *)
Lemma conversions_overwrite_phi_witness :
  length [1; -1; -1] = (3 * 1)%nat /\
  (exists buf xyz,
     __spherical_to_cartesian_points [1; -1; -1] = Some (buf, xyz) /\
     buf !! 2%nat = Some (__reduce_angle (-1) false true)) /\
  __reduce_angle (-1) false true <> -1.
Proof.
  split; [reflexivity|].
  destruct (conversions_overwrite_phi [1; -1; -1] 1 0 0 0 0 0 eq_refl)
    as (_ & _ & (buf & xyz & Hrun & _ & Hrows) & _ & Hne).
  split; [|exact Hne].
  exists buf, xyz. split; [exact Hrun|].
  destruct (Hrows 0%nat ltac:(lia)) as (_ & _ & H2). exact H2.
Defined.

End InPlaceReduction.

Section Arrays.

Context {A : Type}.

(** A loop [for i in range(a, a + n): l[i + d] = f(i)] over a list. *)
Variable body : list A -> nat -> list A.
Variable f : nat -> A.
Variable d : nat.
Hypothesis body_writes : forall res i, body res i = <[(i + d)%nat := f i]> res.

Lemma foldl_insert_lookup (n : nat) :
  forall (a : nat) (l : list A) (j : nat),
    foldl body l (seq a n) !! j
    = if decide (a + d <= j < a + d + n /\ j < length l)%nat
      then Some (f (j - d)%nat) else l !! j.
Proof.
  induction n as [|n IH]; intros a l j.
  - cbn [seq foldl]. case_decide; [lia | reflexivity].
  - cbn [seq foldl]. rewrite IH, body_writes, length_insert.
    destruct (decide (j = a + d)%nat) as [-> | Hne].
    + rewrite decide_False by lia.
      case_decide.
      * rewrite list_lookup_insert_eq by lia. f_equal. f_equal. lia.
      * rewrite lookup_ge_None_2 by (rewrite length_insert; lia).
        symmetry. apply lookup_ge_None_2. lia.
    + rewrite list_lookup_insert_ne by lia.
      repeat case_decide; try reflexivity; lia.
Qed.

Lemma foldl_insert_length (ixs : list nat) (l : list A) :
  length (foldl body l ixs) = length l.
Proof.
  revert l. induction ixs as [|i ixs IH]; intros l; cbn [foldl]; [reflexivity|].
  rewrite IH, body_writes. apply length_insert.
Qed.

End Arrays.

Section Tangents.

Variable self : ParametricCurve.
Variable step : R.

(** The rows of the array [tangent] returns, for a sequence with at least
    one sample: forward difference in the first row, backward difference in
    the last one, and in between the two-sided tangent taken at the last
    sample [t[s]]. *)
Lemma tangent_rows (t : list R) :
  t <> [] ->
  exists result,
    Curve.tangent self t step = Some result /\
    length result = length t /\
    forall i, (i < length t)%nat ->
      result !! i
      = Some (if decide (0 < i < length t - 1)%nat
              then tangent_point self (t !!! (length t - 1)%nat) step true true
              else if decide (i = length t - 1)%nat
                   then tangent_point self (t !!! (length t - 1)%nat) step true false
                   else tangent_point self (t !!! 0%nat) step false true).
Proof.
  intros Hne. destruct t as [|t0 t']; [contradiction|].
  set (t := t0 :: t') in *.
  assert (Hlen : (0 < length t)%nat) by (cbn; lia).
  unfold Curve.tangent. fold t.
  set (s := (length t - 1)%nat).
  set (row := tangent_point self (t !!! s) step true true).
  eexists. split; [reflexivity|].
  assert (Hbody : forall (res : list (R * R * R)) (i : nat),
             <[i := row]> res = <[(i + 0)%nat := row]> res)
    by (intros; rewrite Nat.add_0_r; reflexivity).
  pose proof (foldl_insert_length _ (fun _ : nat => row) 0 Hbody) as Hl.
  pose proof (foldl_insert_lookup _ (fun _ : nat => row) 0 Hbody (s - 1) 1) as Hk.
  unfold row, tangent_point in Hl, Hk.
  split.
  - rewrite Hl, !length_insert, length_replicate. unfold s. lia.
  - intros i Hi. rewrite Hk, !length_insert, length_replicate.
    unfold tangent_point. fold s.
    destruct (decide (0 < i < s)%nat) as [Hin | Hout].
    + rewrite decide_True by lia. reflexivity.
    + rewrite decide_False by lia.
      destruct (decide (i = s)) as [-> | Hnl].
      * rewrite list_lookup_insert_eq; [reflexivity|].
        rewrite length_insert, length_replicate. lia.
      * assert (i = 0%nat) by (unfold s in *; lia). subst i.
        rewrite list_lookup_insert_ne by lia.
        rewrite list_lookup_insert_eq; [reflexivity|].
        rewrite length_replicate. lia.
Qed.

End Tangents.

(** The sibling method [tangent_x] takes the two-sided tangent of an interior
    row at the sample of that row. *)
Lemma tangent_x_interior (self : ParametricCurve) (step : R) (t : list R) (i : nat) :
  (0 < i < length t - 1)%nat ->
  exists result,
    Curve.tangent_x self t step = Some result /\
    result !! i = Some (tangent_x_point self (t !!! i) step true true).
Proof.
  intros Hi. destruct t as [|t0 t']; [cbn in Hi; lia|].
  set (t := t0 :: t') in *.
  unfold Curve.tangent_x. fold t.
  set (s := (length t - 1)%nat) in *.
  eexists. split; [reflexivity|].
  assert (Hbody : forall (res : list R) (k : nat),
             <[k := tangent_x_point self (t !!! k) step true true]> res
             = <[(k + 0)%nat := tangent_x_point self (t !!! k) step true true]> res)
    by (intros; rewrite Nat.add_0_r; reflexivity).
  rewrite (foldl_insert_lookup _ (fun k => tangent_x_point self (t !!! k) step true true)
             0 Hbody).
  rewrite !length_insert, length_replicate.
  rewrite decide_True by lia. rewrite Nat.sub_0_r. reflexivity.
Qed.

(** C1, at a failing input: on the curve x(t) = t * t sampled at 0, 1, 2 with
    step 1, the interior row of [tangent] is the two-sided tangent at the
    last sample 2, namely 4, whereas the two-sided tangent at the sample of
    that row, 1, is 2, which is what the sibling [tangent_x] stores. *)
Theorem tangent_interior_row_parabola :
  Curve.tangent parabola [0; 1; 2] 1 = Some [(1, 0, 0); (4, 0, 0); (3, 0, 0)] /\
  tangent_point parabola 1 1 true true = (2, 0, 0) /\
  Curve.tangent_x parabola [0; 1; 2] 1 = Some [1; 2; 3].
Proof.
  unfold Curve.tangent, Curve.tangent_x, tangent_point, parabola, curve_of_points,
    finite_difference.
  cbn -[Rplus Rminus Rmult Rdiv].
  repeat split; repeat f_equal; lra.
Qed.

Section EvaluationPass.

Variable self : ParametricCurve.

Lemma generate_points_row (t : list R) (i : nat) :
  (i < length t)%nat ->
  Curve.generate_points self t !!! i
  = (x_point self (t !!! i), y_point self (t !!! i), z_point self (t !!! i)).
Proof.
  intros Hi. unfold Curve.generate_points.
  rewrite (list_lookup_total_fmap _ (seq 0 (length t)) i)
    by (rewrite length_seq; exact Hi).
  rewrite lookup_total_seq_lt by exact Hi. cbn [Nat.add].
  unfold Curve.x, Curve.y, Curve.z.
  rewrite (list_lookup_total_fmap (x_point self) t i) by exact Hi.
  rewrite (list_lookup_total_fmap (y_point self) t i) by exact Hi.
  rewrite (list_lookup_total_fmap (z_point self) t i) by exact Hi.
  reflexivity.
Qed.

Lemma chord_rows_generate_points (t : list R) (i : nat) :
  (i + 1 < length t)%nat ->
  chord_rows (Curve.generate_points self t) i = chord_segment self t i.
Proof.
  intros Hi. unfold chord_rows, chord_segment, cell.
  rewrite !generate_points_row by lia. reflexivity.
Qed.

Variable nodes : list R.
Variables xyz xyz_t : list (R * R * R).

Lemma fold_segment_solution (ixs : list nat) (e : Curve.estimate) :
  Curve.solution_array (foldl (Curve.segment nodes xyz xyz_t) e ixs)
  = foldl (fun res i => <[(i + 1)%nat := trapezoid_segment nodes xyz_t i]> res)
          (Curve.solution_array e) ixs.
Proof.
  revert e. induction ixs as [|i ixs IH]; intros e; cbn [foldl]; [reflexivity|].
  rewrite IH. reflexivity.
Qed.

Lemma fold_segment_error (ixs : list nat) (e : Curve.estimate) :
  Curve.error_array (foldl (Curve.segment nodes xyz xyz_t) e ixs)
  = foldl (fun res i =>
             <[(i + 1)%nat := Rabs (trapezoid_segment nodes xyz_t i - chord_rows xyz i)]> res)
          (Curve.error_array e) ixs.
Proof.
  revert e. induction ixs as [|i ixs IH]; intros e; cbn [foldl]; [reflexivity|].
  rewrite IH. reflexivity.
Qed.

(** The arrays the loop of [__length_tangent_mesh] leaves behind on [n]
    nodes. *)
Lemma segment_loop_arrays (n : nat) :
  (1 <= n)%nat ->
  let e := foldl (Curve.segment nodes xyz xyz_t)
             {| Curve.solution_array := <[0%nat := 0]> (replicate n 0);
                Curve.error_array := <[0%nat := 0]> (replicate n 0);
                Curve.result_t_acc := 0; Curve.result_p_acc := 0 |}
             (seq 0 (n - 1)) in
  length (Curve.solution_array e) = n /\
  length (Curve.error_array e) = n /\
  Curve.solution_array e !! 0%nat = Some 0 /\
  Curve.error_array e !! 0%nat = Some 0 /\
  forall i, (i + 1 < n)%nat ->
    Curve.solution_array e !! (i + 1)%nat = Some (trapezoid_segment nodes xyz_t i) /\
    Curve.error_array e !! (i + 1)%nat
    = Some (Rabs (trapezoid_segment nodes xyz_t i - chord_rows xyz i)).
Proof.
  intros Hn e. unfold e.
  set (init := <[0%nat := 0]> (replicate n 0)).
  assert (Hinit : length init = n)
    by (unfold init; rewrite length_insert, length_replicate; reflexivity).
  assert (Hinit0 : init !! 0%nat = Some 0).
  { unfold init. apply list_lookup_insert_eq. rewrite length_replicate. lia. }
  rewrite fold_segment_solution, fold_segment_error.
  cbn [Curve.solution_array Curve.error_array].
  split; [rewrite (foldl_insert_length _ _ 1) by reflexivity; exact Hinit|].
  split; [rewrite (foldl_insert_length _ _ 1) by reflexivity; exact Hinit|].
  split; [|split].
  - rewrite (foldl_insert_lookup _ _ 1) by reflexivity.
    rewrite decide_False by lia. exact Hinit0.
  - rewrite (foldl_insert_lookup _ _ 1) by reflexivity.
    rewrite decide_False by lia. exact Hinit0.
  - intros i Hi. split.
    + rewrite (foldl_insert_lookup _ _ 1) by reflexivity.
      rewrite decide_True by lia. do 3 f_equal. lia.
    + rewrite (foldl_insert_lookup _ _ 1) by reflexivity.
      rewrite decide_True by lia.
      replace (i + 1 - 1)%nat with i by lia. reflexivity.
Qed.

(** Both running totals of the loop agree when the two estimators agree on
    every segment visited. *)
Lemma fold_segment_totals (ixs : list nat) (e : Curve.estimate) :
  (forall i, i ∈ ixs -> trapezoid_segment nodes xyz_t i = chord_rows xyz i) ->
  Curve.result_t_acc e = Curve.result_p_acc e ->
  Curve.result_t_acc (foldl (Curve.segment nodes xyz xyz_t) e ixs)
  = Curve.result_p_acc (foldl (Curve.segment nodes xyz xyz_t) e ixs).
Proof.
  revert e. induction ixs as [|i ixs IH]; intros e Hall He; cbn [foldl]; [exact He|].
  apply IH.
  - intros k Hk. apply Hall. right. exact Hk.
  - cbn [Curve.segment Curve.result_t_acc Curve.result_p_acc].
    pose proof (Hall i ltac:(left)) as Hi. unfold trapezoid_segment, chord_rows, norm3, cell in Hi.
    unfold cell. rewrite He. f_equal. exact Hi.
Qed.

End EvaluationPass.

(** The loop of [__length_tangent_mesh] runs once [tangent] has returned. *)
Lemma length_tangent_mesh_unfold (self : ParametricCurve) (mesh : Mesh1D)
    (tangent_step : R) (xyz_t : list (R * R * R)) :
  Curve.tangent self (physical_nodes mesh) tangent_step = Some xyz_t ->
  let e := foldl (Curve.segment (physical_nodes mesh)
                    (Curve.generate_points self (physical_nodes mesh)) xyz_t)
             {| Curve.solution_array := <[0%nat := 0]> (replicate (num mesh) 0);
                Curve.error_array := <[0%nat := 0]> (replicate (num mesh) 0);
                Curve.result_t_acc := 0; Curve.result_p_acc := 0 |}
             (seq 0 (num mesh - 1)) in
  Curve.length_tangent_mesh_loop self mesh tangent_step = Some e /\
  Curve.__length_tangent_mesh self mesh tangent_step
  = Some ({| physical_nodes := physical_nodes mesh;
             physical_step := physical_step mesh;
             solution := Curve.solution_array e;
             residual := Curve.error_array e |}, Curve.result_t_acc e).
Proof.
  intros Ht e. unfold Curve.__length_tangent_mesh, Curve.length_tangent_mesh_loop.
  rewrite Ht. cbn [mbind option_bind]. split; reflexivity.
Qed.

(** What one evaluation pass stores, in terms of the rows [tangent] returned
    to it, whatever these rows hold: 0 in [solution[0]] and [residual[0]];
    for every pair of consecutive nodes (i, i + 1), the trapezoid over the
    magnitudes of the rows [i] and [i + 1] in [solution[i + 1]], and its
    distance from the chord between the two curve points in
    [residual[i + 1]]. *)
Lemma length_tangent_mesh_annotations
    (self : ParametricCurve) (mesh : Mesh1D) (tangent_step : R) :
  (1 <= num mesh)%nat ->
  exists xyz_t mesh' length_tangent,
    Curve.tangent self (physical_nodes mesh) tangent_step = Some xyz_t /\
    Curve.__length_tangent_mesh self mesh tangent_step = Some (mesh', length_tangent) /\
    physical_nodes mesh' = physical_nodes mesh /\
    length (solution mesh') = num mesh /\
    length (residual mesh') = num mesh /\
    solution mesh' !! 0%nat = Some 0 /\
    residual mesh' !! 0%nat = Some 0 /\
    forall i, (i + 1 < num mesh)%nat ->
      solution mesh' !! (i + 1)%nat
      = Some (trapezoid_segment (physical_nodes mesh) xyz_t i) /\
      residual mesh' !! (i + 1)%nat
      = Some (Rabs (trapezoid_segment (physical_nodes mesh) xyz_t i
                    - chord_segment self (physical_nodes mesh) i)).
Proof.
  intros Hnum.
  destruct (tangent_rows self tangent_step (physical_nodes mesh))
    as (xyz_t & Ht & _ & _).
  { intros E. unfold num in Hnum. rewrite E in Hnum. cbn in Hnum. lia. }
  destruct (length_tangent_mesh_unfold self mesh tangent_step xyz_t Ht) as [_ Hrun].
  destruct (segment_loop_arrays (physical_nodes mesh)
              (Curve.generate_points self (physical_nodes mesh)) xyz_t (num mesh) Hnum)
    as (Hls & Hle & Hs0 & He0 & Hrows).
  exists xyz_t. eexists. eexists. split; [exact Ht|]. split; [exact Hrun|].
  cbn [physical_nodes solution residual].
  split; [reflexivity|]. split; [exact Hls|]. split; [exact Hle|].
  split; [exact Hs0|]. split; [exact He0|].
  intros i Hi. destruct (Hrows i Hi) as [Hs He]. split; [exact Hs|].
  rewrite He. rewrite chord_rows_generate_points by exact Hi. reflexivity.
Qed.

Lemma parabola_tangent_rows :
  Curve.tangent parabola (physical_nodes three_node_mesh) 1
  = Some [(1, 0, 0); (4, 0, 0); (3, 0, 0)].
Proof.
  unfold Curve.tangent, parabola, curve_of_points, finite_difference.
  cbn -[Rplus Rminus Rmult Rdiv].
  repeat f_equal; lra.
Qed.

(** C3, at a failing input: on the curve x(t) = t * t, over the mesh with
    the nodes 0, 1, 2 and with tangent step 1, the pass stores 5/2 and 7/2 as
    the lengths of the two segments, and 6 as their total.  The trapezoid
    over the tangents at the two nodes of a segment (forward difference at
    the first node, two-sided at the middle one, backward at the last) is
    3/2 and 5/2: the middle row that [tangent] hands to the pass holds the
    tangent at the last node, 4, for the tangent at the middle node, 2.  The
    first entries are 0 and each residual is the distance of the stored
    length from the chord, 1 and 3 here. *)
Theorem length_tangent_mesh_parabola :
  let own := [tangent_point parabola 0 1 false true;
              tangent_point parabola 1 1 true true;
              tangent_point parabola 2 1 true false] in
  (exists mesh' length_tangent,
     Curve.__length_tangent_mesh parabola three_node_mesh 1
     = Some (mesh', length_tangent) /\
     solution mesh' = [0; 5 / 2; 7 / 2] /\
     residual mesh' = [0; 3 / 2; 1 / 2] /\
     length_tangent = 6) /\
  trapezoid_segment (physical_nodes three_node_mesh) own 0 = 3 / 2 /\
  trapezoid_segment (physical_nodes three_node_mesh) own 1 = 5 / 2.
Proof.
  assert (H1 : sqrt (1 * 1 + 0 * 0 + 0 * 0) = 1) by (apply sqrt_lem_1; lra).
  assert (H2 : sqrt (2 * 2 + 0 * 0 + 0 * 0) = 2) by (apply sqrt_lem_1; lra).
  assert (H3 : sqrt (3 * 3 + 0 * 0 + 0 * 0) = 3) by (apply sqrt_lem_1; lra).
  assert (H4 : sqrt (4 * 4 + 0 * 0 + 0 * 0) = 4) by (apply sqrt_lem_1; lra).
  assert (Hc1 : sqrt ((1 * 1 - 0 * 0) * (1 * 1 - 0 * 0) + (0 - 0) * (0 - 0)
                      + (0 - 0) * (0 - 0)) = 1) by (apply sqrt_lem_1; lra).
  assert (Hc2 : sqrt ((2 * 2 - 1 * 1) * (2 * 2 - 1 * 1) + (0 - 0) * (0 - 0)
                      + (0 - 0) * (0 - 0)) = 3) by (apply sqrt_lem_1; lra).
  intros own. split; [|split].
  - destruct (length_tangent_mesh_unfold parabola three_node_mesh 1 _
                parabola_tangent_rows) as [_ Hrun].
    eexists. eexists. split; [exact Hrun|].
    cbn -[Rplus Rminus Rmult Rdiv sqrt Rabs].
    rewrite H1, H3, H4, Hc1, Hc2.
    replace ((1 - 0) * (1 + 4) / 2 - 1) with (3 / 2) by lra.
    replace ((2 - 1) * (4 + 3) / 2 - 3) with (1 / 2) by lra.
    rewrite !Rabs_right by lra.
    split; [repeat f_equal; lra|]. split; [reflexivity | lra].
  - unfold trapezoid_segment, norm3, own, tangent_point, parabola, curve_of_points,
      finite_difference.
    cbn -[Rplus Rminus Rmult Rdiv sqrt].
    replace ((0 + 1) * (0 + 1) - 0 * 0) with 1 by lra.
    replace (((1 + 1 / 2) * (1 + 1 / 2) - (1 - 1 / 2) * (1 - 1 / 2)) / 1) with 2 by lra.
    replace (1 / 1) with 1 by lra. replace (0 / 1) with 0 by lra.
    replace ((0 - 0) / 1) with 0 by lra.
    rewrite H1, H2. lra.
  - unfold trapezoid_segment, norm3, own, tangent_point, parabola, curve_of_points,
      finite_difference.
    cbn -[Rplus Rminus Rmult Rdiv sqrt].
    replace (((1 + 1 / 2) * (1 + 1 / 2) - (1 - 1 / 2) * (1 - 1 / 2)) / 1) with 2 by lra.
    replace ((2 * 2 - (2 - 1) * (2 - 1)) / 1) with 3 by lra.
    replace ((0 - 0) / 1) with 0 by lra.
    rewrite H2, H3. lra.
Qed.

Section RefinementLoop.

Context `{MeshLibrary}.
Variable self : ParametricCurve.
Variables precision tangent_step : R.

(** Every sub-interval the selector returns adds one to [to_refine]. *)
Lemma refine_counts (mesh : Mesh1D) (refinements : list (nat * nat)) :
  forall h meshes_tree to_refine h' meshes_tree' to_refine',
    for_each (Curve.refine mesh) refinements (h, meshes_tree, to_refine)
    = Some (h', meshes_tree', to_refine') ->
    to_refine' = (to_refine + length refinements)%nat.
Proof.
  induction refinements as [|refinement refinements IH];
    intros h meshes_tree to_refine h' meshes_tree' to_refine' Hrun.
  - cbn in Hrun. inversion Hrun. cbn. lia.
  - cbn [for_each] in Hrun.
    destruct (Curve.refine mesh (h, meshes_tree, to_refine) refinement)
      as [[[h1 tree1] n1]|] eqn:Hstep; [|discriminate].
    cbn [mbind option_bind] in Hrun. apply IH in Hrun.
    unfold Curve.refine in Hstep.
    destruct (physical_nodes mesh !! refinement.1); [|discriminate].
    destruct (physical_nodes mesh !! refinement.2); [|discriminate].
    cbn [mbind option_bind] in Hstep. inversion Hstep. subst. cbn [length]. lia.
Qed.

(** What a visit does, in terms of its parts. *)
Lemma visit_inv (h : heap) (meshes_tree : TreeMesh1DUniform) (to_refine r : nat)
    (h' : heap) (meshes_tree' : TreeMesh1DUniform) (to_refine' : nat) :
  Curve.visit self precision tangent_step (h, meshes_tree, to_refine) r
  = Some (h', meshes_tree', to_refine') ->
  exists mesh mesh' length_tangent h1 tree1,
    h !! r = Some mesh /\
    Curve.__length_tangent_mesh self mesh tangent_step = Some (mesh', length_tangent) /\
    for_each (Curve.refine mesh') (refinement_points mesh' precision)
             (<[r := mesh']> h, meshes_tree, to_refine) = Some (h1, tree1, to_refine') /\
    h' = h1 /\ meshes_tree' = remove_coarse_duplicates h1 tree1 /\
    to_refine' = (to_refine + length (refinement_points mesh' precision))%nat.
Proof.
  intros Hrun. unfold Curve.visit in Hrun.
  destruct (h !! r) as [mesh|] eqn:Hmesh; [|discriminate].
  cbn [mbind option_bind] in Hrun.
  destruct (Curve.__length_tangent_mesh self mesh tangent_step)
    as [[mesh' length_tangent]|] eqn:Heval; [|discriminate].
  cbn [mbind option_bind] in Hrun.
  destruct (for_each (Curve.refine mesh') (refinement_points mesh' precision)
              (<[r := mesh']> h, meshes_tree, to_refine))
    as [[[h1 tree1] n1]|] eqn:Hfold; [|discriminate].
  cbn [mbind option_bind] in Hrun. inversion Hrun. subst.
  exists mesh, mesh', length_tangent, h', tree1.
  repeat split; try reflexivity; try assumption.
  eapply refine_counts. exact Hfold.
Qed.

(** A visit for which the selector returns nothing. *)
Lemma visit_quiet (h : heap) (meshes_tree : TreeMesh1DUniform) (to_refine r : nat)
    (mesh mesh' : Mesh1D) (length_tangent : R) :
  h !! r = Some mesh ->
  Curve.__length_tangent_mesh self mesh tangent_step = Some (mesh', length_tangent) ->
  refinement_points mesh' precision = [] ->
  Curve.visit self precision tangent_step (h, meshes_tree, to_refine) r
  = Some (<[r := mesh']> h, remove_coarse_duplicates (<[r := mesh']> h) meshes_tree,
          to_refine).
Proof.
  intros Hm He Hnil. unfold Curve.visit. rewrite Hm. cbn [mbind option_bind].
  rewrite He. cbn [mbind option_bind]. rewrite Hnil. reflexivity.
Qed.

Lemma visits_grow (refs : list nat) :
  forall h meshes_tree to_refine h' meshes_tree' to_refine',
    for_each (Curve.visit self precision tangent_step) refs (h, meshes_tree, to_refine)
    = Some (h', meshes_tree', to_refine') ->
    (to_refine <= to_refine')%nat.
Proof.
  induction refs as [|r refs IH];
    intros h meshes_tree to_refine h' meshes_tree' to_refine' Hrun.
  - cbn in Hrun. inversion Hrun. lia.
  - cbn [for_each] in Hrun.
    destruct (Curve.visit self precision tangent_step (h, meshes_tree, to_refine) r)
      as [[[h1 tree1] n1]|] eqn:Hstep; [|discriminate].
    cbn [mbind option_bind] in Hrun. apply IH in Hrun.
    apply visit_inv in Hstep. destruct Hstep as (? & ? & ? & ? & ? & _ & _ & _ & _ & _ & ->).
    lia.
Qed.

(** The visits count nothing exactly when they are quiet. *)
Lemma visits_quiet (refs : list nat) :
  forall h meshes_tree h' meshes_tree',
    for_each (Curve.visit self precision tangent_step) refs (h, meshes_tree, 0%nat)
    = Some (h', meshes_tree', 0%nat)
    <-> quiet self precision tangent_step refs (h, meshes_tree) (h', meshes_tree').
Proof.
  induction refs as [|r refs IH]; intros h meshes_tree h' meshes_tree'.
  - cbn [for_each]. split.
    + intros Hrun. inversion Hrun. constructor.
    + intros Hq. inversion Hq. reflexivity.
  - cbn [for_each]. split.
    + intros Hrun.
      destruct (Curve.visit self precision tangent_step (h, meshes_tree, 0%nat) r)
        as [[[h1 tree1] n1]|] eqn:Hstep; [|discriminate].
      cbn [mbind option_bind] in Hrun.
      pose proof (visits_grow _ _ _ _ _ _ _ Hrun) as Hle.
      assert (n1 = 0%nat) by lia. subst n1.
      apply visit_inv in Hstep.
      destruct Hstep as (mesh & mesh' & lt & h2 & tree2 & Hm & He & Hf & -> & -> & Hn).
      assert (Hnil : refinement_points mesh' precision = []).
      { destruct (refinement_points mesh' precision); [reflexivity | cbn in Hn; lia]. }
      rewrite Hnil in Hf. cbn in Hf. inversion Hf. subst.
      econstructor; [exact Hm | exact He | exact Hnil |].
      apply IH. exact Hrun.
    + intros Hq. inversion Hq as [|? ? ? ? mesh mesh' lt ? Hm He Hnil Hrest]. subst.
      rewrite (visit_quiet _ _ _ _ _ _ _ Hm He Hnil). cbn [mbind option_bind].
      apply IH. exact Hrest.
Qed.

(** The loop, from any state: it makes [k] unconverged turns and then either
    runs out of turns, or meets a turn that counts nothing, or meets a turn
    that fails. *)
Lemma mesh_tree_loop_trace (remaining : nat) :
  forall iteration st0,
  exists k st,
    (k <= remaining)%nat /\
    unconverged self precision tangent_step k st0 st /\
    ((k = remaining /\
      Curve.mesh_tree_loop self precision tangent_step remaining iteration st0
      = Some (st, (iteration + remaining)%nat)) \/
     (k < remaining /\
      exists h meshes_tree,
        Curve.pass self precision tangent_step st = Some (h, meshes_tree, 0%nat) /\
        Curve.mesh_tree_loop self precision tangent_step remaining iteration st0
        = Some (h, meshes_tree, (iteration + S k)%nat)) \/
     (k < remaining /\
      Curve.pass self precision tangent_step st = None /\
      Curve.mesh_tree_loop self precision tangent_step remaining iteration st0 = None))%nat.
Proof.
  induction remaining as [|remaining IH]; intros iteration st0.
  - exists 0%nat, st0. split; [lia|]. split; [constructor|].
    left. split; [reflexivity|]. cbn. rewrite Nat.add_0_r. reflexivity.
  - cbn [Curve.mesh_tree_loop].
    destruct (Curve.pass self precision tangent_step st0)
      as [[[h1 tree1] to_refine]|] eqn:Hpass.
    + cbn [mbind option_bind].
      destruct (Nat.eqb_spec to_refine 0) as [-> | Hnz].
      * exists 0%nat, st0. split; [lia|]. split; [constructor|].
        right. left. split; [lia|]. exists h1, tree1. split; [exact Hpass | reflexivity].
      * destruct (IH (iteration + 1)%nat (h1, tree1)) as (k & st & Hk & Htrace & Hend).
        exists (S k), st. split; [lia|].
        split; [econstructor; eassumption|].
        destruct Hend as [[-> Hrun] | [(Hlt & h & tree & Hq & Hrun) | (Hlt & Hfail & Hrun)]].
        -- left. split; [reflexivity|]. rewrite Hrun. do 2 f_equal. lia.
        -- right. left. split; [lia|]. exists h, tree. split; [exact Hq|].
           rewrite Hrun. do 2 f_equal. lia.
        -- right. right. split; [lia|]. split; [exact Hfail | exact Hrun].
    + exists 0%nat, st0. split; [lia|]. split; [constructor|].
      right. right. split; [lia|]. split; [exact Hpass | reflexivity].
Qed.

(** C4: [mesh_tree] is a total function of its inputs, and its loop makes at
    most [max_iterations] turns.  It makes some number [k] of turns that each
    count a sub-interval to refine, and then: either [k] is the cap and the
    tree built so far is returned; or turn [k + 1] counts nothing, which
    happens exactly when the selector returns no sub-interval for any mesh of
    the finest level, and the loop stops there; or turn [k + 1] itself fails
    inside a mesh evaluation.  Reaching the cap is never a failure. *)
Theorem mesh_tree_terminates (max_iterations : nat) :
  (forall st h meshes_tree,
     Curve.pass self precision tangent_step st = Some (h, meshes_tree, 0%nat)
     <-> quiet self precision tangent_step (finest_level st.1 st.2) st (h, meshes_tree)) /\
  exists k st,
    (k <= max_iterations)%nat /\
    unconverged self precision tangent_step k (Curve.initial_tree self) st /\
    ((k = max_iterations /\
      Curve.mesh_tree_run self precision max_iterations tangent_step
      = Some (st, max_iterations) /\
      Curve.mesh_tree self precision max_iterations tangent_step = Some st) \/
     (k < max_iterations /\
      exists h meshes_tree,
        Curve.pass self precision tangent_step st = Some (h, meshes_tree, 0%nat) /\
        Curve.mesh_tree_run self precision max_iterations tangent_step
        = Some (h, meshes_tree, S k) /\
        Curve.mesh_tree self precision max_iterations tangent_step
        = Some (h, meshes_tree)) \/
     (k < max_iterations /\
      Curve.pass self precision tangent_step st = None /\
      Curve.mesh_tree_run self precision max_iterations tangent_step = None))%nat.
Proof.
  split.
  - intros [h0 tree0] h meshes_tree. unfold Curve.pass. cbn [fst snd].
    apply visits_quiet.
  - destruct (mesh_tree_loop_trace max_iterations 0%nat (Curve.initial_tree self))
      as (k & st & Hk & Htrace & Hend).
    exists k, st. split; [exact Hk|]. split; [exact Htrace|].
    unfold Curve.mesh_tree, Curve.mesh_tree_run.
    destruct Hend as [[-> Hrun] | [(Hlt & h & tree & Hq & Hrun) | (Hlt & Hfail & Hrun)]].
    + left. rewrite Hrun. cbn. auto.
    + right. left. split; [exact Hlt|]. exists h, tree. rewrite Hrun. cbn. auto.
    + right. right. auto.
Qed.

End RefinementLoop.

(** The list-backed library honours the contract. *)
Lemma list_tree_contract : MeshContract list_tree_library.
Proof.
  split.
  - intros a b Hab. cbn [segments list_tree_library].
    replace ((b - a) / ((b - a) / 2)) with (IZR 2) by (field; lra).
    rewrite (Zceil_eq 2) by lra. reflexivity.
  - reflexivity.
  - reflexivity.
  - intros h r k aligned mesh Hm.
    cbn [flatten list_tree_library new_tree]. unfold list_flatten.
    cbn [tree_levels concat app omap list_omap]. rewrite Hm.
    cbn [fmap list_fmap concat physical_nodes solution].
    rewrite !app_nil_r. split; reflexivity.
Qed.

Section Sums.

(** Summing [n] slots that all hold 0. *)
Lemma sum_range_zeros (a : list R) (n : nat) :
  (forall j, (j < n)%nat -> a !! j = Some 0) -> sum_range n a = Some 0.
Proof.
  intros Hz. unfold sum_range.
  assert (Hgen : forall m k acc,
             (k + m <= n)%nat ->
             for_each (fun acc i => ai ← a !! i; Some (acc + ai)) (seq k m) acc
             = Some acc).
  { induction m as [|m IH]; intros k acc Hk; cbn [seq for_each]; [reflexivity|].
    rewrite Hz by lia. cbn [mbind option_bind].
    rewrite Rplus_0_r. apply IH. lia. }
  apply Hgen. lia.
Qed.

Lemma sum_range_three (a : list R) (x0 x1 x2 : R) :
  a !! 0%nat = Some x0 -> a !! 1%nat = Some x1 -> a !! 2%nat = Some x2 ->
  sum_range 3 a = Some (0 + x0 + x1 + x2).
Proof.
  intros H0 H1 H2. unfold sum_range. cbn [seq for_each].
  rewrite H0. cbn [mbind option_bind]. rewrite H1. cbn [mbind option_bind].
  rewrite H2. reflexivity.
Qed.

End Sums.

(** The selector returns nothing when no residual exceeds the threshold. *)
Lemma refinement_points_none (mesh : Mesh1D) (threshold : R) :
  (forall i, (i + 1 < num mesh)%nat -> residual mesh !!! (i + 1)%nat <= threshold) ->
  refinement_points mesh threshold = [].
Proof.
  intros Hres. unfold refinement_points.
  assert (Hnone : forall k m, (k + m <= num mesh - 1)%nat ->
             filter (fun i => threshold < residual mesh !!! S i) (seq k m) = []).
  { intros k m. revert k. induction m as [|m IH]; intros k Hk; cbn [seq]; [reflexivity|].
    rewrite filter_cons_False.
    - apply IH. lia.
    - pose proof (Hres k ltac:(lia)) as Hle.
      replace (k + 1)%nat with (S k) in Hle by lia. lra. }
  rewrite Hnone by lia. reflexivity.
Qed.

Section UniformMesh.

Context `{MeshLibrary}.

Lemma uniform_mesh_num (b1 b2 step : R) :
  num (Mesh1DUniform b1 b2 step) = S (segments b1 b2 step).
Proof.
  unfold num, Mesh1DUniform. cbn [physical_nodes].
  rewrite length_fmap, length_seq. reflexivity.
Qed.

Lemma uniform_mesh_node (b1 b2 step : R) (i : nat) :
  (i < num (Mesh1DUniform b1 b2 step))%nat ->
  physical_nodes (Mesh1DUniform b1 b2 step) !!! i = b1 + INR i * step.
Proof.
  rewrite uniform_mesh_num. intros Hi. unfold Mesh1DUniform. cbn [physical_nodes].
  rewrite (list_lookup_total_fmap _ (seq 0 (S (segments b1 b2 step))) i)
    by (rewrite length_seq; exact Hi).
  rewrite lookup_total_seq_lt by exact Hi. reflexivity.
Qed.

End UniformMesh.

Section OneMeshTree.

Context `{L : MeshLibrary} {C : MeshContract L}.
Variable self : ParametricCurve.
Variables precision tangent_step : R.

(** When the selector returns nothing for the evaluated root mesh, the first
    turn of the loop is the last one: the store still holds the root alone
    and the tree is the one [mesh_tree] started from. *)
Lemma root_only_run (n : nat) (root' : Mesh1D) (length_tangent : R) :
  Curve.__length_tangent_mesh self
    (Mesh1DUniform (start self) (stop self) ((stop self - start self) / 2))
    tangent_step = Some (root', length_tangent) ->
  refinement_points root' precision = [] ->
  Curve.mesh_tree_run self precision (S n) tangent_step
  = Some ([root'], new_tree 0 2 true, 1%nat).
Proof.
  intros Heval Hnil.
  unfold Curve.mesh_tree_run, Curve.initial_tree. cbn [Curve.mesh_tree_loop].
  unfold Curve.pass. cbn [fst snd].
  rewrite finest_level_new_tree. cbn [for_each].
  rewrite (visit_quiet self precision tangent_step
             [Mesh1DUniform (start self) (stop self) ((stop self - start self) / 2)]
             (new_tree 0 2 true) 0%nat 0%nat _ root' length_tangent
             eq_refl Heval Hnil).
  cbn [mbind option_bind insert list_insert].
  rewrite remove_coarse_duplicates_new_tree. reflexivity.
Qed.

(** [length] over a tree that holds a single mesh sums the solution of that
    mesh. *)
Lemma root_only_length (max_iterations : nat) (root' : Mesh1D) :
  Curve.mesh_tree self precision max_iterations tangent_step
  = Some ([root'], new_tree 0 2 true) ->
  Curve.length self precision max_iterations tangent_step
  = sum_range (num root') (solution root').
Proof.
  intros Htree. unfold Curve.length. rewrite Htree. cbn [mbind option_bind].
  destruct (flatten_new_tree [root'] 0%nat 2 true root' eq_refl) as [Hn Hs].
  unfold num. rewrite Hn, Hs. reflexivity.
Qed.

End OneMeshTree.

Section LineSegments.

Variable origin : R * R * R.
Variables a b c start stop step : R.
Variable nodes : list R.
Variable xyz_t : list (R * R * R).
Hypothesis Htangent : Curve.tangent (Line origin a b c start stop) nodes step = Some xyz_t.

(** Every tangent row of a line is its direction. *)
Lemma line_tangent_row (i : nat) :
  (i < length nodes)%nat -> xyz_t !!! i = (a, b, c).
Proof.
  intros Hi.
  destruct (tangent_rows (Line origin a b c start stop) step nodes)
    as (result & Hrun & _ & Hrows).
  { intros E. rewrite E in Hi. cbn in Hi. lia. }
  rewrite Htangent in Hrun. inversion Hrun. subst result.
  apply list_lookup_total_correct. rewrite (Hrows i Hi).
  repeat case_decide; reflexivity.
Qed.

(** Over a segment traversed forwards, the two estimators of a line are both
    the parameter increment times the length of the direction. *)
Lemma line_segment_estimators (i : nat) :
  (i + 1 < length nodes)%nat ->
  nodes !!! i <= nodes !!! (i + 1)%nat ->
  trapezoid_segment nodes xyz_t i
  = (nodes !!! (i + 1)%nat - nodes !!! i) * sqrt (a * a + b * b + c * c) /\
  chord_rows (Curve.generate_points (Line origin a b c start stop) nodes) i
  = (nodes !!! (i + 1)%nat - nodes !!! i) * sqrt (a * a + b * b + c * c).
Proof.
  intros Hi Hle. split.
  - unfold trapezoid_segment, norm3.
    rewrite !line_tangent_row by lia. cbn [fst snd]. field.
  - rewrite chord_rows_generate_points by exact Hi.
    unfold chord_segment. cbn [x_point y_point z_point Line].
    set (d := nodes !!! (i + 1)%nat - nodes !!! i).
    assert (Hd : 0 <= d) by (unfold d; lra).
    replace (origin.1.1 + a * nodes !!! (i + 1)%nat - (origin.1.1 + a * nodes !!! i))
      with (a * d) by (unfold d; ring).
    replace (origin.1.2 + b * nodes !!! (i + 1)%nat - (origin.1.2 + b * nodes !!! i))
      with (b * d) by (unfold d; ring).
    replace (origin.2 + c * nodes !!! (i + 1)%nat - (origin.2 + c * nodes !!! i))
      with (c * d) by (unfold d; ring).
    replace (a * d * (a * d) + b * d * (b * d) + c * d * (c * d))
      with (d * d * (a * a + b * b + c * c)) by ring.
    rewrite sqrt_mult by nra. rewrite sqrt_square by exact Hd. reflexivity.
Qed.

End LineSegments.

(** One evaluation pass of a line over a mesh traversed forwards: every
    residual is 0, the two running totals agree, and each accepted segment
    length is the parameter increment times the length of the direction. *)
Lemma line_pass (origin : R * R * R) (a b c start stop tangent_step : R) (mesh : Mesh1D) :
  (1 <= num mesh)%nat ->
  (forall i, (i + 1 < num mesh)%nat ->
     physical_nodes mesh !!! i <= physical_nodes mesh !!! (i + 1)%nat) ->
  exists e,
    Curve.length_tangent_mesh_loop (Line origin a b c start stop) mesh tangent_step
    = Some e /\
    Curve.__length_tangent_mesh (Line origin a b c start stop) mesh tangent_step
    = Some ({| physical_nodes := physical_nodes mesh;
               physical_step := physical_step mesh;
               solution := Curve.solution_array e;
               residual := Curve.error_array e |}, Curve.result_t_acc e) /\
    Curve.result_t_acc e = Curve.result_p_acc e /\
    (forall j, (j < num mesh)%nat -> Curve.error_array e !! j = Some 0) /\
    Curve.solution_array e !! 0%nat = Some 0 /\
    (forall i, (i + 1 < num mesh)%nat ->
       Curve.solution_array e !! (i + 1)%nat
       = Some ((physical_nodes mesh !!! (i + 1)%nat - physical_nodes mesh !!! i)
               * sqrt (a * a + b * b + c * c))).
Proof.
  intros Hnum Hsorted.
  set (line := Line origin a b c start stop).
  destruct (tangent_rows line tangent_step (physical_nodes mesh)) as (xyz_t & Ht & _ & _).
  { intros E. unfold num in Hnum. rewrite E in Hnum. cbn in Hnum. lia. }
  destruct (length_tangent_mesh_unfold line mesh tangent_step xyz_t Ht) as [Hloop Hrun].
  destruct (segment_loop_arrays (physical_nodes mesh)
              (Curve.generate_points line (physical_nodes mesh)) xyz_t (num mesh) Hnum)
    as (_ & _ & Hs0 & He0 & Hrows).
  assert (Hagree : forall i, (i + 1 < num mesh)%nat ->
            trapezoid_segment (physical_nodes mesh) xyz_t i
            = (physical_nodes mesh !!! (i + 1)%nat - physical_nodes mesh !!! i)
              * sqrt (a * a + b * b + c * c) /\
            chord_rows (Curve.generate_points line (physical_nodes mesh)) i
            = (physical_nodes mesh !!! (i + 1)%nat - physical_nodes mesh !!! i)
              * sqrt (a * a + b * b + c * c)).
  { intros i Hi. apply (line_segment_estimators origin a b c start stop tangent_step);
      [exact Ht | exact Hi | apply Hsorted; exact Hi]. }
  eexists. split; [exact Hloop|]. split; [exact Hrun|]. split; [|split; [|split]].
  - apply fold_segment_totals; [|reflexivity].
    intros i Hi. apply elem_of_seq in Hi.
    destruct (Hagree i ltac:(lia)) as [-> ->]. reflexivity.
  - intros j Hj. destruct j as [|i]; [exact He0|].
    replace (S i) with (i + 1)%nat by lia.
    destruct (Hrows i ltac:(lia)) as [_ ->]. destruct (Hagree i ltac:(lia)) as [-> ->].
    rewrite Rminus_diag, Rabs_R0. reflexivity.
  - exact Hs0.
  - intros i Hi. destruct (Hrows i Hi) as [-> _]. destruct (Hagree i Hi) as [-> _].
    reflexivity.
Qed.

(** One evaluation pass over a mesh whose nodes all sit at the same
    parameter value: every accepted length and every residual is 0. *)
Lemma still_pass (self : ParametricCurve) (tangent_step s : R) (mesh : Mesh1D) :
  (1 <= num mesh)%nat ->
  (forall i, (i < num mesh)%nat -> physical_nodes mesh !!! i = s) ->
  exists mesh' length_tangent,
    Curve.__length_tangent_mesh self mesh tangent_step = Some (mesh', length_tangent) /\
    num mesh' = num mesh /\
    forall j, (j < num mesh)%nat ->
      solution mesh' !! j = Some 0 /\ residual mesh' !! j = Some 0.
Proof.
  intros Hnum Hstill.
  destruct (tangent_rows self tangent_step (physical_nodes mesh)) as (xyz_t & Ht & _ & _).
  { intros E. unfold num in Hnum. rewrite E in Hnum. cbn in Hnum. lia. }
  destruct (length_tangent_mesh_unfold self mesh tangent_step xyz_t Ht) as [_ Hrun].
  destruct (segment_loop_arrays (physical_nodes mesh)
              (Curve.generate_points self (physical_nodes mesh)) xyz_t (num mesh) Hnum)
    as (_ & _ & Hs0 & He0 & Hrows).
  eexists. eexists. split; [exact Hrun|]. split; [reflexivity|].
  cbn [solution residual].
  intros j Hj. destruct j as [|i]; [split; assumption|].
  replace (S i) with (i + 1)%nat by lia.
  destruct (Hrows i ltac:(lia)) as [-> ->].
  assert (Htrap : trapezoid_segment (physical_nodes mesh) xyz_t i = 0).
  { unfold trapezoid_segment. rewrite !Hstill by lia. field. }
  assert (Hchord : chord_rows (Curve.generate_points self (physical_nodes mesh)) i = 0).
  { rewrite chord_rows_generate_points by (unfold num in *; lia).
    unfold chord_segment. rewrite !Hstill by lia.
    rewrite !Rminus_diag, !Rmult_0_l, !Rplus_0_l. apply sqrt_0. }
  rewrite Htrap, Hchord, Rminus_diag, Rabs_R0. split; reflexivity.
Qed.

Section LengthClaims.

Context `{L : MeshLibrary} {C : MeshContract L}.

(** C2: for a line with direction (a, b, c) over [0, 1], on every mesh whose
    samples are in order the tangent-trapezoid total and the chord total
    agree and every residual is 0; with a non-negative precision and at
    least one turn allowed, the loop of [mesh_tree] stops after its first
    turn with the root mesh alone in the tree, and [length] returns
    sqrt (a² + b² + c²). *)
Theorem line_length (origin : R * R * R) (a b c precision tangent_step : R)
    (max_iterations : nat) :
  0 <= precision ->
  (1 <= max_iterations)%nat ->
  (forall mesh,
     (1 <= num mesh)%nat ->
     (forall i, (i + 1 < num mesh)%nat ->
        physical_nodes mesh !!! i <= physical_nodes mesh !!! (i + 1)%nat) ->
     exists e,
       Curve.length_tangent_mesh_loop (Line origin a b c 0 1) mesh tangent_step = Some e /\
       Curve.result_t_acc e = Curve.result_p_acc e /\
       forall j, (j < num mesh)%nat -> Curve.error_array e !! j = Some 0) /\
  (exists root,
     Curve.mesh_tree_run (Line origin a b c 0 1) precision max_iterations tangent_step
     = Some ([root], new_tree 0 2 true, 1%nat) /\
     refinement_points root precision = []) /\
  Curve.length (Line origin a b c 0 1) precision max_iterations tangent_step
  = Some (sqrt (a * a + b * b + c * c)).
Proof.
  intros Hprec Hmax.
  split.
  { intros mesh Hnum Hsorted.
    destruct (line_pass origin a b c 0 1 tangent_step mesh Hnum Hsorted)
      as (e & Hloop & _ & Htot & Herr & _).
    exists e. auto. }
  set (line := Line origin a b c 0 1).
  set (root := Mesh1DUniform (start line) (stop line) ((stop line - start line) / 2)).
  assert (Hn : num root = 3%nat).
  { unfold root. rewrite uniform_mesh_num. cbn [start stop line Line].
    rewrite root_mesh_segments by lra. reflexivity. }
  assert (Hnode : forall i, (i < 3)%nat -> physical_nodes root !!! i = INR i / 2).
  { intros i Hi. unfold root. rewrite uniform_mesh_node by (fold root; lia).
    cbn [start stop line Line]. field. }
  destruct (line_pass origin a b c 0 1 tangent_step root) as
    (e & _ & Hrun & _ & Herr & Hs0 & Hsol).
  { lia. }
  { intros i Hi. rewrite !Hnode by lia. rewrite plus_INR. cbn [INR]. lra. }
  fold line in Hrun.
  set (root' := {| physical_nodes := physical_nodes root;
                   physical_step := physical_step root;
                   solution := Curve.solution_array e;
                   residual := Curve.error_array e |}) in *.
  assert (Hquiet : refinement_points root' precision = []).
  { apply refinement_points_none. intros i Hi.
    change (num root') with (num root) in Hi.
    rewrite (list_lookup_total_correct _ _ _ (Herr (i + 1)%nat Hi)). exact Hprec. }
  destruct max_iterations as [|n]; [lia|].
  pose proof (root_only_run line precision tangent_step n root' _ Hrun Hquiet) as Hloop.
  split.
  { exists root'. split; [exact Hloop | exact Hquiet]. }
  rewrite (root_only_length line precision tangent_step (S n) root')
    by (unfold Curve.mesh_tree; rewrite Hloop; reflexivity).
  change (num root') with (num root). rewrite Hn.
  change (solution root') with (Curve.solution_array e).
  rewrite (sum_range_three _ _ _ _ Hs0 (Hsol 0%nat ltac:(lia)) (Hsol 1%nat ltac:(lia))).
  f_equal. rewrite !Hnode by lia. cbn [INR Nat.add]. field.
Qed.

(** C5: when [start == stop] and the precision is non-negative, [mesh_tree]
    returns a tree that holds the root mesh alone (no sub-mesh was built or
    added), after at most one turn of its loop, and [length] returns 0. *)
Theorem degenerate_domain_length (self : ParametricCurve) (precision tangent_step : R)
    (max_iterations : nat) :
  start self = stop self ->
  0 <= precision ->
  (exists root,
     Curve.mesh_tree_run self precision max_iterations tangent_step
     = Some ([root], new_tree 0 2 true, Nat.min 1 max_iterations)) /\
  Curve.length self precision max_iterations tangent_step = Some 0.
Proof.
  intros Hdom Hprec.
  set (root := Mesh1DUniform (start self) (stop self) ((stop self - start self) / 2)).
  assert (Hnode : forall i, (i < num root)%nat -> physical_nodes root !!! i = start self).
  { intros i Hi. unfold root. rewrite uniform_mesh_node by exact Hi.
    rewrite Hdom. field. }
  assert (Hnum : (1 <= num root)%nat) by (unfold root; rewrite uniform_mesh_num; lia).
  destruct max_iterations as [|n].
  - assert (Hrun : Curve.mesh_tree_run self precision 0 tangent_step
                   = Some ([root], new_tree 0 2 true, 0%nat)) by reflexivity.
    split; [exists root; exact Hrun|].
    rewrite (root_only_length self precision tangent_step 0 root)
      by (unfold Curve.mesh_tree; rewrite Hrun; reflexivity).
    apply sum_range_zeros. intros j Hj.
    unfold root, Mesh1DUniform. cbn [solution].
    apply lookup_replicate_2. unfold root in Hj. rewrite uniform_mesh_num in Hj. exact Hj.
  - destruct (still_pass self tangent_step (start self) root Hnum Hnode)
      as (root' & lt & Heval & Hnum' & Hzero).
    assert (Hquiet : refinement_points root' precision = []).
    { apply refinement_points_none. intros i Hi. rewrite Hnum' in Hi.
      destruct (Hzero (i + 1)%nat Hi) as [_ Hr].
      rewrite (list_lookup_total_correct _ _ _ Hr). exact Hprec. }
    pose proof (root_only_run self precision tangent_step n root' lt Heval Hquiet) as Hrun.
    split; [exists root'; exact Hrun|].
    rewrite (root_only_length self precision tangent_step (S n) root')
      by (unfold Curve.mesh_tree; rewrite Hrun; reflexivity).
    apply sum_range_zeros. intros j Hj. rewrite Hnum' in Hj.
    apply (Hzero j Hj).
Qed.

End LengthClaims.

(** The default line, direction (1, 1, 1) from the origin over [0, 1], with
    the default arguments of [length], on the list-backed library. *)
Lemma line_length_witness :
  0 <= 1 / 1000000 /\ (1 <= 100)%nat /\
  @Curve.length list_tree_library (Line (0, 0, 0) 1 1 1 0 1)
    (1 / 1000000) 100 (1 / 10000000000)
  = Some (sqrt (1 * 1 + 1 * 1 + 1 * 1)).
Proof.
  assert (Hp : 0 <= 1 / 1000000) by lra.
  assert (Hm : (1 <= 100)%nat) by lia.
  split; [exact Hp|]. split; [exact Hm|].
  exact (proj2 (proj2 (@line_length list_tree_library list_tree_contract
                         (0, 0, 0) 1 1 1 (1 / 1000000) (1 / 10000000000) 100 Hp Hm))).
Defined.

(** [ParametricCurve()] with its default domain, [start = stop = 0]. *)
Lemma degenerate_domain_length_witness :
  start (base_curve 0 0) = stop (base_curve 0 0) /\ 0 <= 1 / 1000000 /\
  @Curve.length list_tree_library (base_curve 0 0) (1 / 1000000) 100 (1 / 10000000000)
  = Some 0.
Proof.
  assert (Hp : 0 <= 1 / 1000000) by lra.
  split; [reflexivity|]. split; [exact Hp|].
  exact (proj2 (@degenerate_domain_length list_tree_library list_tree_contract
                  (base_curve 0 0) (1 / 1000000) (1 / 10000000000) 100 eq_refl Hp)).
Defined.

(** * Further properties of the code *)

(** ** Angle reduction *)

Section ReductionModes.

(** X1: with [center] set and [positive] clear, the defaults of
    [__reduce_angle], the reduced angle lies in [-π, π]. *)
Theorem reduce_angle_centered_range (theta : R) :
  - M_PI <= __reduce_angle theta true false <= M_PI.
Proof.
  pose proof two_pi_pos. pose proof (wrap_bounded theta) as Hw. cbv zeta in Hw.
  unfold __reduce_angle.
  set (w := if Rlt_dec (2 * M_PI) (fabs theta) then _ else _) in *.
  repeat destruct (Rlt_dec _ _); lra.
Qed.

(** X2: with both [center] and [positive] set, the reduced angle lies in the
    closed interval [0, 2π]. *)
Theorem reduce_angle_centered_positive_range (theta : R) :
  0 <= __reduce_angle theta true true <= 2 * M_PI.
Proof.
  pose proof two_pi_pos. pose proof (wrap_bounded theta) as Hw. cbv zeta in Hw.
  unfold __reduce_angle.
  set (w := if Rlt_dec (2 * M_PI) (fabs theta) then _ else _) in *.
  repeat destruct (Rlt_dec _ _); lra.
Qed.

(** X3: whatever the flags, the reduced angle differs from the input by a
    whole number of turns, so it has the same cosine and the same sine. *)
Theorem reduce_angle_same_direction (theta : R) (center positive : bool) :
  (exists k : Z, __reduce_angle theta center positive = theta + 2 * IZR k * PI) /\
  cos (__reduce_angle theta center positive) = cos theta /\
  sin (__reduce_angle theta center positive) = sin theta.
Proof.
  split; [apply reduce_angle_turns|].
  split; [apply cos_reduce_angle | apply sin_reduce_angle].
Qed.



End ReductionModes.

(** ** Vector helpers *)

Section VectorFacts.

Lemma sum_squares_from (v : list R) (acc : R) :
  foldl (fun result vi => result + vi * vi) acc v
  = acc + foldl (fun result vi => result + vi * vi) 0 v.
Proof.
  revert acc. induction v as [|vi v IH]; intros acc; cbn [foldl]; [ring|].
  rewrite (IH (acc + vi * vi)), (IH (0 + vi * vi)). ring.
Qed.

Lemma sum_squares_zero (v : list R) :
  foldl (fun result vi => result + vi * vi) 0 v = 0 -> Forall (eq 0) v.
Proof.
  induction v as [|vi v IH]; intros Hsum; [constructor|].
  cbn [foldl] in Hsum. rewrite sum_squares_from in Hsum.
  pose proof (sum_squares_nonneg v 0 ltac:(lra)) as Hrest.
  assert (Hvi : vi * vi = 0) by nra.
  constructor.
  - symmetry. apply Rmult_integral in Hvi. destruct Hvi; assumption.
  - apply IH. nra.
Qed.

Lemma sum_squares_stretched (v : list R) (k acc : R) :
  foldl (fun result vi => result + vi * vi) (k * k * acc) ((fun vi => k * vi) <$> v)
  = k * k * foldl (fun result vi => result + vi * vi) acc v.
Proof.
  revert acc. induction v as [|vi v IH]; intros acc; cbn [fmap list_fmap foldl];
    [reflexivity|].
  rewrite <- IH. f_equal. ring.
Qed.

Lemma vector_norm_stretched (v : list R) (k : R) :
  vector_norm ((fun vi => k * vi) <$> v) = Rabs k * vector_norm v.
Proof.
  unfold vector_norm.
  replace 0 with (k * k * 0) at 1 by ring.
  rewrite sum_squares_stretched, sqrt_mult.
  - f_equal. fold (Rsqr k). apply sqrt_Rsqr_abs.
  - nra.
  - apply sum_squares_nonneg. lra.
Qed.

(** X5: [vector_norm] is never negative, vanishes exactly on the vectors all
    of whose components are 0, and scales with the magnitude of a common
    factor. *)
Theorem vector_norm_properties (v : list R) (k : R) :
  0 <= vector_norm v /\
  (vector_norm v = 0 <-> Forall (eq 0) v) /\
  vector_norm ((fun vi => k * vi) <$> v) = Rabs k * vector_norm v.
Proof.
  split; [apply sqrt_pos|]. split; [|apply vector_norm_stretched].
  unfold vector_norm. split.
  - intros Hz. apply sum_squares_zero.
    apply sqrt_eq_0; [apply sum_squares_nonneg; lra | exact Hz].
  - intros Hall.
    assert (Hsum : foldl (fun result vi => result + vi * vi) 0 v = 0).
    { induction Hall as [|vi v <- _ IH]; cbn [foldl]; [reflexivity|].
      replace (0 + 0 * 0) with 0 by ring. exact IH. }
    rewrite Hsum. apply sqrt_0.
Qed.

(** Padding with zeros does not change the sum of squares. *)
Lemma vector_norm_padded (v : list R) (n : nat) :
  vector_norm (v ++ replicate n 0) = vector_norm v.
Proof.
  unfold vector_norm. rewrite foldl_app. f_equal.
  induction n as [|n IH]; cbn [replicate foldl]; [reflexivity|].
  rewrite Rmult_0_l, Rplus_0_r. exact IH.
Qed.

Lemma extend_vector_dimensions_take (v : list R) (s : nat) :
  __extend_vector_dimensions v s = take s v ++ replicate (s - length v) 0.
Proof.
  apply list_eq. intros i. unfold __extend_vector_dimensions.
  rewrite list_lookup_fmap.
  destruct (decide (i < s)%nat) as [Hi | Hi].
  - rewrite lookup_seq_lt by exact Hi. cbn [fmap option_fmap option_map Nat.add].
    destruct (Nat.ltb_spec i (length v)) as [Hv | Hv].
    + rewrite lookup_app_l by (rewrite length_take; lia).
      rewrite lookup_take_lt by exact Hi.
      symmetry. apply list_lookup_lookup_total_lt. exact Hv.
    + rewrite lookup_app_r by (rewrite length_take; lia).
      rewrite length_take. symmetry. apply lookup_replicate_2. lia.
  - rewrite lookup_seq_ge by lia. cbn [fmap option_fmap option_map].
    symmetry. apply lookup_ge_None_2.
    rewrite length_app, length_take, length_replicate. lia.
Qed.

(** X6: [__extend_vector_dimensions] returns exactly [s] components: the
    first [s] components of [v], followed by zeros when [v] is shorter.  When
    nothing is cut off, the norm is unchanged. *)
Theorem extend_vector_dimensions_pads (v : list R) (s : nat) :
  length (__extend_vector_dimensions v s) = s /\
  __extend_vector_dimensions v s = take s v ++ replicate (s - length v) 0 /\
  ((length v <= s)%nat ->
   vector_norm (__extend_vector_dimensions v s) = vector_norm v).
Proof.
  split; [|split].
  - unfold __extend_vector_dimensions. rewrite length_fmap, length_seq. reflexivity.
  - apply extend_vector_dimensions_take.
  - intros Hs. rewrite extend_vector_dimensions_take, take_ge by exact Hs.
    apply vector_norm_padded.
Qed.

(** The vector (3, 4) padded to four components. *)
Lemma extend_vector_dimensions_pads_witness :
  (length [3; 4] <= 4)%nat /\
  vector_norm (__extend_vector_dimensions [3; 4] 4) = vector_norm [3; 4].
Proof.
  assert (H : (length [3; 4] <= 4)%nat) by (cbn; lia).
  split; [exact H|].
  exact (proj2 (proj2 (extend_vector_dimensions_pads [3; 4] 4)) H).
Defined.

(** The components of a vector of non-zero norm, divided by that norm, form
    a vector of norm 1. *)
Lemma normalized_norm (v : list R) :
  vector_norm v <> 0 ->
  vector_norm ((fun vi => vi / vector_norm v) <$> v) = 1.
Proof.
  intros Hnz. unfold vector_norm in *.
  set (total := foldl (fun result vi => result + vi * vi) 0 v) in *.
  assert (Htotal : 0 <= total) by (apply sum_squares_nonneg; lra).
  assert (Hsq : sqrt total * sqrt total = total) by (apply sqrt_sqrt; exact Htotal).
  replace 0 with (0 / (sqrt total * sqrt total)) at 1 by (field; exact Hnz).
  rewrite sum_squares_scaled by exact Hnz.
  fold total. rewrite Hsq.
  assert (Hpos : total <> 0) by (intros E; apply Hnz; rewrite E; apply sqrt_0).
  replace (total / total) with 1 by (field; exact Hpos).
  apply sqrt_1.
Qed.

Lemma unit_vector_nonzero (v : list R) :
  vector_norm v <> 0 -> unit_vector v = (fun vi => vi / vector_norm v) <$> v.
Proof.
  intros Hnz. unfold unit_vector.
  destruct (Req_dec_T (vector_norm v) 0); [contradiction | reflexivity].
Qed.

Lemma unit_vector_zero (v : list R) :
  vector_norm v = 0 -> unit_vector v = replicate (length v) 0.
Proof.
  intros Hz. unfold unit_vector.
  destruct (Req_dec_T (vector_norm v) 0); [|contradiction].
  clear. induction v as [|vi v IH]; cbn; [reflexivity|]. f_equal. exact IH.
Qed.

(** X7: [unit_vector] keeps the size of its argument, is idempotent, and
    does not see a positive common factor: it depends on the direction
    only. *)
Theorem unit_vector_direction (v : list R) (k : R) :
  length (unit_vector v) = length v /\
  unit_vector (unit_vector v) = unit_vector v /\
  (0 < k -> unit_vector ((fun vi => k * vi) <$> v) = unit_vector v).
Proof.
  split; [|split].
  - unfold unit_vector. destruct (Req_dec_T _ _); apply length_fmap.
  - destruct (Req_dec_T (vector_norm v) 0) as [Hz | Hnz].
    + rewrite (unit_vector_zero v Hz).
      rewrite unit_vector_zero by apply vector_norm_zeros.
      rewrite length_replicate. reflexivity.
    + rewrite (unit_vector_nonzero v Hnz).
      pose proof (normalized_norm v Hnz) as Hone.
      rewrite unit_vector_nonzero by (rewrite Hone; lra).
      rewrite Hone. rewrite <- list_fmap_compose.
      apply list_fmap_ext. intros _ x _. cbn. field. exact Hnz.
  - intros Hk.
    pose proof (vector_norm_stretched v k) as Hn. rewrite Rabs_right in Hn by lra.
    destruct (Req_dec_T (vector_norm v) 0) as [Hz | Hnz].
    + rewrite (unit_vector_zero v Hz).
      rewrite unit_vector_zero by (rewrite Hn, Hz; ring).
      rewrite length_fmap. reflexivity.
    + rewrite (unit_vector_nonzero v Hnz).
      rewrite unit_vector_nonzero by (rewrite Hn; nra).
      rewrite Hn, <- list_fmap_compose.
      apply list_fmap_ext. intros _ x _. cbn. field. split; lra.
Qed.

(** Doubling the vector (3, 4). *)
Lemma unit_vector_direction_witness :
  0 < 2 /\ unit_vector ((fun vi => 2 * vi) <$> [3; 4]) = unit_vector [3; 4].
Proof.
  assert (H : 0 < 2) by lra.
  split; [exact H|].
  exact (proj2 (proj2 (unit_vector_direction [3; 4] 2)) H).
Defined.

End VectorFacts.

(** ** Angle between two vectors *)

Section AngleBetween.

(** An index loop over a whole list is a fold over its elements. *)
Lemma index_fold (g : R -> R) (l : list R) :
  forall (f : nat -> R) (acc : R),
    (forall i, (i < length l)%nat -> f i = g (l !!! i)) ->
    foldl (fun acc i => acc + f i) acc (seq 0 (length l))
    = foldl (fun acc x => acc + g x) acc l.
Proof.
  induction l as [|x l IH]; intros f acc Hf; [reflexivity|].
  cbn [length seq foldl].
  rewrite <- fmap_S_seq, foldl_fmap.
  rewrite (Hf 0%nat) by (cbn; lia). cbn [lookup_total list_lookup_total].
  apply (IH (fun i => f (S i))).
  intros i Hi. rewrite Hf by (cbn; lia). reflexivity.
Qed.

Lemma weighted_squares (c : R) (l : list R) (acc : R) :
  foldl (fun acc x => acc + c * (x * x)) acc l
  = acc + c * foldl (fun result vi => result + vi * vi) 0 l.
Proof.
  revert acc. induction l as [|x l IH]; intros acc; cbn [foldl]; [ring|].
  rewrite IH, (sum_squares_from l (0 + x * x)). ring.
Qed.

Lemma products_swapped (a b : list R) (ixs : list nat) (acc : R) :
  foldl (fun cos_angle i => cos_angle + a !!! i * b !!! i) acc ixs
  = foldl (fun cos_angle i => cos_angle + b !!! i * a !!! i) acc ixs.
Proof.
  revert acc. induction ixs as [|i ixs IH]; intros acc; cbn [foldl]; [reflexivity|].
  rewrite IH. f_equal. ring.
Qed.

Lemma products_with_zeros (a b : list R) (ixs : list nat) (acc : R) :
  (forall i, a !!! i = 0) ->
  foldl (fun cos_angle i => cos_angle + a !!! i * b !!! i) acc ixs = acc.
Proof.
  intros Ha. revert acc. induction ixs as [|i ixs IH]; intros acc; cbn [foldl];
    [reflexivity|].
  rewrite IH, Ha. ring.
Qed.

Lemma zeros_lookup (n i : nat) : replicate n 0 !!! i = 0.
Proof.
  destruct (decide (i < n)%nat) as [Hi | Hi].
  - apply lookup_total_replicate_2. exact Hi.
  - rewrite list_lookup_total_alt, lookup_ge_None_2; [reflexivity|].
    rewrite length_replicate. lia.
Qed.

Lemma extended_zeros_lookup (n s i : nat) :
  __extend_vector_dimensions (replicate n 0) s !!! i = 0.
Proof.
  rewrite extend_vector_dimensions_take, take_replicate, <- replicate_add.
  apply zeros_lookup.
Qed.

(** X8: the angle between two vectors does not depend on their order,
    whatever their sizes. *)
Theorem angles_between_vectors_symmetric (v1 v2 : list R) :
  angles_between_vectors v1 v2 = angles_between_vectors v2 v1.
Proof.
  unfold angles_between_vectors.
  destruct (Nat.ltb_spec (length v2) (length v1)) as [H21 | H21];
    destruct (Nat.ltb_spec (length v1) (length v2)) as [H12 | H12];
    try lia; cbn [fst snd]; f_equal.
  - apply products_swapped.
  - apply products_swapped.
  - replace (length v2) with (length v1) by lia. apply products_swapped.
Qed.

Lemma squares_of_normalized (v : list R) :
  vector_norm v <> 0 ->
  foldl (fun result vi => result + vi * vi) 0 v = vector_norm v * vector_norm v.
Proof.
  intros _. unfold vector_norm. symmetry. apply sqrt_sqrt.
  apply sum_squares_nonneg. lra.
Qed.

(** X9: a vector of non-zero norm makes the angle 0 with itself and the angle
    π with its opposite; a vector of norm 0 makes the angle π/2 with every
    vector, of any size. *)
Theorem angles_between_vectors_values (v w : list R) :
  (vector_norm v <> 0 -> angles_between_vectors v v = 0) /\
  (vector_norm v <> 0 ->
   angles_between_vectors v ((fun vi => - vi) <$> v) = PI) /\
  (vector_norm v = 0 -> angles_between_vectors v w = PI / 2).
Proof.
  split; [|split].
  - intros Hnz. unfold angles_between_vectors.
    rewrite Nat.ltb_irrefl. cbn [fst snd].
    rewrite (unit_vector_nonzero v Hnz).
    rewrite (index_fold (fun x => / (vector_norm v * vector_norm v) * (x * x)) v).
    + rewrite weighted_squares, (squares_of_normalized v Hnz).
      replace (0 + / (vector_norm v * vector_norm v) * (vector_norm v * vector_norm v))
        with 1 by (field; exact Hnz).
      apply acos_1.
    + intros i Hi.
      rewrite (list_lookup_total_fmap (fun vi => vi / vector_norm v) v i) by exact Hi.
      field. exact Hnz.
  - intros Hnz. unfold angles_between_vectors.
    rewrite length_fmap, Nat.ltb_irrefl. cbn [fst snd].
    assert (Hn : vector_norm ((fun vi => - vi) <$> v) = vector_norm v).
    { rewrite (list_fmap_ext (fun vi => - vi) (fun vi => -1 * vi) v)
        by (intros; ring).
      rewrite vector_norm_stretched, Rabs_left by lra. ring. }
    rewrite (unit_vector_nonzero v Hnz).
    rewrite unit_vector_nonzero by (rewrite Hn; exact Hnz).
    rewrite Hn.
    rewrite (index_fold (fun x => - / (vector_norm v * vector_norm v) * (x * x)) v).
    + rewrite weighted_squares, (squares_of_normalized v Hnz).
      replace (0 + - / (vector_norm v * vector_norm v) * (vector_norm v * vector_norm v))
        with (- (1)) by (field; exact Hnz).
      rewrite acos_opp, acos_1. ring.
    + intros i Hi.
      rewrite (list_lookup_total_fmap (fun vi => vi / vector_norm v) v i) by exact Hi.
      rewrite (list_lookup_total_fmap (fun vi => vi / vector_norm v)
                 ((fun vi => - vi) <$> v) i) by (rewrite length_fmap; exact Hi).
      rewrite (list_lookup_total_fmap (fun vi => - vi) v i) by exact Hi.
      field. exact Hnz.
  - intros Hz. unfold angles_between_vectors.
    rewrite (unit_vector_zero v Hz).
    destruct (Nat.ltb_spec (length w) (length v));
      [|destruct (Nat.ltb_spec (length v) (length w))]; cbn [fst snd].
    + rewrite products_with_zeros by apply zeros_lookup. apply acos_0.
    + rewrite products_with_zeros by apply extended_zeros_lookup. apply acos_0.
    + rewrite products_with_zeros by apply zeros_lookup. apply acos_0.
Qed.

(** The vector (3, 4) against itself, and the zero vector of size 2 against
    a vector of size 3. *)
Lemma angles_between_vectors_values_witness :
  vector_norm [3; 4] <> 0 /\ angles_between_vectors [3; 4] [3; 4] = 0 /\
  vector_norm [0; 0] = 0 /\ angles_between_vectors [0; 0] [1; 2; 3] = PI / 2.
Proof.
  assert (H : vector_norm [3; 4] <> 0).
  { unfold vector_norm. cbn [foldl].
    replace (0 + 3 * 3 + 4 * 4) with (5 * 5) by ring.
    rewrite sqrt_square by lra. lra. }
  assert (Hz : vector_norm [0; 0] = 0) by apply (vector_norm_zeros 2).
  split; [exact H|].
  split; [exact (proj1 (angles_between_vectors_values [3; 4] []) H)|].
  split; [exact Hz|].
  exact (proj2 (proj2 (angles_between_vectors_values [0; 0] [1; 2; 3])) Hz).
Defined.

End AngleBetween.

(** ** Coordinate transforms *)

Section CoordinateFacts.

Lemma atan_sign (u : R) :
  (0 <= u -> 0 <= atan u) /\ (u <= 0 -> atan u <= 0) /\
  (0 < u -> 0 < atan u) /\ (u < 0 -> atan u < 0).
Proof.
  repeat split; intros Hu.
  - destruct Hu as [Hu | <-]; [|rewrite atan_0; lra].
    left. rewrite <- atan_0. apply atan_increasing. exact Hu.
  - destruct Hu as [Hu | ->]; [|rewrite atan_0; lra].
    left. rewrite <- atan_0. apply atan_increasing. exact Hu.
  - rewrite <- atan_0. apply atan_increasing. exact Hu.
  - rewrite <- atan_0. apply atan_increasing. exact Hu.
Qed.

(** [atan2] returns an angle in (-π, π], non-negative exactly when its first
    argument is. *)
Lemma atan2_range (y x : R) :
  - PI < atan2 y x <= PI /\ (0 <= y -> 0 <= atan2 y x) /\ (y < 0 -> atan2 y x < 0).
Proof.
  pose proof PI_RGT_0 as Hpi.
  pose proof (atan_bound (y / x)) as Hb.
  destruct (atan_sign (y / x)) as (Hge & Hle & Hgt & Hlt).
  unfold atan2.
  destruct (Rlt_dec 0 x) as [Hx | Hx].
  - pose proof (Rinv_0_lt_compat x Hx) as Hinv. unfold Rdiv in *.
    split; [lra|]. split; intros Hy.
    + apply Hge. nra.
    + apply Hlt. nra.
  - destruct (Rlt_dec x 0) as [Hx' | Hx'].
    + pose proof (Rinv_lt_0_compat x Hx') as Hinv. unfold Rdiv in *.
      destruct (Rlt_dec y 0) as [Hy | Hy].
      * assert (0 < atan (y * / x)) by (apply Hgt; nra).
        split; [lra|]. split; intros; lra.
      * assert (atan (y * / x) <= 0) by (apply Hle; nra).
        split; [lra|]. split; intros; lra.
    + repeat destruct (Rlt_dec _ _); split; try lra; split; intros; lra.
Qed.

Lemma reduce_angle_small (phi : R) :
  - PI < phi <= PI ->
  __reduce_angle phi false true = (if Rlt_dec phi 0 then phi + 2 * M_PI else phi).
Proof.
  intros Hphi. pose proof PI_RGT_0. unfold __reduce_angle.
  rewrite wrap_small by (unfold M_PI; lra). reflexivity.
Qed.

(** X10: the spherical coordinates of a cartesian triple have a radius that
    is not negative, a polar angle in [0, π] and an azimuth in [0, 2π].  The
    cylindrical coordinates have a non-negative radius and an azimuth in
    [-π, π], which is not reduced. *)
Theorem cartesian_to_polar_ranges (x y z : R) :
  (exists r theta phi,
     __cartesian_to_spherical_point [x; y; z] = [r; theta; phi] /\
     0 <= r /\ 0 <= theta <= PI /\ 0 <= phi <= 2 * PI) /\
  (exists rho phi,
     __cartesian_to_cylindrical_point [x; y; z] = [rho; phi; z] /\
     0 <= rho /\ - PI <= phi <= PI).
Proof.
  pose proof PI_RGT_0 as Hpi.
  split.
  - eexists. eexists. eexists. split; [reflexivity|].
    cbn -[__reduce_angle atan2 sqrt Rmult Rplus].
    split; [apply sqrt_pos|].
    destruct (atan2_range (sqrt (x * x + y * y)) z) as (Ht & Htpos & _).
    split; [split; [apply Htpos, sqrt_pos | apply Ht]|].
    destruct (atan2_range y x) as (Hp & _ & _).
    rewrite reduce_angle_small by exact Hp. unfold M_PI.
    destruct (Rlt_dec (atan2 y x) 0); lra.
  - eexists. eexists. split; [reflexivity|].
    cbn -[atan2 sqrt Rmult Rplus].
    split; [apply sqrt_pos|].
    destruct (atan2_range y x) as (Hp & _ & _). lra.
Qed.

(** X11: cylindrical to spherical and back is the identity on every
    triple. *)
Theorem cylindrical_spherical_round_trip (rho phi z : R) :
  __spherical_to_cylindrical_point (__cylindrical_to_spherical_point [rho; phi; z])
  = [rho; phi; z].
Proof.
  unfold __spherical_to_cylindrical_point, __cylindrical_to_spherical_point.
  cbn -[atan2 sqrt cos sin Rmult Rplus].
  destruct (atan2_polar z rho) as [Hz Hrho].
  replace (z * z + rho * rho) with (rho * rho + z * z) in Hz, Hrho by ring.
  rewrite Hz, Hrho. reflexivity.
Qed.

(** X12: the two routes from spherical to cartesian coordinates, directly and
    through cylindrical coordinates, give the same point.  From cartesian to
    spherical coordinates the two routes agree on the radius and on the polar
    angle, and the direct azimuth is the reduction of the one obtained
    through cylindrical coordinates. *)
Theorem coordinate_routes (r theta phi x y z : R) :
  (__cylindrical_to_cartesian_point (__spherical_to_cylindrical_point [r; theta; phi])).2
  = (__spherical_to_cartesian_point [r; theta; phi]).2 /\
  (let via := __cylindrical_to_spherical_point
                (__cartesian_to_cylindrical_point [x; y; z]) in
   __cartesian_to_spherical_point [x; y; z]
   = [via !!! 0%nat; via !!! 1%nat; __reduce_angle (via !!! 2%nat) false true]).
Proof.
  split; [reflexivity|].
  unfold __cartesian_to_spherical_point, __cylindrical_to_spherical_point,
    __cartesian_to_cylindrical_point.
  cbn -[__reduce_angle atan2 sqrt Rmult Rplus].
  rewrite sqrt_sqrt by nra. reflexivity.
Qed.

(** [atan2] recovers the polar angle of a point given in polar form. *)
Lemma atan2_of_polar (rho alpha : R) :
  0 < rho -> - PI < alpha <= PI -> atan2 (rho * sin alpha) (rho * cos alpha) = alpha.
Proof.
  intros Hrho Halpha. pose proof PI_RGT_0 as Hpi.
  assert (Hslope : forall beta, cos beta <> 0 ->
            rho * sin beta / (rho * cos beta) = tan beta).
  { intros beta Hc. unfold tan. field. split; [exact Hc | lra]. }
  unfold atan2.
  destruct (Rtotal_order alpha (- (PI / 2))) as [Hlow | [Heq | Hmid]].
  - (* the third quadrant *)
    assert (Hc : cos alpha < 0).
    { rewrite <- cos_neg. apply cos_lt_0; lra. }
    assert (Hs : sin alpha < 0) by (apply sin_lt_0_var; lra).
    destruct (Rlt_dec 0 (rho * cos alpha)); [nra|].
    destruct (Rlt_dec (rho * cos alpha) 0); [|nra].
    destruct (Rlt_dec (rho * sin alpha) 0); [|nra].
    rewrite Hslope by lra.
    replace (tan alpha) with (tan (alpha + PI)).
    + rewrite atan_tan by lra. ring.
    + unfold tan. rewrite neg_sin, neg_cos. field. lra.
  - subst alpha. rewrite cos_neg, sin_neg, cos_PI2, sin_PI2.
    replace (rho * 0) with 0 by ring.
    repeat destruct (Rlt_dec _ _); try reflexivity; lra.
  - destruct (Rtotal_order alpha (PI / 2)) as [Hin | [Heq | Hhigh]].
    + assert (Hc : 0 < cos alpha) by (apply cos_gt_0; lra).
      destruct (Rlt_dec 0 (rho * cos alpha)); [|nra].
      rewrite Hslope by lra. apply atan_tan. lra.
    + subst alpha. rewrite cos_PI2, sin_PI2.
      replace (rho * 0) with 0 by ring.
      repeat destruct (Rlt_dec _ _); try reflexivity; lra.
    + (* the second quadrant *)
      assert (Hc : cos alpha < 0) by (apply cos_lt_0; lra).
      assert (Hs : 0 <= sin alpha) by (apply sin_ge_0; lra).
      destruct (Rlt_dec 0 (rho * cos alpha)); [nra|].
      destruct (Rlt_dec (rho * cos alpha) 0); [|nra].
      destruct (Rlt_dec (rho * sin alpha) 0); [nra|].
      rewrite Hslope by lra.
      assert (Hca : cos alpha = - cos (alpha - PI))
        by (rewrite <- neg_cos; f_equal; ring).
      assert (Hsa : sin alpha = - sin (alpha - PI))
        by (rewrite <- neg_sin; f_equal; ring).
      replace (tan alpha) with (tan (alpha - PI)).
      * rewrite atan_tan by lra. ring.
      * unfold tan. rewrite Hsa, Hca. field. lra.
Qed.

Lemma hypot_of_polar (rho alpha : R) :
  0 <= rho ->
  sqrt (rho * cos alpha * (rho * cos alpha) + rho * sin alpha * (rho * sin alpha)) = rho.
Proof.
  intros Hrho.
  replace (rho * cos alpha * (rho * cos alpha) + rho * sin alpha * (rho * sin alpha))
    with (rho * rho * ((sin alpha)² + (cos alpha)²)) by (unfold Rsqr; ring).
  rewrite sin2_cos2, Rmult_1_r. apply sqrt_square. exact Hrho.
Qed.

(** The azimuth of a point in polar form, reduced to [0, 2π). *)
Lemma azimuth_of_polar (rho phi : R) :
  0 < rho -> 0 <= phi < 2 * PI ->
  __reduce_angle (atan2 (rho * sin phi) (rho * cos phi)) false true = phi.
Proof.
  intros Hrho Hphi. pose proof PI_RGT_0 as Hpi.
  destruct (Rle_lt_dec phi PI) as [Hlow | Hhigh].
  - rewrite atan2_of_polar by lra.
    rewrite reduce_angle_small by lra.
    destruct (Rlt_dec phi 0); [lra | reflexivity].
  - destruct (turns_invisible (phi - 2 * PI) 1) as [Hcos Hsin].
    replace (phi - 2 * PI + 2 * 1 * PI) with phi in Hcos, Hsin by ring.
    rewrite Hcos, Hsin, atan2_of_polar by lra.
    rewrite reduce_angle_small by lra. unfold M_PI.
    destruct (Rlt_dec (phi - 2 * PI) 0); [ring | lra].
Qed.

(** X13: spherical to cartesian and back returns the spherical triple it
    started from when that triple is canonical and off the polar axis:
    positive radius, polar angle strictly between 0 and π, azimuth in
    [0, 2π).  Cylindrical to cartesian and back returns the cylindrical
    triple when the radius is positive and the azimuth lies in (-π, π]. *)
Theorem polar_round_trip (r theta phi rho psi z : R) :
  0 < r -> 0 < theta < PI -> 0 <= phi < 2 * PI ->
  0 < rho -> - PI < psi <= PI ->
  __cartesian_to_spherical_point (__spherical_to_cartesian_point [r; theta; phi]).2
  = [r; theta; phi] /\
  __cartesian_to_cylindrical_point (__cylindrical_to_cartesian_point [rho; psi; z]).2
  = [rho; psi; z].
Proof.
  intros Hr Htheta Hphi Hrho Hpsi. pose proof PI_RGT_0 as Hpi.
  split.
  - unfold __cartesian_to_spherical_point, __spherical_to_cartesian_point, spherical_xyz.
    cbn -[__reduce_angle atan2 sqrt cos sin Rmult Rplus].
    rewrite !cos_reduce_angle, !sin_reduce_angle.
    assert (Hs : 0 < sin theta) by (apply sin_gt_0; lra).
    set (xy := r * sin theta) in *.
    assert (Hxy : 0 < xy) by (unfold xy; nra).
    assert (Hplane : xy * cos phi * (xy * cos phi) + xy * sin phi * (xy * sin phi)
                     = xy * xy).
    { pose proof (sin2_cos2 phi) as Hone. unfold Rsqr in Hone. nra. }
    assert (Hspace : xy * xy + r * cos theta * (r * cos theta) = r * r).
    { pose proof (sin2_cos2 theta) as Hone. unfold Rsqr in Hone. unfold xy. nra. }
    rewrite !Hplane, Hspace, !sqrt_square by lra.
    unfold xy at 1. rewrite atan2_of_polar by lra.
    rewrite azimuth_of_polar by assumption. reflexivity.
  - unfold __cartesian_to_cylindrical_point, __cylindrical_to_cartesian_point,
      cylindrical_xyz.
    cbn -[__reduce_angle atan2 sqrt cos sin Rmult Rplus].
    rewrite !cos_reduce_angle, !sin_reduce_angle.
    rewrite (hypot_of_polar rho psi) by lra.
    rewrite atan2_of_polar by assumption. reflexivity.
Qed.

(** The point of radius 1 with both angles π/2, and the cylindrical point of
    radius 1 and azimuth π/2. *)
Lemma polar_round_trip_witness :
  0 < 1 /\ 0 < PI / 2 < PI /\ 0 <= PI / 2 < 2 * PI /\ - PI < PI / 2 <= PI /\
  __cartesian_to_spherical_point (__spherical_to_cartesian_point [1; PI / 2; PI / 2]).2
  = [1; PI / 2; PI / 2].
Proof.
  pose proof PI_RGT_0 as Hpi.
  assert (H1 : 0 < 1) by lra.
  assert (H2 : 0 < PI / 2 < PI) by lra.
  assert (H3 : 0 <= PI / 2 < 2 * PI) by lra.
  assert (H4 : - PI < PI / 2 <= PI) by lra.
  split; [exact H1|]. split; [exact H2|]. split; [exact H3|]. split; [exact H4|].
  exact (proj1 (polar_round_trip 1 (PI / 2) (PI / 2) 1 (PI / 2) 0 H1 H2 H3 H1 H4)).
Defined.

End CoordinateFacts.

(** ** Batched coordinate transforms *)

Section Batches.

Lemma lookup_total_agree (a b : list R) (j : nat) :
  a !! j = b !! j -> a !!! j = b !!! j.
Proof. intros H. rewrite !list_lookup_total_alt, H. reflexivity. Qed.

Section Rows.

(** A loop body that, at offset [i], turns the triple of the first array
    into [P] of it, writes [Q] of it into the second array, and touches
    nothing else. *)
Variable body : nat -> list R * list R -> option (list R * list R).
Variables P Q : list R -> list R.
Hypothesis Hbody :
  forall i buf out,
    (i + 2 < length buf)%nat -> length out = length buf ->
    exists buf' out',
      body i (buf, out) = Some (buf', out') /\
      length buf' = length buf /\ length out' = length out /\
      (forall j, (j < i \/ i + 3 <= j)%nat ->
         buf' !! j = buf !! j /\ out' !! j = out !! j) /\
      [buf' !!! i; buf' !!! (i + 1)%nat; buf' !!! (i + 2)%nat]
      = P [buf !!! i; buf !!! (i + 1)%nat; buf !!! (i + 2)%nat] /\
      [out' !!! i; out' !!! (i + 1)%nat; out' !!! (i + 2)%nat]
      = Q [buf !!! i; buf !!! (i + 1)%nat; buf !!! (i + 2)%nat].

Lemma stride3_rows :
  forall n i buf out,
    (i + 3 * n <= length buf)%nat -> length out = length buf ->
    exists buf' out',
      stride3 body n i (buf, out) = Some (buf', out') /\
      length buf' = length buf /\ length out' = length out /\
      (forall j, (j < i \/ i + 3 * n <= j)%nat ->
         buf' !! j = buf !! j /\ out' !! j = out !! j) /\
      forall k, (k < n)%nat ->
        [buf' !!! (i + 3 * k)%nat; buf' !!! (i + 3 * k + 1)%nat;
         buf' !!! (i + 3 * k + 2)%nat]
        = P [buf !!! (i + 3 * k)%nat; buf !!! (i + 3 * k + 1)%nat;
             buf !!! (i + 3 * k + 2)%nat] /\
        [out' !!! (i + 3 * k)%nat; out' !!! (i + 3 * k + 1)%nat;
         out' !!! (i + 3 * k + 2)%nat]
        = Q [buf !!! (i + 3 * k)%nat; buf !!! (i + 3 * k + 1)%nat;
             buf !!! (i + 3 * k + 2)%nat].
Proof.
  induction n as [|n IH]; intros i buf out Hi Hlen.
  - exists buf, out. cbn [stride3]. repeat split; intros; lia.
  - destruct (Hbody i buf out) as (buf1 & out1 & Hrun & Hlb1 & Hlo1 & Hout1 & HP & HQ);
      [lia | exact Hlen |].
    destruct (IH (i + 3)%nat buf1 out1) as (buf' & out' & Hrest & Hlb & Hlo & Hout & Hin);
      [lia | congruence |].
    exists buf', out'. cbn [stride3]. rewrite Hrun. cbn [mbind option_bind].
    split; [exact Hrest|]. split; [congruence|]. split; [congruence|]. split.
    + intros j Hj.
      destruct (Hout j ltac:(lia)) as [-> ->]. apply Hout1. lia.
    + intros k Hk. destruct k as [|k].
      * replace (i + 3 * 0)%nat with i by lia.
        assert (Hb : forall d, (d < 3)%nat -> buf' !!! (i + d)%nat = buf1 !!! (i + d)%nat)
          by (intros d Hd; apply lookup_total_agree, Hout; lia).
        assert (Ho : forall d, (d < 3)%nat -> out' !!! (i + d)%nat = out1 !!! (i + d)%nat)
          by (intros d Hd; apply lookup_total_agree, Hout; lia).
        pose proof (Hb 0%nat ltac:(lia)) as Hb0. pose proof (Ho 0%nat ltac:(lia)) as Ho0.
        rewrite Nat.add_0_r in Hb0, Ho0.
        rewrite Hb0, Ho0, !Hb, !Ho by lia. split; assumption.
      * replace (i + 3 * S k)%nat with (i + 3 + 3 * k)%nat by lia.
        destruct (Hin k ltac:(lia)) as [-> ->].
        assert (Hb : forall d, (d < 3)%nat ->
                  buf1 !!! (i + 3 + 3 * k + d)%nat = buf !!! (i + 3 + 3 * k + d)%nat)
          by (intros d Hd; apply lookup_total_agree, Hout1; lia).
        pose proof (Hb 0%nat ltac:(lia)) as Hb0. rewrite Nat.add_0_r in Hb0.
        rewrite Hb0, !Hb by lia. split; reflexivity.
Qed.

End Rows.


Ltac run_block :=
  repeat first
    [ rewrite load_ok by (rewrite ?length_insert; lia)
    | rewrite store_ok by (rewrite ?length_insert; lia)
    | progress cbn [mbind option_bind] ].

Ltac read_rows :=
  repeat first
    [ rewrite list_lookup_total_insert_eq by (rewrite ?length_insert; lia)
    | rewrite list_lookup_total_insert_ne by lia ].

Ltac settle_block :=
  eexists; eexists; split; [reflexivity|];
  split; [rewrite ?length_insert; reflexivity|];
  split; [rewrite ?length_insert; reflexivity|];
  split;
  [ intros j Hj; split; rewrite ?list_lookup_insert_ne by lia; reflexivity
  | split; read_rows; reflexivity ].

Lemma cartesian_spherical_block_rows (i : nat) (buf out : list R) :
  (i + 2 < length buf)%nat -> length out = length buf ->
  exists buf' out',
    cartesian_spherical_block i (buf, out) = Some (buf', out') /\
    length buf' = length buf /\ length out' = length out /\
    (forall j, (j < i \/ i + 3 <= j)%nat ->
       buf' !! j = buf !! j /\ out' !! j = out !! j) /\
    [buf' !!! i; buf' !!! (i + 1)%nat; buf' !!! (i + 2)%nat]
    = (fun r => r) [buf !!! i; buf !!! (i + 1)%nat; buf !!! (i + 2)%nat] /\
    [out' !!! i; out' !!! (i + 1)%nat; out' !!! (i + 2)%nat]
    = __cartesian_to_spherical_point
        [buf !!! i; buf !!! (i + 1)%nat; buf !!! (i + 2)%nat].
Proof.
  intros Hi Hlen. unfold cartesian_spherical_block. run_block. settle_block.
Qed.

Lemma cartesian_cylindrical_block_rows (i : nat) (buf out : list R) :
  (i + 2 < length buf)%nat -> length out = length buf ->
  exists buf' out',
    cartesian_cylindrical_block i (buf, out) = Some (buf', out') /\
    length buf' = length buf /\ length out' = length out /\
    (forall j, (j < i \/ i + 3 <= j)%nat ->
       buf' !! j = buf !! j /\ out' !! j = out !! j) /\
    [buf' !!! i; buf' !!! (i + 1)%nat; buf' !!! (i + 2)%nat]
    = (fun r => r) [buf !!! i; buf !!! (i + 1)%nat; buf !!! (i + 2)%nat] /\
    [out' !!! i; out' !!! (i + 1)%nat; out' !!! (i + 2)%nat]
    = __cartesian_to_cylindrical_point
        [buf !!! i; buf !!! (i + 1)%nat; buf !!! (i + 2)%nat].
Proof.
  intros Hi Hlen. unfold cartesian_cylindrical_block. run_block. settle_block.
Qed.

Lemma spherical_cylindrical_block_rows (i : nat) (buf out : list R) :
  (i + 2 < length buf)%nat -> length out = length buf ->
  exists buf' out',
    spherical_cylindrical_block i (buf, out) = Some (buf', out') /\
    length buf' = length buf /\ length out' = length out /\
    (forall j, (j < i \/ i + 3 <= j)%nat ->
       buf' !! j = buf !! j /\ out' !! j = out !! j) /\
    [buf' !!! i; buf' !!! (i + 1)%nat; buf' !!! (i + 2)%nat]
    = (fun r => r) [buf !!! i; buf !!! (i + 1)%nat; buf !!! (i + 2)%nat] /\
    [out' !!! i; out' !!! (i + 1)%nat; out' !!! (i + 2)%nat]
    = __spherical_to_cylindrical_point
        [buf !!! i; buf !!! (i + 1)%nat; buf !!! (i + 2)%nat].
Proof.
  intros Hi Hlen. unfold spherical_cylindrical_block. run_block. settle_block.
Qed.

Lemma cylindrical_spherical_block_rows (i : nat) (buf out : list R) :
  (i + 2 < length buf)%nat -> length out = length buf ->
  exists buf' out',
    cylindrical_spherical_block i (buf, out) = Some (buf', out') /\
    length buf' = length buf /\ length out' = length out /\
    (forall j, (j < i \/ i + 3 <= j)%nat ->
       buf' !! j = buf !! j /\ out' !! j = out !! j) /\
    [buf' !!! i; buf' !!! (i + 1)%nat; buf' !!! (i + 2)%nat]
    = (fun r => r) [buf !!! i; buf !!! (i + 1)%nat; buf !!! (i + 2)%nat] /\
    [out' !!! i; out' !!! (i + 1)%nat; out' !!! (i + 2)%nat]
    = __cylindrical_to_spherical_point
        [buf !!! i; buf !!! (i + 1)%nat; buf !!! (i + 2)%nat].
Proof.
  intros Hi Hlen. unfold cylindrical_spherical_block. run_block. settle_block.
Qed.

Lemma spherical_block_rows (i : nat) (buf out : list R) :
  (i + 2 < length buf)%nat -> length out = length buf ->
  exists buf' out',
    spherical_block i (buf, out) = Some (buf', out') /\
    length buf' = length buf /\ length out' = length out /\
    (forall j, (j < i \/ i + 3 <= j)%nat ->
       buf' !! j = buf !! j /\ out' !! j = out !! j) /\
    [buf' !!! i; buf' !!! (i + 1)%nat; buf' !!! (i + 2)%nat]
    = (fun r => (__spherical_to_cartesian_point r).1)
        [buf !!! i; buf !!! (i + 1)%nat; buf !!! (i + 2)%nat] /\
    [out' !!! i; out' !!! (i + 1)%nat; out' !!! (i + 2)%nat]
    = (fun r => (__spherical_to_cartesian_point r).2)
        [buf !!! i; buf !!! (i + 1)%nat; buf !!! (i + 2)%nat].
Proof.
  intros Hi Hlen. unfold spherical_block. run_block. settle_block.
Qed.

Lemma cylindrical_block_rows (i : nat) (buf out : list R) :
  (i + 2 < length buf)%nat -> length out = length buf ->
  exists buf' out',
    cylindrical_block i (buf, out) = Some (buf', out') /\
    length buf' = length buf /\ length out' = length out /\
    (forall j, (j < i \/ i + 3 <= j)%nat ->
       buf' !! j = buf !! j /\ out' !! j = out !! j) /\
    [buf' !!! i; buf' !!! (i + 1)%nat; buf' !!! (i + 2)%nat]
    = (fun r => (__cylindrical_to_cartesian_point r).1)
        [buf !!! i; buf !!! (i + 1)%nat; buf !!! (i + 2)%nat] /\
    [out' !!! i; out' !!! (i + 1)%nat; out' !!! (i + 2)%nat]
    = (fun r => (__cylindrical_to_cartesian_point r).2)
        [buf !!! i; buf !!! (i + 1)%nat; buf !!! (i + 2)%nat].
Proof.
  intros Hi Hlen. unfold cylindrical_block. run_block. settle_block.
Qed.

End Batches.

Section BatchedTransforms.

Lemma rows_determine (n : nat) (a b : list R) :
  length a = (3 * n)%nat -> length b = (3 * n)%nat ->
  (forall k, (k < n)%nat -> row a k = row b k) -> a = b.
Proof.
  intros Ha Hb Hrows. apply list_eq. intros j.
  destruct (decide (j < 3 * n)%nat) as [Hj | Hj].
  - rewrite (list_lookup_lookup_total_lt a j), (list_lookup_lookup_total_lt b j) by lia.
    f_equal.
    pose proof (Nat.div_mod_eq j 3) as Hdm.
    pose proof (Nat.mod_upper_bound j 3 ltac:(lia)) as Hd.
    assert (Hk : (j / 3 < n)%nat) by (apply Nat.Div0.div_lt_upper_bound; lia).
    pose proof (Hrows (j / 3)%nat Hk) as Hrow. unfold row in Hrow.
    injection Hrow as H0 H1 H2.
    destruct (j mod 3)%nat as [|[|[|d]]] eqn:Hmod; [| | |lia].
    + replace j with (3 * (j / 3))%nat by lia. exact H0.
    + replace j with (3 * (j / 3) + 1)%nat by lia. exact H1.
    + replace j with (3 * (j / 3) + 2)%nat by lia. exact H2.
  - rewrite !lookup_ge_None_2 by lia. reflexivity.
Qed.

Section Batch.

Variable body : nat -> list R * list R -> option (list R * list R).
Variables P Q : list R -> list R.
Hypothesis Hbody :
  forall i buf out,
    (i + 2 < length buf)%nat -> length out = length buf ->
    exists buf' out',
      body i (buf, out) = Some (buf', out') /\
      length buf' = length buf /\ length out' = length out /\
      (forall j, (j < i \/ i + 3 <= j)%nat ->
         buf' !! j = buf !! j /\ out' !! j = out !! j) /\
      [buf' !!! i; buf' !!! (i + 1)%nat; buf' !!! (i + 2)%nat]
      = P [buf !!! i; buf !!! (i + 1)%nat; buf !!! (i + 2)%nat] /\
      [out' !!! i; out' !!! (i + 1)%nat; out' !!! (i + 2)%nat]
      = Q [buf !!! i; buf !!! (i + 1)%nat; buf !!! (i + 2)%nat].

Lemma batch_rows (a : list R) (n : nat) :
  length a = (3 * n)%nat ->
  exists buf out,
    stride3 body (range3_len (length a)) 0 (a, replicate (length a) 0)
    = Some (buf, out) /\
    length buf = length a /\ length out = length a /\
    forall k, (k < n)%nat -> row buf k = P (row a k) /\ row out k = Q (row a k).
Proof.
  intros Hlen.
  assert (Hturns : range3_len (length a) = n)
    by (rewrite Hlen; apply range3_len_triples).
  destruct (stride3_rows body P Q Hbody n 0%nat a (replicate (length a) 0))
    as (buf & out & Hrun & Hlb & Hlo & _ & Hrows);
    [lia | apply length_replicate |].
  exists buf, out. split; [rewrite Hturns; exact Hrun|]. split; [exact Hlb|].
  split; [rewrite Hlo; apply length_replicate|].
  intros k Hk. exact (Hrows k Hk).
Qed.

End Batch.

(** X14: on an array of [n] triples, the batched conversions from cartesian
    coordinates succeed and convert row by row: row [k] of the result is the
    single-point conversion of row [k] of the input. *)
Theorem batched_from_cartesian (a : list R) (n : nat) :
  length a = (3 * n)%nat ->
  (exists out,
     __cartesian_to_spherical_points a = Some out /\ length out = length a /\
     forall k, (k < n)%nat -> row out k = __cartesian_to_spherical_point (row a k)) /\
  (exists out,
     __cartesian_to_cylindrical_points a = Some out /\ length out = length a /\
     forall k, (k < n)%nat -> row out k = __cartesian_to_cylindrical_point (row a k)).
Proof.
  intros Hlen. split.
  - destruct (batch_rows _ _ _ cartesian_spherical_block_rows a n Hlen)
      as (buf & out & Hrun & _ & Hlo & Hrows).
    exists out. unfold __cartesian_to_spherical_points. rewrite Hrun.
    split; [reflexivity|]. split; [exact Hlo|]. intros k Hk. apply Hrows, Hk.
  - destruct (batch_rows _ _ _ cartesian_cylindrical_block_rows a n Hlen)
      as (buf & out & Hrun & _ & Hlo & Hrows).
    exists out. unfold __cartesian_to_cylindrical_points. rewrite Hrun.
    split; [reflexivity|]. split; [exact Hlo|]. intros k Hk. apply Hrows, Hk.
Qed.

(** Two cartesian points in one array. *)
Lemma batched_from_cartesian_witness :
  length [1; 0; 0; 0; 1; 0] = (3 * 2)%nat /\
  exists out,
    __cartesian_to_spherical_points [1; 0; 0; 0; 1; 0] = Some out /\
    row out 1 = __cartesian_to_spherical_point [0; 1; 0].
Proof.
  split; [reflexivity|].
  destruct (proj1 (batched_from_cartesian [1; 0; 0; 0; 1; 0] 2 eq_refl))
    as (out & Hrun & _ & Hrows).
  exists out. split; [exact Hrun|]. exact (Hrows 1%nat ltac:(lia)).
Defined.

(** X15: on an array of [n] triples, the batched conversions to cartesian
    coordinates succeed and work row by row, on the result and on the
    caller's buffer alike: row [k] of either is what the single-point
    conversion makes of row [k] of the input. *)
Theorem batched_to_cartesian (a : list R) (n : nat) :
  length a = (3 * n)%nat ->
  (exists buf out,
     __spherical_to_cartesian_points a = Some (buf, out) /\ length out = length a /\
     forall k, (k < n)%nat ->
       row buf k = (__spherical_to_cartesian_point (row a k)).1 /\
       row out k = (__spherical_to_cartesian_point (row a k)).2) /\
  (exists buf out,
     __cylindrical_to_cartesian_points a = Some (buf, out) /\ length out = length a /\
     forall k, (k < n)%nat ->
       row buf k = (__cylindrical_to_cartesian_point (row a k)).1 /\
       row out k = (__cylindrical_to_cartesian_point (row a k)).2).
Proof.
  intros Hlen. split.
  - destruct (batch_rows _ _ _ spherical_block_rows a n Hlen)
      as (buf & out & Hrun & _ & Hlo & Hrows).
    exists buf, out. split; [exact Hrun|]. split; [exact Hlo|].
    intros k Hk. apply Hrows, Hk.
  - unfold __cylindrical_to_cartesian_points.
    destruct n as [|n].
    + destruct a; [|discriminate]. exists [], [].
      split; [reflexivity|]. split; [reflexivity|]. intros k Hk. lia.
    + destruct (Nat.ltb_spec (length a) 3) as [Hlt | _]; [lia|].
      destruct (batch_rows _ _ _ cylindrical_block_rows a (S n) Hlen)
        as (buf & out & Hrun & _ & Hlo & Hrows).
      exists buf, out. split; [exact Hrun|]. split; [exact Hlo|].
      intros k Hk. apply Hrows, Hk.
Qed.

(** Two spherical points in one array. *)
Lemma batched_to_cartesian_witness :
  length [1; 0; 0; 2; 0; -1] = (3 * 2)%nat /\
  exists buf out,
    __spherical_to_cartesian_points [1; 0; 0; 2; 0; -1] = Some (buf, out) /\
    row out 1 = (__spherical_to_cartesian_point [2; 0; -1]).2.
Proof.
  split; [reflexivity|].
  destruct (proj1 (batched_to_cartesian [1; 0; 0; 2; 0; -1] 2 eq_refl))
    as (buf & out & Hrun & _ & Hrows).
  exists buf, out. split; [exact Hrun|]. exact (proj2 (Hrows 1%nat ltac:(lia))).
Defined.

(** X16: on an array of [n] triples, the batched conversions between
    spherical and cylindrical coordinates succeed and convert row by row. *)
Theorem batched_between_polar (a : list R) (n : nat) :
  length a = (3 * n)%nat ->
  (exists out,
     __spherical_to_cylindrical_points a = Some out /\ length out = length a /\
     forall k, (k < n)%nat -> row out k = __spherical_to_cylindrical_point (row a k)) /\
  (exists out,
     __cylindrical_to_spherical_points a = Some out /\ length out = length a /\
     forall k, (k < n)%nat -> row out k = __cylindrical_to_spherical_point (row a k)).
Proof.
  intros Hlen. split.
  - destruct (batch_rows _ _ _ spherical_cylindrical_block_rows a n Hlen)
      as (buf & out & Hrun & _ & Hlo & Hrows).
    exists out. unfold __spherical_to_cylindrical_points. rewrite Hrun.
    split; [reflexivity|]. split; [exact Hlo|]. intros k Hk. apply Hrows, Hk.
  - destruct (batch_rows _ _ _ cylindrical_spherical_block_rows a n Hlen)
      as (buf & out & Hrun & _ & Hlo & Hrows).
    exists out. unfold __cylindrical_to_spherical_points. rewrite Hrun.
    split; [reflexivity|]. split; [exact Hlo|]. intros k Hk. apply Hrows, Hk.
Qed.

(** Two spherical points in one array. *)
Lemma batched_between_polar_witness :
  length [1; 0; 0; 2; 0; -1] = (3 * 2)%nat /\
  exists out,
    __spherical_to_cylindrical_points [1; 0; 0; 2; 0; -1] = Some out /\
    row out 1 = __spherical_to_cylindrical_point [2; 0; -1].
Proof.
  split; [reflexivity|].
  destruct (proj1 (batched_between_polar [1; 0; 0; 2; 0; -1] 2 eq_refl))
    as (out & Hrun & _ & Hrows).
  exists out. split; [exact Hrun|]. exact (Hrows 1%nat ltac:(lia)).
Defined.

(** A row of cartesian coordinates survives the way to spherical or to
    cylindrical coordinates and back. *)
Lemma row_round_trip (a : list R) (k : nat) :
  (__spherical_to_cartesian_point (__cartesian_to_spherical_point (row a k))).2
  = row a k /\
  (__cylindrical_to_cartesian_point (__cartesian_to_cylindrical_point (row a k))).2
  = row a k.
Proof.
  unfold row.
  generalize (a !!! (3 * k)%nat), (a !!! (3 * k + 1)%nat), (a !!! (3 * k + 2)%nat).
  intros x y z.
  destruct (atan2_polar x y) as [Hx Hy].
  split.
  - unfold __spherical_to_cartesian_point, __cartesian_to_spherical_point,
      spherical_xyz.
    cbn -[__reduce_angle atan2 sqrt cos sin Rmult Rplus].
    rewrite !cos_reduce_angle, !sin_reduce_angle.
    destruct (atan2_polar z (sqrt (x * x + y * y))) as [Hz Hxy].
    rewrite sqrt_sqrt in Hz, Hxy by nra.
    replace (z * z + (x * x + y * y)) with (x * x + y * y + z * z) in Hz, Hxy by ring.
    rewrite Hz, Hxy, Hx, Hy. reflexivity.
  - unfold __cylindrical_to_cartesian_point, __cartesian_to_cylindrical_point,
      cylindrical_xyz.
    cbn -[__reduce_angle atan2 sqrt cos sin Rmult Rplus].
    rewrite cos_reduce_angle, sin_reduce_angle, Hx, Hy. reflexivity.
Qed.

(** X17: an array of [n] cartesian triples, converted by the batched
    functions to spherical (or to cylindrical) coordinates and back, comes
    back unchanged. *)
Theorem batched_round_trip (a : list R) (n : nat) :
  length a = (3 * n)%nat ->
  (exists polar buf,
     __cartesian_to_spherical_points a = Some polar /\
     __spherical_to_cartesian_points polar = Some (buf, a)) /\
  (exists polar buf,
     __cartesian_to_cylindrical_points a = Some polar /\
     __cylindrical_to_cartesian_points polar = Some (buf, a)).
Proof.
  intros Hlen. split.
  - destruct (batch_rows _ _ _ cartesian_spherical_block_rows a n Hlen)
      as (xyz & polar & Hrun & _ & Hlp & Hrows).
    assert (Hfwd : __cartesian_to_spherical_points a = Some polar)
      by (unfold __cartesian_to_spherical_points; rewrite Hrun; reflexivity).
    assert (Hlp' : length polar = (3 * n)%nat) by congruence.
    destruct (batch_rows _ _ _ spherical_block_rows polar n Hlp')
      as (buf & out & Hback & _ & Hlo & Hrows').
    exists polar, buf. split; [exact Hfwd|].
    unfold __spherical_to_cartesian_points. rewrite Hback. do 2 f_equal.
    apply (rows_determine n); [congruence | exact Hlen |].
    intros k Hk. destruct (Hrows' k Hk) as [_ ->].
    destruct (Hrows k Hk) as [_ ->]. apply row_round_trip.
  - destruct (batch_rows _ _ _ cartesian_cylindrical_block_rows a n Hlen)
      as (xyz & polar & Hrun & _ & Hlp & Hrows).
    assert (Hfwd : __cartesian_to_cylindrical_points a = Some polar)
      by (unfold __cartesian_to_cylindrical_points; rewrite Hrun; reflexivity).
    assert (Hlp' : length polar = (3 * n)%nat) by congruence.
    exists polar.
    unfold __cylindrical_to_cartesian_points.
    destruct n as [|n].
    + destruct a; [|discriminate]. destruct polar; [|discriminate].
      exists []. split; [exact Hfwd | reflexivity].
    + destruct (Nat.ltb_spec (length polar) 3) as [Hlt | _]; [lia|].
      destruct (batch_rows _ _ _ cylindrical_block_rows polar (S n) Hlp')
        as (buf & out & Hback & _ & Hlo & Hrows').
      exists buf. split; [exact Hfwd|]. rewrite Hback. do 2 f_equal.
      apply (rows_determine (S n)); [congruence | exact Hlen |].
      intros k Hk. destruct (Hrows' k Hk) as [_ ->].
      destruct (Hrows k Hk) as [_ ->]. apply row_round_trip.
Qed.

(** Two cartesian points in one array. *)
Lemma batched_round_trip_witness :
  length [1; 0; 0; 0; 1; 0] = (3 * 2)%nat /\
  exists polar buf,
    __cartesian_to_spherical_points [1; 0; 0; 0; 1; 0] = Some polar /\
    __spherical_to_cartesian_points polar = Some (buf, [1; 0; 0; 0; 1; 0]).
Proof.
  split; [reflexivity|].
  exact (proj1 (batched_round_trip [1; 0; 0; 0; 1; 0] 2 eq_refl)).
Defined.

End BatchedTransforms.

(** ** Curves *)

Section CurveFacts.

(** X18: in exact real arithmetic, the finite differences of the base class
    are exact on polynomials of low degree.  For a coordinate function
    α + β t + γ t² and a non-zero step, the two-sided difference is the
    derivative β + 2 γ t, and the one-sided differences miss it by γ · step;
    so all three are exact on affine functions.  (On doubles the quotients
    are rounded, and at the default step 1e-10 the subtraction cancels most
    of the digits.) *)
Theorem finite_difference_quadratic (alpha beta gamma t step : R) :
  step <> 0 ->
  let point := fun u => alpha + beta * u + gamma * (u * u) in
  finite_difference point t step true true = beta + 2 * gamma * t /\
  finite_difference point t step false true = beta + 2 * gamma * t + gamma * step /\
  finite_difference point t step true false = beta + 2 * gamma * t - gamma * step.
Proof.
  intros Hstep point. unfold finite_difference, point. cbn [andb].
  repeat split; field; exact Hstep.
Qed.

(** The step 1 on t², at 3. *)
Lemma finite_difference_quadratic_witness :
  1 <> 0 /\
  finite_difference (fun u => 0 + 0 * u + 1 * (u * u)) 3 1 true true
  = 0 + 2 * 1 * 3.
Proof.
  assert (H : 1 <> 0) by lra.
  split; [exact H|].
  exact (proj1 (finite_difference_quadratic 0 0 1 3 1 H)).
Defined.

Lemma derivative_of_scaled (k : R) (f : R -> R) (t l : R) :
  derivable_pt_lim f t l -> derivable_pt_lim (fun u => k * f u) t (k * l).
Proof. intros Hf. exact (derivable_pt_lim_scal f k t l Hf). Qed.

Lemma derivative_of_shifted (k : R) (f : R -> R) (t l : R) :
  derivable_pt_lim f t l -> derivable_pt_lim (fun u => k + f u) t l.
Proof.
  intros Hf.
  pose proof (derivable_pt_lim_plus (fct_cte k) f t 0 l
                (derivable_pt_lim_const k t) Hf) as H.
  rewrite Rplus_0_l in H. exact H.
Qed.

Lemma derivative_of_linear (k t : R) : derivable_pt_lim (fun u => k * u) t k.
Proof.
  pose proof (derivable_pt_lim_scal id k t 1 (derivable_pt_lim_id t)) as H.
  rewrite Rmult_1_r in H. exact H.
Qed.

(** X19: the tangent methods that [Line], [Arc] and [Helix] override are the
    derivatives of their coordinate methods, at every parameter value and
    whatever step and sides are passed. *)
Theorem analytic_tangents (origin : R * R * R) (a b c radius pitch start stop : R)
    (right : bool) (t step : R) (l r : bool) :
  let line := Line origin a b c start stop in
  let arc := Arc a b start stop right in
  let helix := Helix radius pitch start stop right in
  (derivable_pt_lim (x_point line) t (tangent_x_point line t step l r) /\
   derivable_pt_lim (y_point line) t (tangent_y_point line t step l r) /\
   derivable_pt_lim (z_point line) t (tangent_z_point line t step l r)) /\
  (derivable_pt_lim (x_point arc) t (tangent_x_point arc t step l r) /\
   derivable_pt_lim (y_point arc) t (tangent_y_point arc t step l r) /\
   derivable_pt_lim (z_point arc) t (tangent_z_point arc t step l r)) /\
  (derivable_pt_lim (x_point helix) t (tangent_x_point helix t step l r) /\
   derivable_pt_lim (y_point helix) t (tangent_y_point helix t step l r) /\
   derivable_pt_lim (z_point helix) t (tangent_z_point helix t step l r)).
Proof.
  cbv zeta. cbn [x_point y_point z_point tangent_x_point tangent_y_point
                 tangent_z_point Line Arc Helix].
  split; [|split].
  - repeat split; apply derivative_of_shifted, derivative_of_linear.
  - split; [|split].
    + replace (- Rmax a b * sin t) with (Rmax a b * - sin t) by ring.
      apply derivative_of_scaled, derivable_pt_lim_cos.
    + apply derivative_of_scaled, derivable_pt_lim_sin.
    + apply (derivable_pt_lim_const 0).
  - split; [|split].
    + replace (radius * sin t) with (0 - radius * - sin t) by ring.
      apply (derivable_pt_lim_minus (fct_cte radius) (fun u => radius * cos u)).
      * apply derivable_pt_lim_const.
      * apply derivative_of_scaled, derivable_pt_lim_cos.
    + apply derivative_of_scaled, derivable_pt_lim_sin.
    + apply derivative_of_linear.
Qed.

(** X20: the points of an [Arc] with non-zero semi-axes lie on the ellipse
    with semi-axes max(a, b) and min(a, b) in the plane z = 0, and the order
    in which the two are passed to the constructor makes no difference. *)
Theorem arc_on_ellipse (a b start stop : R) (right : bool) (t : R) :
  a <> 0 -> b <> 0 ->
  (x_point (Arc a b start stop right) t / Rmax a b)²
  + (y_point (Arc a b start stop right) t / Rmin a b)² = 1 /\
  z_point (Arc a b start stop right) t = 0 /\
  Arc a b start stop right = Arc b a start stop right.
Proof.
  intros Ha Hb. split; [|split].
  - cbn [x_point y_point Arc].
    assert (Hmax : Rmax a b <> 0) by (unfold Rmax; destruct (Rle_dec a b); assumption).
    assert (Hmin : Rmin a b <> 0) by (unfold Rmin; destruct (Rle_dec a b); assumption).
    pose proof (sin2_cos2 t) as Hone. unfold Rsqr in *.
    destruct right.
    + replace (Rmax a b * cos t / Rmax a b) with (cos t) by (field; exact Hmax).
      replace (1 * Rmin a b * sin t / Rmin a b) with (sin t) by (field; exact Hmin).
      lra.
    + replace (Rmax a b * cos t / Rmax a b) with (cos t) by (field; exact Hmax).
      replace (-1 * Rmin a b * sin t / Rmin a b) with (- sin t) by (field; exact Hmin).
      nra.
  - reflexivity.
  - unfold Arc. rewrite (Rmax_comm a b), (Rmin_comm a b). reflexivity.
Qed.

(** The ellipse with semi-axes 2 and 1. *)
Lemma arc_on_ellipse_witness :
  (1 : R) <> 0 /\ (2 : R) <> 0 /\
  (x_point (Arc 1 2 0 1 true) 0 / Rmax 1 2)²
  + (y_point (Arc 1 2 0 1 true) 0 / Rmin 1 2)² = 1.
Proof.
  assert (H1 : (1 : R) <> 0) by lra. assert (H2 : (2 : R) <> 0) by lra.
  split; [exact H1|]. split; [exact H2|].
  exact (proj1 (arc_on_ellipse 1 2 0 1 true 0 H1 H2)).
Defined.

(** X21: for an [Arc] built from positive semi-axes, the eccentricity lies
    in [0, 1], the focal distance squared is a² - b² for the sorted
    semi-axes, and both vanish for a circle. *)
Theorem arc_eccentricity (a b : R) (right : bool) :
  0 < a -> 0 < b ->
  let arc := Arc_init a b right in
  arc_b arc <= arc_a arc /\
  0 <= eccentricity arc <= 1 /\
  focus arc * focus arc = arc_a arc * arc_a arc - arc_b arc * arc_b arc /\
  (a = b -> eccentricity arc = 0 /\ focus arc = 0).
Proof.
  intros Ha Hb arc. unfold arc, focus, eccentricity, Arc_init.
  cbn [arc_a arc_b].
  set (p := Rmax a b). set (q := Rmin a b).
  assert (Hq : 0 < q) by (unfold q; apply Rmin_glb_lt; assumption).
  assert (Hqp : q <= p).
  { unfold p, q. apply Rle_trans with a; [apply Rmin_l | apply Rmax_l]. }
  assert (Hp : 0 < p) by lra.
  set (e2 := (p * p - q * q) / (p * p)).
  assert (Hlow : 0 <= e2).
  { unfold e2. apply Rmult_le_pos; [nra|]. left. apply Rinv_0_lt_compat. nra. }
  assert (Hhigh : e2 < 1).
  { unfold e2. apply (Rmult_lt_reg_r (p * p)); [nra|].
    replace ((p * p - q * q) / (p * p) * (p * p)) with (p * p - q * q) by (field; lra).
    nra. }
  split; [exact Hqp|]. split; [|split].
  - split; [apply sqrt_pos|].
    rewrite <- sqrt_1. apply sqrt_le_1_alt. lra.
  - replace (p * sqrt e2 * (p * sqrt e2)) with (p * p * (sqrt e2 * sqrt e2)) by ring.
    rewrite sqrt_sqrt by exact Hlow. unfold e2. field. lra.
  - intros Hab.
    assert (He : e2 = 0).
    { unfold e2, p, q. subst b. rewrite Rmax_left, Rmin_left by lra. field. lra. }
    rewrite He, sqrt_0. split; [reflexivity | ring].
Qed.

(** The ellipse with semi-axes 2 and 1, passed in the other order. *)
Lemma arc_eccentricity_witness :
  0 < 1 /\ 0 < 2 /\ 0 <= eccentricity (Arc_init 1 2 true) <= 1.
Proof.
  assert (H1 : 0 < 1) by lra. assert (H2 : 0 < 2) by lra.
  split; [exact H1|]. split; [exact H2|].
  exact (proj1 (proj2 (arc_eccentricity 1 2 true H1 H2))).
Defined.

End CurveFacts.

(** ** Batch evaluation of a curve *)

Section BatchEvaluation.

Variable self : ParametricCurve.

(** X22: [generate_points] returns one row per parameter value, in order:
    row [i] holds the three coordinates of the curve at [t[i]]. *)
Theorem generate_points_rows (t : list R) :
  length (Curve.generate_points self t) = length t /\
  forall i ti, t !! i = Some ti ->
    Curve.generate_points self t !! i
    = Some (x_point self ti, y_point self ti, z_point self ti).
Proof.
  split.
  - unfold Curve.generate_points. rewrite length_fmap, length_seq. reflexivity.
  - intros i ti Hti.
    assert (Hi : (i < length t)%nat) by (apply lookup_lt_is_Some; eauto).
    rewrite (list_lookup_lookup_total_lt (Curve.generate_points self t) i)
      by (unfold Curve.generate_points; rewrite length_fmap, length_seq; exact Hi).
    rewrite generate_points_row by exact Hi.
    rewrite (list_lookup_total_correct t i ti Hti). reflexivity.
Qed.

Variable step : R.

(** The loop shared by [tangent_x], [tangent_y] and [tangent_z], for the
    tangent method [point_tangent]. *)
Lemma one_sided_then_central (point_tangent : R -> R -> bool -> bool -> R)
    (t : list R) (i : nat) :
  (i < length t)%nat ->
  let s := (length t - 1)%nat in
  foldl (fun result k => <[k := point_tangent (t !!! k) step true true]> result)
        (<[s := point_tangent (t !!! s) step true false]>
           (<[0%nat := point_tangent (t !!! 0%nat) step false true]>
              (replicate (s + 1) 0)))
        (seq 1 (s - 1)) !! i
  = Some (point_tangent (t !!! i) step
            (negb (Nat.eqb i 0) || Nat.eqb i s) (negb (Nat.eqb i s))).
Proof.
  intros Hi s.
  assert (Hbody : forall (res : list R) (k : nat),
             <[k := point_tangent (t !!! k) step true true]> res
             = <[(k + 0)%nat := point_tangent (t !!! k) step true true]> res)
    by (intros; rewrite Nat.add_0_r; reflexivity).
  rewrite (foldl_insert_lookup _ (fun k => point_tangent (t !!! k) step true true)
             0 Hbody).
  rewrite !length_insert, length_replicate.
  destruct (decide (0 < i < s)%nat) as [Hin | Hout].
  - rewrite decide_True by lia. rewrite Nat.sub_0_r.
    destruct (Nat.eqb_spec i 0); [lia|]. destruct (Nat.eqb_spec i s); [lia|].
    reflexivity.
  - rewrite decide_False by lia.
    destruct (Nat.eqb_spec i s) as [-> | Hnl].
    + rewrite list_lookup_insert_eq by (rewrite length_insert, length_replicate; lia).
      destruct (Nat.eqb s 0); reflexivity.
    + assert (i = 0%nat) by (unfold s in *; lia). subst i.
      rewrite list_lookup_insert_ne by lia.
      rewrite list_lookup_insert_eq by (rewrite length_replicate; lia).
      reflexivity.
Qed.

(** The three per-coordinate tangent arrays, entry by entry. *)
Lemma sibling_tangents (t : list R) :
  t <> [] ->
  exists tx ty tz,
    Curve.tangent_x self t step = Some tx /\
    Curve.tangent_y self t step = Some ty /\
    Curve.tangent_z self t step = Some tz /\
    length tx = length t /\ length ty = length t /\ length tz = length t /\
    forall i, (i < length t)%nat ->
      let left := negb (Nat.eqb i 0) || Nat.eqb i (length t - 1) in
      let right := negb (Nat.eqb i (length t - 1)) in
      tx !! i = Some (tangent_x_point self (t !!! i) step left right) /\
      ty !! i = Some (tangent_y_point self (t !!! i) step left right) /\
      tz !! i = Some (tangent_z_point self (t !!! i) step left right).
Proof.
  intros Hne.
  destruct t as [|t0 t']; [contradiction|].
  set (t := t0 :: t') in *.
  assert (Hbody : forall (f : nat -> R) (res : list R) (k : nat),
             <[k := f k]> res = <[(k + 0)%nat := f k]> res)
    by (intros; rewrite Nat.add_0_r; reflexivity).
  assert (Hlen : forall (f : nat -> R) (l : list R) (ixs : list nat),
             length (foldl (fun result k => <[k := f k]> result) l ixs) = length l).
  { intros f l ixs. apply (foldl_insert_length _ f 0). apply Hbody. }
  assert (Hsize : (length t - 1 + 1)%nat = length t) by (cbn; lia).
  eexists. eexists. eexists.
  split; [reflexivity|]. split; [reflexivity|]. split; [reflexivity|].
  split; [|split; [|split]].
  - rewrite (Hlen (fun k => tangent_x_point self (t !!! k) step true true)).
    rewrite !length_insert, length_replicate. exact Hsize.
  - rewrite (Hlen (fun k => tangent_y_point self (t !!! k) step true true)).
    rewrite !length_insert, length_replicate. exact Hsize.
  - rewrite (Hlen (fun k => tangent_z_point self (t !!! k) step true true)).
    rewrite !length_insert, length_replicate. exact Hsize.
  - intros i Hi. cbv zeta. split; [|split].
    + apply (one_sided_then_central (tangent_x_point self) t i Hi).
    + apply (one_sided_then_central (tangent_y_point self) t i Hi).
    + apply (one_sided_then_central (tangent_z_point self) t i Hi).
Qed.

(** X23: on a non-empty sequence, [tangent_x], [tangent_y] and [tangent_z]
    return one entry per sample, each taken at its own sample: two-sided in
    the interior, forward ([left=False]) on the first sample and backward
    ([right=False]) on the last.  On a single sample the backward difference
    is the one that stays, since it is written second. *)
Theorem coordinate_tangent_rows (t : list R) (i : nat) :
  (i < length t)%nat ->
  let left := negb (Nat.eqb i 0) || Nat.eqb i (length t - 1) in
  let right := negb (Nat.eqb i (length t - 1)) in
  (exists result,
     Curve.tangent_x self t step = Some result /\ length result = length t /\
     result !! i = Some (tangent_x_point self (t !!! i) step left right)) /\
  (exists result,
     Curve.tangent_y self t step = Some result /\ length result = length t /\
     result !! i = Some (tangent_y_point self (t !!! i) step left right)) /\
  (exists result,
     Curve.tangent_z self t step = Some result /\ length result = length t /\
     result !! i = Some (tangent_z_point self (t !!! i) step left right)).
Proof.
  intros Hi left right.
  destruct (sibling_tangents t) as (tx & ty & tz & Hx & Hy & Hz & Lx & Ly & Lz & Hrow).
  { intros E. rewrite E in Hi. cbn in Hi. lia. }
  destruct (Hrow i Hi) as (Hxi & Hyi & Hzi).
  split; [|split]; eexists; (split; [eassumption|]); split; assumption.
Qed.

End BatchEvaluation.

(** The middle sample of 0, 1, 2 on the parabola. *)
Lemma generate_points_rows_witness :
  [0; 1; 2] !! 1%nat = Some 1 /\
  Curve.generate_points parabola [0; 1; 2] !! 1%nat
  = Some (x_point parabola 1, y_point parabola 1, z_point parabola 1).
Proof.
  split; [reflexivity|].
  exact (proj2 (generate_points_rows parabola [0; 1; 2]) 1%nat 1 eq_refl).
Defined.

(** A single sample of the parabola: the entry is the backward difference. *)
Lemma coordinate_tangent_rows_witness :
  (0 < length [3])%nat /\
  exists result,
    Curve.tangent_x parabola [3] 1 = Some result /\
    result !! 0%nat = Some (tangent_x_point parabola 3 1 true false).
Proof.
  assert (H : (0 < length [3])%nat) by (cbn; lia).
  split; [exact H|].
  destruct (proj1 (coordinate_tangent_rows parabola 1 [3] 0 H))
    as (result & Hrun & _ & Hrow).
  exists result. split; [exact Hrun | exact Hrow].
Defined.

Section TangentArray.

Variable self : ParametricCurve.
Variable step : R.

(** X24: on a non-empty sequence the array [tangent] returns has one row per
    sample.  Its first and its last row hold what [tangent_x], [tangent_y]
    and [tangent_z] hold there, so the four methods agree on sequences of one
    or two samples; every row in between holds one and the same value, the
    two-sided tangent at the last sample. *)
Theorem tangent_array_rows (t : list R) :
  t <> [] ->
  exists rows tx ty tz,
    Curve.tangent self t step = Some rows /\
    Curve.tangent_x self t step = Some tx /\
    Curve.tangent_y self t step = Some ty /\
    Curve.tangent_z self t step = Some tz /\
    length rows = length t /\
    (forall i, (i < length t)%nat -> (i = 0 \/ i = length t - 1)%nat ->
       rows !! i = Some (tx !!! i, ty !!! i, tz !!! i)) /\
    (forall i, (0 < i < length t - 1)%nat ->
       rows !! i
       = Some (tangent_point self (t !!! (length t - 1)%nat) step true true)).
Proof.
  intros Hne.
  destruct (tangent_rows self step t Hne) as (rows & Hrows & Hlen & Hrow).
  destruct (sibling_tangents self step t Hne)
    as (tx & ty & tz & Hx & Hy & Hz & _ & _ & _ & Hsib).
  exists rows, tx, ty, tz.
  repeat (split; [assumption|]). split.
  - intros i Hi Hedge. rewrite (Hrow i Hi).
    destruct (Hsib i Hi) as (Hxi & Hyi & Hzi). cbv zeta in Hxi, Hyi, Hzi.
    rewrite (list_lookup_total_correct _ _ _ Hxi), (list_lookup_total_correct _ _ _ Hyi),
      (list_lookup_total_correct _ _ _ Hzi).
    rewrite decide_False by lia. f_equal.
    destruct (decide (i = length t - 1)%nat) as [-> | Hnl].
    + rewrite Nat.eqb_refl. cbn [negb]. rewrite orb_true_r. reflexivity.
    + assert (i = 0%nat) by lia. subst i.
      destruct (Nat.eqb_spec 0 (length t - 1)); [lia|]. reflexivity.
  - intros i Hi. rewrite (Hrow i ltac:(lia)). rewrite decide_True by lia. reflexivity.
Qed.

End TangentArray.

(** Two samples of the parabola. *)
Lemma tangent_array_rows_witness :
  [0; 1] <> [] /\
  exists rows tx ty tz,
    Curve.tangent parabola [0; 1] 1 = Some rows /\
    Curve.tangent_x parabola [0; 1] 1 = Some tx /\
    Curve.tangent_y parabola [0; 1] 1 = Some ty /\
    Curve.tangent_z parabola [0; 1] 1 = Some tz /\
    rows !! 1%nat = Some (tx !!! 1%nat, ty !!! 1%nat, tz !!! 1%nat).
Proof.
  assert (H : [0; 1] <> []) by discriminate.
  split; [exact H|].
  destruct (tangent_array_rows parabola 1 [0; 1] H)
    as (rows & tx & ty & tz & Hr & Hx & Hy & Hz & _ & Hedge & _).
  exists rows, tx, ty, tz.
  repeat (split; [assumption|]).
  apply Hedge; cbn; lia.
Defined.

(** ** The evaluation pass and the refinement loop *)

Section PassTotals.

Variable nodes : list R.
Variables xyz xyz_t : list (R * R * R).

Lemma fold_segment_total_t (ixs : list nat) (e : Curve.estimate) :
  Curve.result_t_acc (foldl (Curve.segment nodes xyz xyz_t) e ixs)
  = foldl (fun acc i => acc + trapezoid_segment nodes xyz_t i)
          (Curve.result_t_acc e) ixs.
Proof.
  revert e. induction ixs as [|i ixs IH]; intros e; cbn [foldl]; [reflexivity|].
  rewrite IH. reflexivity.
Qed.

Lemma fold_segment_total_p (ixs : list nat) (e : Curve.estimate) :
  Curve.result_p_acc (foldl (Curve.segment nodes xyz xyz_t) e ixs)
  = foldl (fun acc i => acc + chord_rows xyz i) (Curve.result_p_acc e) ixs.
Proof.
  revert e. induction ixs as [|i ixs IH]; intros e; cbn [foldl]; [reflexivity|].
  rewrite IH. reflexivity.
Qed.

(** Summing the slots k + 1, ..., k + m of an array whose slot [i + 1] holds
    [f i]. *)
Lemma sum_shifted (a : list R) (f : nat -> R) (m : nat) :
  forall k acc,
    (forall i, (k <= i < k + m)%nat -> a !! (i + 1)%nat = Some (f i)) ->
    for_each (fun acc i => ai ← a !! i; Some (acc + ai)) (seq (k + 1) m) acc
    = Some (foldl (fun acc i => acc + f i) acc (seq k m)).
Proof.
  induction m as [|m IH]; intros k acc Ha; cbn [seq for_each foldl]; [reflexivity|].
  rewrite (Ha k) by lia. cbn [mbind option_bind].
  replace (S (k + 1)) with (S k + 1)%nat by lia.
  apply IH. intros i Hi. apply Ha. lia.
Qed.

End PassTotals.

(** X25: after one evaluation pass over a mesh with at least one node, the
    double that [__length_tangent_mesh] returns is the sum of the [solution]
    array it stored, summed the way [length] sums it, and no residual is
    negative. *)
Theorem length_tangent_mesh_total (self : ParametricCurve) (mesh : Mesh1D)
    (tangent_step : R) :
  (1 <= num mesh)%nat ->
  exists mesh' length_tangent,
    Curve.__length_tangent_mesh self mesh tangent_step = Some (mesh', length_tangent) /\
    sum_range (num mesh') (solution mesh') = Some length_tangent /\
    forall j rj, residual mesh' !! j = Some rj -> 0 <= rj.
Proof.
  intros Hnum.
  destruct (tangent_rows self tangent_step (physical_nodes mesh)) as (xyz_t & Ht & _ & _).
  { intros E. unfold num in Hnum. rewrite E in Hnum. cbn in Hnum. lia. }
  destruct (length_tangent_mesh_unfold self mesh tangent_step xyz_t Ht) as [_ Hrun].
  destruct (segment_loop_arrays (physical_nodes mesh)
              (Curve.generate_points self (physical_nodes mesh)) xyz_t (num mesh) Hnum)
    as (_ & Hle & Hs0 & He0 & Hrows).
  eexists. eexists. split; [exact Hrun|].
  cbn [solution residual]. change (num _) with (num mesh) at 1.
  split.
  - rewrite fold_segment_total_t. cbn [Curve.result_t_acc].
    unfold sum_range. destruct (num mesh) as [|m] eqn:Hn; [lia|].
    cbn [seq for_each]. rewrite Hs0. cbn [mbind option_bind].
    rewrite Rplus_0_l. replace (S m - 1)%nat with m in * by lia.
    apply (sum_shifted _ _ m 0%nat). intros i Hi.
    destruct (Hrows i ltac:(lia)) as [Hsol _]. exact Hsol.
  - intros j rj Hj.
    assert (Hjn : (j < num mesh)%nat).
    { rewrite <- Hle. apply lookup_lt_is_Some. eauto. }
    destruct j as [|i].
    + rewrite He0 in Hj. inversion Hj. lra.
    + replace (S i) with (i + 1)%nat in Hj by lia.
      destruct (Hrows i ltac:(lia)) as [_ He]. rewrite He in Hj. inversion Hj.
      apply Rabs_pos.
Qed.

(** The pass over the three-node mesh 0, 1, 2 on the parabola. *)
Lemma length_tangent_mesh_total_witness :
  (1 <= num three_node_mesh)%nat /\
  exists mesh' length_tangent,
    Curve.__length_tangent_mesh parabola three_node_mesh 1 = Some (mesh', length_tangent) /\
    sum_range (num mesh') (solution mesh') = Some length_tangent.
Proof.
  assert (H : (1 <= num three_node_mesh)%nat) by (cbn; lia).
  split; [exact H|].
  destruct (length_tangent_mesh_total parabola three_node_mesh 1 H)
    as (mesh' & l & Hrun & Hsum & _).
  exists mesh', l. auto.
Defined.

Lemma chords_nonneg (xyz : list (R * R * R)) (ixs : list nat) (acc : R) :
  0 <= acc -> 0 <= foldl (fun acc i => acc + chord_rows xyz i) acc ixs.
Proof.
  revert acc. induction ixs as [|i ixs IH]; intros acc Hacc; cbn [foldl]; [exact Hacc|].
  apply IH. pose proof (sqrt_pos
    ((cell xyz (i + 1) 0 - cell xyz i 0) * (cell xyz (i + 1) 0 - cell xyz i 0)
     + (cell xyz (i + 1) 1 - cell xyz i 1) * (cell xyz (i + 1) 1 - cell xyz i 1)
     + (cell xyz (i + 1) 2 - cell xyz i 2) * (cell xyz (i + 1) 2 - cell xyz i 2))).
  unfold chord_rows. lra.
Qed.

Lemma length_poly_array_unfold (self : ParametricCurve) (t : list R) :
  t <> [] ->
  __length_poly_array self t
  = Some (foldl (fun acc i => acc + chord_rows (Curve.generate_points self t) i)
                0 (seq 0 (length t - 1))).
Proof. intros Hne. destruct t; [contradiction | reflexivity]. Qed.

(** X26: on a non-empty sequence [__length_poly_array] returns a value that
    is not negative, 0 for a single sample; and it is the polyline total
    that an evaluation pass over a mesh with these nodes accumulates beside
    the tangent total. *)
Theorem length_poly_array_total (self : ParametricCurve) (mesh : Mesh1D)
    (tangent_step : R) :
  (1 <= num mesh)%nat ->
  exists e poly,
    Curve.length_tangent_mesh_loop self mesh tangent_step = Some e /\
    __length_poly_array self (physical_nodes mesh) = Some poly /\
    poly = Curve.result_p_acc e /\
    0 <= poly /\
    (num mesh = 1%nat -> poly = 0).
Proof.
  intros Hnum.
  destruct (tangent_rows self tangent_step (physical_nodes mesh)) as (xyz_t & Ht & _ & _).
  { intros E. unfold num in Hnum. rewrite E in Hnum. cbn in Hnum. lia. }
  destruct (length_tangent_mesh_unfold self mesh tangent_step xyz_t Ht) as [Hloop _].
  assert (Hne : physical_nodes mesh <> []).
  { intros E. unfold num in Hnum. rewrite E in Hnum. cbn in Hnum. lia. }
  eexists. eexists. split; [exact Hloop|].
  split; [apply (length_poly_array_unfold self _ Hne)|].
  rewrite fold_segment_total_p. cbn [Curve.result_p_acc].
  split; [reflexivity|]. split.
  - apply chords_nonneg. lra.
  - intros Hone. unfold num in Hone. rewrite Hone. reflexivity.
Qed.

(** The three-node mesh 0, 1, 2 on the parabola. *)
Lemma length_poly_array_total_witness :
  (1 <= num three_node_mesh)%nat /\
  exists poly, __length_poly_array parabola [0; 1; 2] = Some poly /\ 0 <= poly.
Proof.
  assert (H : (1 <= num three_node_mesh)%nat) by (cbn; lia).
  split; [exact H|].
  destruct (length_poly_array_total parabola three_node_mesh 1 H)
    as (e & poly & _ & Hrun & _ & Hpos & _).
  exists poly. split; [exact Hrun | exact Hpos].
Defined.

(** ** Curves traversed at constant speed *)

Section ConstantSpeed.

Variable self : ParametricCurve.
Variable speed : R.
Hypothesis Hspeed :
  forall t step left right, norm3 (tangent_point self t step left right) = speed.

(** Every row that [tangent] returns has the magnitude [speed], wherever the
    row was evaluated. *)
Lemma constant_speed_rows (nodes : list R) (step : R) (xyz_t : list (R * R * R))
    (i : nat) :
  Curve.tangent self nodes step = Some xyz_t ->
  (i < length nodes)%nat ->
  norm3 (xyz_t !!! i) = speed.
Proof.
  intros Ht Hi.
  destruct (tangent_rows self step nodes) as (result & Hrun & _ & Hrows).
  { intros E. rewrite E in Hi. cbn in Hi. lia. }
  rewrite Ht in Hrun. inversion Hrun. subst result.
  rewrite (list_lookup_total_correct _ _ _ (Hrows i Hi)).
  repeat case_decide; apply Hspeed.
Qed.

Lemma constant_speed_segment (nodes : list R) (step : R) (xyz_t : list (R * R * R))
    (i : nat) :
  Curve.tangent self nodes step = Some xyz_t ->
  (i + 1 < length nodes)%nat ->
  trapezoid_segment nodes xyz_t i
  = (nodes !!! (i + 1)%nat - nodes !!! i) * speed.
Proof.
  intros Ht Hi. unfold trapezoid_segment.
  rewrite (constant_speed_rows nodes step xyz_t i Ht) by lia.
  rewrite (constant_speed_rows nodes step xyz_t (i + 1) Ht) by lia.
  field.
Qed.

(** The parameter increments add up to the distance between the end
    samples. *)
Lemma trapezoids_telescope (nodes : list R) (xyz_t : list (R * R * R)) (m : nat) :
  forall k acc,
    (forall i, (k <= i < k + m)%nat ->
       trapezoid_segment nodes xyz_t i
       = (nodes !!! (i + 1)%nat - nodes !!! i) * speed) ->
    foldl (fun acc i => acc + trapezoid_segment nodes xyz_t i) acc (seq k m)
    = acc + (nodes !!! (k + m)%nat - nodes !!! k) * speed.
Proof.
  induction m as [|m IH]; intros k acc Hseg; cbn [seq foldl].
  - rewrite Nat.add_0_r. ring.
  - rewrite IH by (intros i Hi; apply Hseg; lia).
    rewrite (Hseg k) by lia.
    replace (S k + m)%nat with (k + S m)%nat by lia.
    replace (k + 1)%nat with (S k) by lia. ring.
Qed.

(** One evaluation pass over any mesh with at least one node: each stored
    segment length is the parameter increment times the speed, and the
    returned total is the parameter distance between the end nodes times
    the speed. *)
Lemma constant_speed_pass (mesh : Mesh1D) (tangent_step : R) :
  (1 <= num mesh)%nat ->
  exists mesh',
    Curve.__length_tangent_mesh self mesh tangent_step
    = Some (mesh',
            (physical_nodes mesh !!! (num mesh - 1)%nat - physical_nodes mesh !!! 0%nat)
            * speed) /\
    physical_nodes mesh' = physical_nodes mesh /\
    forall i, (i + 1 < num mesh)%nat ->
      solution mesh' !! (i + 1)%nat
      = Some ((physical_nodes mesh !!! (i + 1)%nat - physical_nodes mesh !!! i) * speed).
Proof.
  intros Hnum.
  destruct (tangent_rows self tangent_step (physical_nodes mesh)) as (xyz_t & Ht & _ & _).
  { intros E. unfold num in Hnum. rewrite E in Hnum. cbn in Hnum. lia. }
  destruct (length_tangent_mesh_unfold self mesh tangent_step xyz_t Ht) as [_ Hrun].
  destruct (segment_loop_arrays (physical_nodes mesh)
              (Curve.generate_points self (physical_nodes mesh)) xyz_t (num mesh) Hnum)
    as (_ & _ & _ & _ & Hrows).
  rewrite fold_segment_total_t in Hrun. cbn [Curve.result_t_acc] in Hrun.
  rewrite trapezoids_telescope in Hrun.
  2:{ intros i Hi. apply (constant_speed_segment _ tangent_step); [exact Ht|].
      unfold num in *. lia. }
  rewrite Rplus_0_l in Hrun. cbn [Nat.add] in Hrun.
  eexists. split; [exact Hrun|]. split; [reflexivity|].
  intros i Hi. cbn [solution]. destruct (Hrows i Hi) as [-> _].
  rewrite (constant_speed_segment _ tangent_step _ _ Ht) by (unfold num in *; lia).
  reflexivity.
Qed.

End ConstantSpeed.

(** The tangent of a helix has the same magnitude at every parameter
    value. *)
Lemma helix_speed (radius pitch start stop : R) (right : bool)
    (t step : R) (left right' : bool) :
  norm3 (tangent_point (Helix radius pitch start stop right) t step left right')
  = sqrt (radius * radius + pitch / (2 * M_PI) * (pitch / (2 * M_PI))).
Proof.
  unfold norm3, tangent_point. cbn [Helix tangent_x_point tangent_y_point tangent_z_point fst snd].
  f_equal. pose proof (sin2_cos2 t) as Hunit. unfold Rsqr in Hunit.
  destruct right.
  - replace (radius * sin t * (radius * sin t) + 1 * radius * cos t * (1 * radius * cos t))
      with (radius * radius * (sin t * sin t + cos t * cos t)) by ring.
    rewrite Hunit. ring.
  - replace (radius * sin t * (radius * sin t) + -1 * radius * cos t * (-1 * radius * cos t))
      with (radius * radius * (sin t * sin t + cos t * cos t)) by ring.
    rewrite Hunit. ring.
Qed.

(** The tangent of an arc with equal semi-axes (a circle) has the magnitude
    of the radius at every parameter value. *)
Lemma circle_speed (a start stop : R) (right : bool)
    (t step : R) (left right' : bool) :
  norm3 (tangent_point (Arc a a start stop right) t step left right') = Rabs a.
Proof.
  unfold norm3, tangent_point. cbn [Arc tangent_x_point tangent_y_point tangent_z_point fst snd].
  rewrite Rmax_left, Rmin_left by lra.
  rewrite <- sqrt_Rsqr_abs. f_equal. unfold Rsqr.
  pose proof (sin2_cos2 t) as Hunit. unfold Rsqr in Hunit.
  destruct right.
  - replace (- a * sin t * (- a * sin t) + 1 * a * cos t * (1 * a * cos t) + 0 * 0)
      with (a * a * (sin t * sin t + cos t * cos t)) by ring.
    rewrite Hunit. ring.
  - replace (- a * sin t * (- a * sin t) + -1 * a * cos t * (-1 * a * cos t) + 0 * 0)
      with (a * a * (sin t * sin t + cos t * cos t)) by ring.
    rewrite Hunit. ring.
Qed.

(** X27: one evaluation pass of a [Helix] over any mesh with at least one
    node stores, for each segment, the parameter increment times
    sqrt(radius^2 + (pitch / 2 pi)^2), and returns the parameter distance
    between the end nodes times that factor: the tangent estimator of a
    helix does not depend on how the mesh is laid. *)
Theorem helix_pass_exact (radius pitch start stop : R) (right : bool)
    (mesh : Mesh1D) (tangent_step : R) :
  (1 <= num mesh)%nat ->
  let speed := sqrt (radius * radius + pitch / (2 * M_PI) * (pitch / (2 * M_PI))) in
  exists mesh',
    Curve.__length_tangent_mesh (Helix radius pitch start stop right) mesh tangent_step
    = Some (mesh',
            (physical_nodes mesh !!! (num mesh - 1)%nat - physical_nodes mesh !!! 0%nat)
            * speed) /\
    physical_nodes mesh' = physical_nodes mesh /\
    forall i, (i + 1 < num mesh)%nat ->
      solution mesh' !! (i + 1)%nat
      = Some ((physical_nodes mesh !!! (i + 1)%nat - physical_nodes mesh !!! i) * speed).
Proof.
  intros Hnum speed.
  apply (constant_speed_pass (Helix radius pitch start stop right) speed); [|exact Hnum].
  intros t step left right'. apply helix_speed.
Qed.

(** The helix of radius 1 and pitch 1 over the three-node mesh 0, 1, 2. *)
Lemma helix_pass_exact_witness :
  (1 <= num three_node_mesh)%nat /\
  exists mesh',
    Curve.__length_tangent_mesh (Helix 1 1 0 2 true) three_node_mesh 1
    = Some (mesh', (2 - 0) * sqrt (1 * 1 + 1 / (2 * M_PI) * (1 / (2 * M_PI)))).
Proof.
  assert (H : (1 <= num three_node_mesh)%nat) by (cbn; lia).
  split; [exact H|].
  destruct (helix_pass_exact 1 1 0 2 true three_node_mesh 1 H) as (mesh' & Hrun & _).
  exists mesh'. exact Hrun.
Defined.

(** X28: one evaluation pass of an [Arc] with equal semi-axes (a circle of
    radius [a]) over any mesh with at least one node stores, for each
    segment, the parameter increment times |a|, and returns the parameter
    distance between the end nodes times |a|. *)
Theorem circle_pass_exact (a start stop : R) (right : bool)
    (mesh : Mesh1D) (tangent_step : R) :
  (1 <= num mesh)%nat ->
  exists mesh',
    Curve.__length_tangent_mesh (Arc a a start stop right) mesh tangent_step
    = Some (mesh',
            (physical_nodes mesh !!! (num mesh - 1)%nat - physical_nodes mesh !!! 0%nat)
            * Rabs a) /\
    physical_nodes mesh' = physical_nodes mesh /\
    forall i, (i + 1 < num mesh)%nat ->
      solution mesh' !! (i + 1)%nat
      = Some ((physical_nodes mesh !!! (i + 1)%nat - physical_nodes mesh !!! i) * Rabs a).
Proof.
  intros Hnum.
  apply (constant_speed_pass (Arc a a start stop right) (Rabs a)); [|exact Hnum].
  intros t step left right'. apply circle_speed.
Qed.

(** The circle of radius 2 over the three-node mesh 0, 1, 2. *)
Lemma circle_pass_exact_witness :
  (1 <= num three_node_mesh)%nat /\
  exists mesh',
    Curve.__length_tangent_mesh (Arc 2 2 0 2 true) three_node_mesh 1
    = Some (mesh', (2 - 0) * Rabs 2).
Proof.
  assert (H : (1 <= num three_node_mesh)%nat) by (cbn; lia).
  split; [exact H|].
  destruct (circle_pass_exact 2 0 2 true three_node_mesh 1 H) as (mesh' & Hrun & _).
  exists mesh'. exact Hrun.
Defined.

(** ** The store of meshes during refinement *)

Lemma keeps_nodes_refl (h : heap) : keeps_nodes h h.
Proof. intros r mesh Hr. exists mesh. auto. Qed.

Lemma keeps_nodes_trans (h1 h2 h3 : heap) :
  keeps_nodes h1 h2 -> keeps_nodes h2 h3 -> keeps_nodes h1 h3.
Proof.
  intros H12 H23 r mesh Hr.
  destruct (H12 r mesh Hr) as (mesh2 & Hr2 & Hn2 & Hs2).
  destruct (H23 r mesh2 Hr2) as (mesh3 & Hr3 & Hn3 & Hs3).
  exists mesh3. split; [exact Hr3|]. split; congruence.
Qed.

(** An evaluation pass leaves the nodes and the step of the mesh as they
    were. *)
Lemma evaluation_keeps_nodes (self : ParametricCurve) (mesh mesh' : Mesh1D)
    (tangent_step length_tangent : R) :
  Curve.__length_tangent_mesh self mesh tangent_step = Some (mesh', length_tangent) ->
  physical_nodes mesh' = physical_nodes mesh /\ physical_step mesh' = physical_step mesh.
Proof.
  unfold Curve.__length_tangent_mesh. intros Hrun.
  destruct (Curve.length_tangent_mesh_loop self mesh tangent_step); [|discriminate].
  cbn [mbind option_bind] in Hrun. inversion Hrun. split; reflexivity.
Qed.

(** An evaluation pass over an aligned mesh succeeds and leaves it
    aligned. *)
Lemma evaluation_aligned (self : ParametricCurve) (mesh : Mesh1D) (tangent_step : R) :
  aligned mesh ->
  exists mesh' length_tangent,
    Curve.__length_tangent_mesh self mesh tangent_step = Some (mesh', length_tangent) /\
    aligned mesh'.
Proof.
  intros (Hnum & _ & _).
  destruct (tangent_rows self tangent_step (physical_nodes mesh)) as (xyz_t & Ht & _ & _).
  { intros E. unfold num in Hnum. rewrite E in Hnum. cbn in Hnum. lia. }
  destruct (length_tangent_mesh_unfold self mesh tangent_step xyz_t Ht) as [_ Hrun].
  destruct (segment_loop_arrays (physical_nodes mesh)
              (Curve.generate_points self (physical_nodes mesh)) xyz_t (num mesh) Hnum)
    as (Hls & Hle & _).
  eexists. eexists. split; [exact Hrun|].
  unfold aligned. cbn [solution residual]. change (num _) with (num mesh).
  split; [exact Hnum|]. split; [exact Hls | exact Hle].
Qed.

(** The selector only names intervals between nodes of the mesh. *)
Lemma refinement_points_in_range (mesh : Mesh1D) (threshold : R) (p : nat * nat) :
  p ∈ refinement_points mesh threshold ->
  (p.1 < num mesh)%nat /\ (p.2 < num mesh)%nat.
Proof.
  unfold refinement_points. intros Hp.
  apply list_elem_of_fmap in Hp. destruct Hp as (i & -> & Hi).
  apply list_elem_of_filter in Hi. destruct Hi as [_ Hi].
  apply elem_of_seq in Hi. cbn [fst snd]. lia.
Qed.

Section Store.

Context `{MeshLibrary}.
Variable self : ParametricCurve.
Variables precision tangent_step : R.

Lemma uniform_mesh_aligned (b1 b2 step : R) : aligned (Mesh1DUniform b1 b2 step).
Proof.
  unfold aligned. rewrite uniform_mesh_num.
  unfold Mesh1DUniform. cbn [solution residual]. rewrite !length_replicate.
  repeat split; lia.
Qed.

(** The refinements of one mesh append one fresh uniform mesh each. *)
Lemma refines_store (mesh : Mesh1D) (refinements : list (nat * nat)) :
  forall h meshes_tree to_refine h' meshes_tree' to_refine',
    for_each (Curve.refine mesh) refinements (h, meshes_tree, to_refine)
    = Some (h', meshes_tree', to_refine') ->
    exists fresh,
      h' = h ++ fresh /\ Forall aligned fresh /\ length fresh = length refinements.
Proof.
  induction refinements as [|refinement refinements IH];
    intros h meshes_tree to_refine h' meshes_tree' to_refine' Hrun.
  - cbn in Hrun. inversion Hrun. exists []. rewrite app_nil_r. auto.
  - cbn [for_each] in Hrun.
    destruct (Curve.refine mesh (h, meshes_tree, to_refine) refinement)
      as [[[h1 tree1] n1]|] eqn:Hstep; [|discriminate].
    cbn [mbind option_bind] in Hrun. apply IH in Hrun.
    destruct Hrun as (fresh & -> & Hfresh & Hlen).
    unfold Curve.refine in Hstep.
    destruct (physical_nodes mesh !! refinement.1) as [b1|]; [|discriminate].
    destruct (physical_nodes mesh !! refinement.2) as [b2|]; [|discriminate].
    cbn [mbind option_bind] in Hstep. inversion Hstep. subst.
    eexists (_ :: fresh). rewrite <- app_assoc. split; [reflexivity|].
    split; [|cbn [length]; lia].
    constructor; [apply uniform_mesh_aligned | exact Hfresh].
Qed.

(** The refinements succeed when every pair names nodes of the mesh. *)
Lemma refines_succeed (mesh : Mesh1D) (refinements : list (nat * nat)) :
  (forall p, p ∈ refinements -> (p.1 < num mesh)%nat /\ (p.2 < num mesh)%nat) ->
  forall st, exists st', for_each (Curve.refine mesh) refinements st = Some st'.
Proof.
  induction refinements as [|refinement refinements IH]; intros Hin st.
  - exists st. reflexivity.
  - cbn [for_each]. destruct st as [[h meshes_tree] to_refine].
    destruct (Hin refinement ltac:(left)) as [H1 H2].
    assert (Hstep : exists st1,
              Curve.refine mesh (h, meshes_tree, to_refine) refinement = Some st1).
    { unfold Curve.refine.
      destruct (lookup_lt_is_Some_2 (physical_nodes mesh) refinement.1 H1) as [b1 ->].
      destruct (lookup_lt_is_Some_2 (physical_nodes mesh) refinement.2 H2) as [b2 ->].
      cbn [mbind option_bind]. eexists. reflexivity. }
    destruct Hstep as [st1 ->]. cbn [mbind option_bind].
    apply IH. intros p Hp. apply Hin. right. exact Hp.
Qed.

(** What one visit does to the store. *)
Lemma visit_store (h : heap) (meshes_tree : TreeMesh1DUniform) (to_refine r : nat)
    (h' : heap) (meshes_tree' : TreeMesh1DUniform) (to_refine' : nat) :
  Curve.visit self precision tangent_step (h, meshes_tree, to_refine) r
  = Some (h', meshes_tree', to_refine') ->
  (to_refine <= to_refine' /\ length h' + to_refine = length h + to_refine')%nat /\
  (Forall aligned h -> Forall aligned h') /\
  keeps_nodes h h'.
Proof.
  intros Hrun. apply visit_inv in Hrun.
  destruct Hrun as (mesh & mesh' & lt & h1 & tree1 & Hm & He & Hf & -> & _ & ->).
  apply refines_store in Hf. destruct Hf as (fresh & -> & Hfresh & Hlen).
  split; [|split].
  - rewrite length_app. unfold heap in *. rewrite length_insert. lia.
  - intros Hall. apply Forall_app. split; [|exact Hfresh].
    apply Forall_insert; [exact Hall|].
    pose proof (proj1 (Forall_lookup aligned h) Hall r mesh Hm) as Hmesh.
    destruct (evaluation_aligned self mesh tangent_step Hmesh) as (m2 & l2 & He2 & Hal).
    rewrite He in He2. inversion He2. subst. exact Hal.
  - intros r0 mesh0 Hr0. unfold heap in *.
    assert (Hlt : (r0 < length h)%nat) by (apply lookup_lt_is_Some; eauto).
    destruct (decide (r0 = r)) as [->|Hne].
    + exists mesh'. split.
      * rewrite lookup_app_l by (rewrite length_insert; exact Hlt).
        apply list_lookup_insert_eq. exact Hlt.
      * rewrite Hm in Hr0. inversion Hr0. subst mesh0.
        apply (evaluation_keeps_nodes self mesh mesh' tangent_step lt He).
    + exists mesh0. split; [|split; reflexivity].
      rewrite lookup_app_l by (rewrite length_insert; exact Hlt).
      rewrite list_lookup_insert_ne by congruence. exact Hr0.
Qed.

(** A visit of a mesh of an aligned store succeeds. *)
Lemma visit_succeeds (h : heap) (meshes_tree : TreeMesh1DUniform) (to_refine r : nat) :
  Forall aligned h -> (r < length h)%nat ->
  exists st', Curve.visit self precision tangent_step (h, meshes_tree, to_refine) r = Some st'.
Proof.
  intros Hall Hr.
  destruct (lookup_lt_is_Some_2 h r Hr) as [mesh Hm].
  pose proof (proj1 (Forall_lookup aligned h) Hall r mesh Hm) as Hmesh.
  destruct (evaluation_aligned self mesh tangent_step Hmesh) as (mesh' & lt & He & _).
  destruct (refines_succeed mesh' (refinement_points mesh' precision)
              (refinement_points_in_range mesh' precision)
              (<[r := mesh']> h, meshes_tree, to_refine)) as [[[h1 tree1] n1] Hf].
  unfold Curve.visit. unfold heap in *. rewrite Hm. cbn [mbind option_bind].
  rewrite He. cbn [mbind option_bind]. rewrite Hf. cbn [mbind option_bind].
  eexists. reflexivity.
Qed.

Lemma visits_store (refs : list nat) :
  forall h meshes_tree to_refine h' meshes_tree' to_refine',
    for_each (Curve.visit self precision tangent_step) refs (h, meshes_tree, to_refine)
    = Some (h', meshes_tree', to_refine') ->
    (to_refine <= to_refine' /\ length h' + to_refine = length h + to_refine')%nat /\
    (Forall aligned h -> Forall aligned h') /\
    keeps_nodes h h'.
Proof.
  induction refs as [|r refs IH];
    intros h meshes_tree to_refine h' meshes_tree' to_refine' Hrun.
  - cbn in Hrun. inversion Hrun. subst.
    split; [lia|]. split; [auto | apply keeps_nodes_refl].
  - cbn [for_each] in Hrun.
    destruct (Curve.visit self precision tangent_step (h, meshes_tree, to_refine) r)
      as [[[h1 tree1] n1]|] eqn:Hstep; [|discriminate].
    cbn [mbind option_bind] in Hrun.
    apply visit_store in Hstep. destruct Hstep as (Hl1 & Ha1 & Hk1).
    apply IH in Hrun. destruct Hrun as (Hl2 & Ha2 & Hk2).
    split; [lia|]. split; [auto|].
    apply (keeps_nodes_trans h h1 h'); assumption.
Qed.

Lemma visits_succeed (refs : list nat) :
  forall h meshes_tree to_refine,
    Forall aligned h ->
    (forall r, r ∈ refs -> (r < length h)%nat) ->
    exists st',
      for_each (Curve.visit self precision tangent_step) refs (h, meshes_tree, to_refine)
      = Some st'.
Proof.
  induction refs as [|r refs IH]; intros h meshes_tree to_refine Hall Hrefs.
  - eexists. reflexivity.
  - cbn [for_each].
    destruct (visit_succeeds h meshes_tree to_refine r Hall (Hrefs r ltac:(left)))
      as [[[h1 tree1] n1] Hstep].
    unfold heap in *. rewrite Hstep. cbn [mbind option_bind].
    apply visit_store in Hstep. destruct Hstep as (Hl1 & Ha1 & _).
    apply IH; [auto|].
    intros r0 Hr0. pose proof (Hrefs r0 ltac:(right; exact Hr0)). lia.
Qed.

Lemma mesh_tree_loop_store (remaining : nat) :
  forall iteration st h' meshes_tree' iterations,
    Curve.mesh_tree_loop self precision tangent_step remaining iteration st
    = Some (h', meshes_tree', iterations) ->
    (length st.1 <= length h')%nat /\
    (Forall aligned st.1 -> Forall aligned h') /\
    keeps_nodes st.1 h'.
Proof.
  induction remaining as [|remaining IH];
    intros iteration st h' meshes_tree' iterations Hrun.
  - cbn in Hrun. inversion Hrun. subst. cbn [fst].
    split; [lia|]. split; [auto | apply keeps_nodes_refl].
  - cbn [Curve.mesh_tree_loop] in Hrun.
    destruct (Curve.pass self precision tangent_step st)
      as [[[h1 tree1] n1]|] eqn:Hpass; [|discriminate].
    cbn [mbind option_bind] in Hrun.
    unfold Curve.pass in Hpass. apply visits_store in Hpass.
    destruct Hpass as (Hl1 & Ha1 & Hk1).
    destruct (n1 =? 0)%nat.
    + inversion Hrun. subst. split; [lia|]. split; assumption.
    + apply IH in Hrun. cbn [fst] in Hrun. destruct Hrun as (Hl2 & Ha2 & Hk2).
      split; [lia|]. split; [auto|].
      apply (keeps_nodes_trans st.1 h1 h'); assumption.
Qed.

End Store.

(** X29: whatever store [mesh_tree] ends with, the root mesh is still found
    under its reference with the nodes and the step it was built with, and
    every mesh of the store has at least one node and annotation arrays as
    long as its nodes: the loop writes [solution] and [residual] only. *)
Theorem mesh_tree_store `{MeshLibrary} (self : ParametricCurve) (precision : R)
    (max_iterations : nat) (tangent_step : R)
    (h : heap) (meshes_tree : TreeMesh1DUniform) (iterations : nat) :
  Curve.mesh_tree_run self precision max_iterations tangent_step
  = Some (h, meshes_tree, iterations) ->
  Forall aligned h /\
  exists root,
    h !! 0%nat = Some root /\
    physical_nodes root
    = physical_nodes
        (Mesh1DUniform (start self) (stop self) ((stop self - start self) / 2)) /\
    physical_step root = (stop self - start self) / 2.
Proof.
  intros Hrun. unfold Curve.mesh_tree_run in Hrun.
  apply mesh_tree_loop_store in Hrun. destruct Hrun as (_ & Hall & Hkeep).
  cbn [Curve.initial_tree fst] in Hall, Hkeep. split.
  - apply Hall. constructor; [apply uniform_mesh_aligned | constructor].
  - destruct (Hkeep 0%nat _ eq_refl) as (root & Hroot & Hnodes & Hstep).
    exists root. split; [exact Hroot|]. split; [exact Hnodes | exact Hstep].
Qed.

(** [ParametricCurve()] with its default domain on the list-backed library:
    one quiet turn. *)
Lemma mesh_tree_store_witness :
  exists h meshes_tree iterations,
    @Curve.mesh_tree_run list_tree_library (base_curve 0 0) 0 100 1
    = Some (h, meshes_tree, iterations) /\
    Forall aligned h.
Proof.
  set (root := @Mesh1DUniform list_tree_library 0 0 ((0 - 0) / 2)).
  assert (Hnum : (1 <= num root)%nat) by (unfold root; rewrite uniform_mesh_num; lia).
  assert (Hnode : forall i, (i < num root)%nat -> physical_nodes root !!! i = 0).
  { intros i Hi. unfold root. rewrite uniform_mesh_node by exact Hi. field. }
  destruct (still_pass (base_curve 0 0) 1 0 root Hnum Hnode)
    as (root' & lt & Heval & Hnum' & Hzero).
  assert (Hquiet : refinement_points root' 0 = []).
  { apply refinement_points_none. intros i Hi. rewrite Hnum' in Hi.
    destruct (Hzero (i + 1)%nat Hi) as [_ Hr].
    rewrite (list_lookup_total_correct _ _ _ Hr). lra. }
  pose proof (@root_only_run list_tree_library list_tree_contract
                (base_curve 0 0) 0 1 99 root' lt Heval Hquiet) as Hrun.
  exists [root'], (@new_tree list_tree_library 0 2 true), 1%nat.
  split; [exact Hrun|].
  exact (proj1 (@mesh_tree_store list_tree_library (base_curve 0 0) 0 100 1 _ _ _ Hrun)).
Defined.

(** X30: a turn of the loop of [mesh_tree] that returns has added to the
    store exactly as many meshes as it counts in [to_refine], one per
    interval handed to the refinement loop, and has left every mesh that was
    there under its reference with its nodes and its step.  So the loop stops
    on [to_refine == 0] exactly when the turn built no mesh. *)
Theorem pass_store `{MeshLibrary} (self : ParametricCurve)
    (precision tangent_step : R) (st : heap * TreeMesh1DUniform)
    (h' : heap) (meshes_tree' : TreeMesh1DUniform) (to_refine : nat) :
  Curve.pass self precision tangent_step st = Some (h', meshes_tree', to_refine) ->
  length h' = (length st.1 + to_refine)%nat /\
  (to_refine = 0%nat <-> length h' = length st.1) /\
  keeps_nodes st.1 h'.
Proof.
  intros Hrun. unfold Curve.pass in Hrun.
  apply visits_store in Hrun. destruct Hrun as (Hlen & _ & Hkeep).
  split; [lia|]. split; [lia | exact Hkeep].
Qed.

(** The first turn over the tree [mesh_tree] starts from, for the parabola on
    the list-backed library. *)
Lemma pass_store_witness :
  exists h' meshes_tree' to_refine,
    @Curve.pass list_tree_library parabola (1 / 1000000) (1 / 10000000000)
      (@Curve.initial_tree list_tree_library parabola)
    = Some (h', meshes_tree', to_refine) /\
    length h' = (1 + to_refine)%nat.
Proof.
  assert (Hall : Forall aligned (@Curve.initial_tree list_tree_library parabola).1).
  { cbn [Curve.initial_tree fst].
    constructor; [apply (@uniform_mesh_aligned list_tree_library) | constructor]. }
  assert (Hrefs : forall r,
            r ∈ @finest_level list_tree_library
                  (@Curve.initial_tree list_tree_library parabola).1
                  (@Curve.initial_tree list_tree_library parabola).2 ->
            (r < length (@Curve.initial_tree list_tree_library parabola).1)%nat).
  { intros r Hr. cbn in Hr. apply list_elem_of_singleton in Hr. subst r. cbn. lia. }
  destruct (@visits_succeed list_tree_library parabola (1 / 1000000) (1 / 10000000000)
              _ _ (@Curve.initial_tree list_tree_library parabola).2 0%nat Hall Hrefs)
    as [[[h' tree'] n] Hrun].
  exists h', tree', n. split; [exact Hrun|].
  exact (proj1 (@pass_store list_tree_library parabola (1 / 1000000) (1 / 10000000000)
                  _ _ _ _ Hrun)).
Defined.
